(** * RFM segmentation pipeline: K-means service and RFM calculator

    Shallow embedding of [KMeansService] (the ranking-based variant) and of the
    metric aggregation of [RFMCalculatorService], followed by the properties
    established for them.  The entry points of the calculator, the pure part
    of [RfmService] and the first [KMeansService] are embedded as well.

    JavaScript numbers are modelled by exact rationals extended with
    [Infinity], [-Infinity] and [NaN]: arithmetic is exact (no rounding), the
    sign of zero is not tracked, and every finite result is stored in lowest
    terms.  [Math.random] reads a fixed stream of draws through a position
    counter, and a run-time [TypeError] is the failure of the monad. *)

From Stdlib Require Import QArith Qround Qabs Lqa Lia ZArith Sorted.
From stdpp Require Import base option list gmap strings pretty.

Open Scope Q_scope.

(** ** JavaScript numbers *)

Inductive number : Type :=
  | NaN
  | PosInf
  | NegInf
  | Fin (q : Q).

Definition fin (q : Q) : number := Fin (Qred q).

Definition Qpos_b (q : Q) : bool := (0 <? Qnum q)%Z.
Definition Qneg_b (q : Q) : bool := (Qnum q <? 0)%Z.
Definition Qzero_b (q : Q) : bool := (Qnum q =? 0)%Z.
Definition Qlt_b (x y : Q) : bool := negb (Qle_bool y x).

Definition of_nat (n : nat) : number := Fin (inject_Z (Z.of_nat n)).

Definition add (x y : number) : number :=
  match x, y with
  | NaN, _ | _, NaN => NaN
  | PosInf, NegInf | NegInf, PosInf => NaN
  | PosInf, _ | _, PosInf => PosInf
  | NegInf, _ | _, NegInf => NegInf
  | Fin a, Fin b => fin (a + b)
  end.

Definition neg (x : number) : number :=
  match x with
  | NaN => NaN
  | PosInf => NegInf
  | NegInf => PosInf
  | Fin a => fin (- a)
  end.

Definition sub (x y : number) : number :=
  match x, y with
  | NaN, _ | _, NaN => NaN
  | PosInf, PosInf | NegInf, NegInf => NaN
  | PosInf, _ | _, NegInf => PosInf
  | NegInf, _ | _, PosInf => NegInf
  | Fin a, Fin b => fin (a - b)
  end.

(** Sign of an infinite product or quotient: [s] tells whether the infinite
    operand is positive, [q] is the finite one. *)
Definition inf_signed (s : bool) (q : Q) : number :=
  if Qzero_b q then NaN
  else if Bool.eqb s (Qpos_b q) then PosInf else NegInf.

Definition mul (x y : number) : number :=
  match x, y with
  | NaN, _ | _, NaN => NaN
  | PosInf, PosInf | NegInf, NegInf => PosInf
  | PosInf, NegInf | NegInf, PosInf => NegInf
  | PosInf, Fin q | Fin q, PosInf => inf_signed true q
  | NegInf, Fin q | Fin q, NegInf => inf_signed false q
  | Fin a, Fin b => fin (a * b)
  end.

Definition div (x y : number) : number :=
  match x, y with
  | NaN, _ | _, NaN => NaN
  | (PosInf | NegInf), (PosInf | NegInf) => NaN
  | PosInf, Fin q => if Qneg_b q then NegInf else PosInf
  | NegInf, Fin q => if Qneg_b q then PosInf else NegInf
  | Fin _, (PosInf | NegInf) => Fin 0
  | Fin a, Fin b =>
      if Qzero_b b then
        (if Qzero_b a then NaN else if Qpos_b a then PosInf else NegInf)
      else fin (a / b)
  end.

(** [x < y]; any comparison with [NaN] is false. *)
Definition lt (x y : number) : bool :=
  match x, y with
  | NaN, _ | _, NaN => false
  | _, NegInf => false
  | PosInf, _ => false
  | NegInf, _ => true
  | Fin _, PosInf => true
  | Fin a, Fin b => Qlt_b a b
  end.

Definition gt (x y : number) : bool := lt y x.

(** [x <= y]. *)
Definition le (x y : number) : bool :=
  match x, y with
  | NaN, _ | _, NaN => false
  | NegInf, _ => true
  | _, PosInf => true
  | _, NegInf => false
  | PosInf, _ => false
  | Fin a, Fin b => Qle_bool a b
  end.

Definition ge (x y : number) : bool := le y x.

(** [x === y] on numbers. *)
Definition eqn (x y : number) : bool :=
  match x, y with
  | PosInf, PosInf | NegInf, NegInf => true
  | Fin a, Fin b => Qeq_bool a b
  | _, _ => false
  end.

Definition is_nan (x : number) : bool :=
  match x with NaN => true | _ => false end.

Definition is_fin (x : number) : bool :=
  match x with Fin _ => true | _ => false end.

(** [Math.max(x, y)] and [Math.min(x, y)]: [NaN] as soon as one argument is. *)
Definition max2 (x y : number) : number :=
  match x, y with
  | NaN, _ | _, NaN => NaN
  | _, _ => if lt x y then y else x
  end.

Definition min2 (x y : number) : number :=
  match x, y with
  | NaN, _ | _, NaN => NaN
  | _, _ => if lt y x then y else x
  end.

(** [Math.max(...l)] and [Math.min(...l)]; on no argument they are
    [-Infinity] and [Infinity]. *)
Definition Math_max (l : list number) : number := foldr max2 NegInf l.
Definition Math_min (l : list number) : number := foldr min2 PosInf l.

Definition Math_abs (x : number) : number :=
  match x with
  | NaN => NaN
  | PosInf | NegInf => PosInf
  | Fin a => fin (Qabs a)
  end.

Definition Math_floor (x : number) : number :=
  match x with
  | Fin a => Fin (inject_Z (Qfloor a))
  | _ => x
  end.

Definition Math_ceil (x : number) : number :=
  match x with
  | Fin a => Fin (inject_Z (Qceiling a))
  | _ => x
  end.

(** Square root of a non-negative rational, rounded down to a multiple of
    [1 / (den * 2^53)]; exact whenever the root is rational. *)
Definition Qsqrt (q : Q) : Q :=
  let d := Z.pos (Qden q) in
  Z.sqrt (Qnum q * d * 4 ^ 53) # (Qden q * 2 ^ 53).

Definition Math_sqrt (x : number) : number :=
  match x with
  | NaN | NegInf => NaN
  | PosInf => PosInf
  | Fin a => if Qneg_b a then NaN else fin (Qsqrt a)
  end.

(** [Math.pow(x, 2)]. *)
Definition pow2 (x : number) : number := mul x x.

(** [x % 1] for a finite [x >= 0]; [NaN] on an infinite or [NaN] operand. *)
Definition mod1 (x : number) : number :=
  match x with
  | Fin a => if Qneg_b a then fin (a - inject_Z (Qceiling a))
             else fin (a - inject_Z (Qfloor a))
  | _ => NaN
  end.

(** A number used as an array index: defined on the non-negative integers. *)
Definition to_index (x : number) : option nat :=
  match x with
  | Fin a =>
      if Qeq_bool a (inject_Z (Qfloor a)) && (0 <=? Qfloor a)%Z
      then Some (Z.to_nat (Qfloor a)) else None
  | _ => None
  end.

Close Scope Q_scope.


(** ** Arrays *)

(** [a[i]] read as a number: [undefined] behaves as [NaN] in arithmetic. *)
Definition idx (a : list number) (i : nat) : number := default NaN (a !! i).

(** [a.filter((x, index) => f(index, x))], indices counted from [i]. *)
Fixpoint filter_from {A} (f : nat -> A -> bool) (i : nat) (l : list A) : list A :=
  match l with
  | [] => []
  | x :: l' =>
      if f i x then x :: filter_from f (S i) l' else filter_from f (S i) l'
  end.

Definition filteri {A} (f : nat -> A -> bool) (l : list A) : list A :=
  filter_from f 0 l.

(** [a.reduce((sum, x) => sum + f(x), 0)]. *)
Definition sum_by {A} (f : A -> number) (l : list A) : number :=
  foldl (fun sum x => add sum (f x)) (Fin 0) l.

(** [a.sort(cmp)]: the stable sort, by insertion from the right; [x] moves
    behind [y] only when [cmp(x, y) > 0], and a [NaN] comparison counts as a
    tie.  For a consistent comparator this is the result of every stable
    sort, the one the language prescribes. *)
Fixpoint sort_insert {A} (cmp : A -> A -> number) (x : A) (l : list A) : list A :=
  match l with
  | [] => [x]
  | y :: l' =>
      if gt (cmp x y) (Fin 0) then y :: sort_insert cmp x l' else x :: y :: l'
  end.

Definition Array_sort {A} (cmp : A -> A -> number) (l : list A) : list A :=
  foldr (sort_insert cmp) [] l.

(** [[...new Set(a)]]: the distinct values in order of first occurrence. *)
Fixpoint distinct_from (seen : list nat) (l : list nat) : list nat :=
  match l with
  | [] => []
  | x :: l' =>
      if bool_decide (x ∈ seen) then distinct_from seen l'
      else x :: distinct_from (x :: seen) l'
  end.

Definition Set_values (l : list nat) : list nat := distinct_from [] l.

(** ** Randomness and run-time errors *)

(** The draws of [Math.random], in the order they are made. *)
Definition RandomSource : Type := nat -> Q.

(** A computation reads the source from a position and either throws
    ([None]) or returns a value and the next position. *)
Definition M (A : Type) : Type := RandomSource -> nat -> option (A * nat).

Global Instance M_ret : MRet M := fun A a _ p => Some (a, p).
Global Instance M_bind : MBind M := fun A B f m r p =>
  match m r p with
  | Some (a, p') => f a r p'
  | None => None
  end.

Definition throw {A} : M A := fun _ _ => None.

Definition lift {A} (o : option A) : M A :=
  match o with
  | Some a => mret a
  | None => throw
  end.

Definition Math_random : M number := fun r p => Some (Fin (r p), S p).

(** ** Data model *)

Record RFMMetrics : Type := {
  user_id : string;
  recency : number;
  frequency : number;
  monetary : number;
  rfm_score : string
}.

(** [ClusteredRFMMetrics]: the fields of [RFMMetrics] with [cluster_id] and
    [segment]; [cluster_id] is [clusters[index]], [undefined] ([None]) when the
    assignment list has no such index. *)
Module Clustered.
Record ClusteredRFMMetrics : Type := {
  user_id : string;
  recency : number;
  frequency : number;
  monetary : number;
  rfm_score : string;
  cluster_id : option nat;
  segment : string
}.
End Clustered.
Export Clustered (ClusteredRFMMetrics).

(** An entry of [clusterStats] in [calculateClusterStatistics]. *)
Module Stats.
Record ClusterStats : Type := {
  cluster_id : nat;
  size : nat;
  avgRecency : number;
  avgFrequency : number;
  avgMonetary : number
}.
End Stats.
Export Stats (ClusterStats).

(** An entry of [clustersWithScores]: the statistics with their scores. *)
Module Scored.
Record ScoredCluster : Type := {
  cluster : ClusterStats;
  composite_score : number;
  recencyScore : number;
  frequencyScore : number;
  monetaryScore : number
}.
End Scored.
Export Scored (ScoredCluster).

Module Center.
Record ClusterCenter : Type := {
  cluster_id : nat;
  recency_center : number;
  frequency_center : number;
  monetary_center : number;
  segment_label : string;
  rank : nat;
  composite_score : number
}.
End Center.
Export Center (ClusterCenter).

Record Percentiles : Type := { p25 : number; p50 : number; p75 : number }.

Record DataStats : Type := {
  recencyPercentiles : Percentiles;
  frequencyPercentiles : Percentiles;
  monetaryPercentiles : Percentiles
}.

Record EvaluationMetrics : Type := {
  silhouetteScore : number;
  wcss : number;
  iterations : nat
}.

Record ClusteringResult : Type := {
  clusteredMetrics : list ClusteredRFMMetrics;
  centers : list ClusterCenter;
  evaluationMetrics : EvaluationMetrics;
  optimalK : nat;
  dataStats : DataStats
}.

(** The value returned by [runKMeansAlgorithm]. *)
Module KMeans.
Record Run : Type := {
  centroids : list (list number);
  clusters : list nat;
  iterations : nat
}.
End KMeans.

(** ** Feature normalizer *)

Definition normalize (value min max : number) : number :=
  if eqn max min then Fin 0 else div (sub value min) (sub max min).

Definition normalizeData (metrics : list RFMMetrics) : list (list number) :=
  let recencyValues := map recency metrics in
  let frequencyValues := map frequency metrics in
  let monetaryValues := map monetary metrics in
  let recency_min := Math_min recencyValues in
  let recency_max := Math_max recencyValues in
  let frequency_min := Math_min frequencyValues in
  let frequency_max := Math_max frequencyValues in
  let monetary_min := Math_min monetaryValues in
  let monetary_max := Math_max monetaryValues in
  map (fun metric =>
         [ normalize (recency metric) recency_min recency_max;
           normalize (frequency metric) frequency_min frequency_max;
           normalize (monetary metric) monetary_min monetary_max ])
      metrics.

(** ** Clustering engine *)

Definition maxIterations : nat := 100.
Definition convergenceThreshold : number := Fin (1 # 10000)%Q.

Definition euclideanDistance (point1 point2 : list number) : number :=
  Math_sqrt
    (foldl (fun sum '(index, val) => add sum (pow2 (sub val (idx point2 index))))
           (Fin 0) (imap pair point1)).

(** The inner loop of the seeding: the first point at which the cumulated
    weight reaches [randomValue], if there is one. *)
Fixpoint pickWeighted (distances : list number) (randomValue : number)
    (cumulativeDistance : number) (j : nat) (data : list (list number))
    : option (list number) :=
  match data with
  | [] => None
  | point :: rest =>
      let cumulativeDistance := add cumulativeDistance (idx distances j) in
      if ge cumulativeDistance randomValue then Some point
      else pickWeighted distances randomValue cumulativeDistance (S j) rest
  end.

(** The [n] remaining rounds of the seeding loop. *)
Fixpoint seedCentroids (data : list (list number)) (n : nat)
    (centroids : list (list number)) : M (list (list number)) :=
  match n with
  | O => mret centroids
  | S n' =>
      let distances :=
        map (fun point =>
               let minDistance :=
                 Math_min (map (fun centroid => euclideanDistance point centroid)
                               centroids) in
               mul minDistance minDistance)
            data in
      let totalDistance := sum_by id distances in
      r ← Math_random;
      let randomValue := mul r totalDistance in
      match pickWeighted distances randomValue (Fin 0) 0 data with
      | Some point => seedCentroids data n' (centroids ++ [point])
      | None => seedCentroids data n' centroids
      end
  end.

Definition initializeCentroidsKMeansPlusPlus (data : list (list number))
    (k : nat) : M (list (list number)) :=
  r ← Math_random;
  let firstIndex := Math_floor (mul r (of_nat (length data))) in
  first ← lift (to_index firstIndex ≫= fun i => data !! i);
  seedCentroids data (k - 1) [first].

Fixpoint closestFrom (point : list number) (index : nat)
    (centroids : list (list number)) (minDistance : number)
    (closestCentroid : nat) : nat :=
  match centroids with
  | [] => closestCentroid
  | centroid :: rest =>
      let distance := euclideanDistance point centroid in
      if lt distance minDistance
      then closestFrom point (S index) rest distance index
      else closestFrom point (S index) rest minDistance closestCentroid
  end.

Definition assignClusters (data centroids : list (list number)) : list nat :=
  map (fun point => closestFrom point 0 centroids PosInf 0) data.

(** The points of [data] whose index is assigned to cluster [i]. *)
Definition inCluster {A} (clusters : list nat) (i : nat) (data : list A) : list A :=
  filteri (fun index _ => bool_decide (clusters !! index = Some i)) data.

Definition updateCentroid (data : list (list number)) (clusters : list nat)
    (i : nat) : M (list number) :=
  let clusterPoints := inCluster clusters i data in
  match clusterPoints with
  | [] =>
      x ← Math_random; y ← Math_random; z ← Math_random;
      mret [x; y; z]
  | first :: _ =>
      mret (imap (fun dimIndex _ =>
                    div (sum_by (fun point => idx point dimIndex) clusterPoints)
                        (of_nat (length clusterPoints)))
                 first)
  end.

Definition updateCentroids (data : list (list number)) (clusters : list nat)
    (k : nat) : M (list (list number)) :=
  mapM (updateCentroid data clusters) (seq 0 k).

(** [a.every((x, index) => f(index, x))] where [f] may throw: it stops at the
    first [false] and at the first error. *)
Fixpoint every_from {A} (f : nat -> A -> option bool) (i : nat) (l : list A)
    : option bool :=
  match l with
  | [] => Some true
  | x :: l' =>
      match f i x with
      | Some true => every_from f (S i) l'
      | other => other
      end
  end.

(** Reading [previous[index][dimIndex]] throws when [previous[index]] is
    [undefined]; on an empty [centroid] it is never read. *)
Definition centroidsConverged (current previous : list (list number))
    (threshold : number) : option bool :=
  match previous with
  | [] => Some false
  | _ =>
      every_from
        (fun index centroid =>
           match centroid, previous !! index with
           | [], _ => Some true
           | _, None => None
           | _, Some prev =>
               Some (forallb id
                       (imap (fun dimIndex val =>
                                lt (Math_abs (sub val (idx prev dimIndex)))
                                   threshold)
                             centroid))
           end)
        0 current
  end.

(** State of the main loop of [runKMeansAlgorithm]. *)
Record Loop : Type := {
  l_centroids : list (list number);
  l_previous : list (list number);
  l_iterations : nat
}.

(** The loop condition
    [!centroidsConverged(centroids, previousCentroids) && iterations < maxIterations]. *)
Definition loopCondition (s : Loop) : option bool :=
  converged ← centroidsConverged (l_centroids s) (l_previous s) convergenceThreshold;
  Some (negb converged && (l_iterations s <? maxIterations)%nat).

Definition loopBody (data : list (list number)) (k : nat) (s : Loop) : M Loop :=
  let previousCentroids := l_centroids s in
  let clusters := assignClusters data (l_centroids s) in
  centroids ← updateCentroids data clusters k;
  mret {| l_centroids := centroids;
          l_previous := previousCentroids;
          l_iterations := S (l_iterations s) |}.

(** The [while] loop; [fuel] bounds the number of rounds still possible and
    is [maxIterations - iterations] at every test of the condition, so that
    the branch without fuel is never taken ([kmeansLoop_total]). *)
Fixpoint kmeansLoop (fuel : nat) (data : list (list number)) (k : nat)
    (s : Loop) : M Loop :=
  continue ← lift (loopCondition s);
  if continue : bool then
    match fuel with
    | O => throw
    | S fuel' => s' ← loopBody data k s; kmeansLoop fuel' data k s'
    end
  else mret s.

Definition runKMeansAlgorithm (normalizedData : list (list number)) (k : nat)
    : M KMeans.Run :=
  centroids ← initializeCentroidsKMeansPlusPlus normalizedData k;
  s ← kmeansLoop maxIterations normalizedData k
        {| l_centroids := centroids; l_previous := []; l_iterations := 0 |};
  let finalClusters := assignClusters normalizedData (l_centroids s) in
  mret {| KMeans.centroids := l_centroids s;
          KMeans.clusters := finalClusters;
          KMeans.iterations := l_iterations s |}.

(** ** Cluster statistics and segment ranker *)

Definition calculateClusterStatistics (metrics : list RFMMetrics)
    (clusters : list nat) (k : nat) : list ClusterStats :=
  map (fun i =>
         let clusterMetrics := inCluster clusters i metrics in
         match clusterMetrics with
         | [] =>
             {| Stats.cluster_id := i; Stats.size := 0;
                Stats.avgRecency := Fin 0; Stats.avgFrequency := Fin 0;
                Stats.avgMonetary := Fin 0 |}
         | _ =>
             let size := length clusterMetrics in
             {| Stats.cluster_id := i; Stats.size := size;
                Stats.avgRecency := div (sum_by recency clusterMetrics) (of_nat size);
                Stats.avgFrequency := div (sum_by frequency clusterMetrics) (of_nat size);
                Stats.avgMonetary := div (sum_by monetary clusterMetrics) (of_nat size) |}
         end)
      (seq 0 k).

Definition segmentLabels : list string :=
  ["VIP"; "Loyal"; "Potential"; "Pay Attention"]%string.

Definition recencyWeight : number := Fin (3 # 10)%Q.
Definition frequencyWeight : number := Fin (3 # 10)%Q.
Definition monetaryWeight : number := Fin (4 # 10)%Q.

Definition withScores (cluster : ClusterStats) : ScoredCluster :=
  let recencyScore :=
    if gt (Stats.avgRecency cluster) (Fin 0)
    then div (Fin 1) (Stats.avgRecency cluster) else Fin 1 in
  let frequencyScore := Stats.avgFrequency cluster in
  let monetaryScore := Stats.avgMonetary cluster in
  let composite_score :=
    add (add (mul recencyScore recencyWeight)
             (mul frequencyScore frequencyWeight))
        (mul monetaryScore monetaryWeight) in
  {| Scored.cluster := cluster;
     Scored.composite_score := composite_score;
     Scored.recencyScore := recencyScore;
     Scored.frequencyScore := frequencyScore;
     Scored.monetaryScore := monetaryScore |}.

(** The comparator [(a, b) => b.composite_score - a.composite_score]. *)
Definition byScoreDesc (a b : ScoredCluster) : number :=
  sub (Scored.composite_score b) (Scored.composite_score a).

Definition toCenter (index : nat) (cluster : ScoredCluster) : ClusterCenter :=
  let rank := index + 1 in
  let segment_label :=
    default ""%string
      (segmentLabels !! Nat.min index (length segmentLabels - 1)) in
  {| Center.cluster_id := Stats.cluster_id (Scored.cluster cluster);
     Center.recency_center := Stats.avgRecency (Scored.cluster cluster);
     Center.frequency_center := Stats.avgFrequency (Scored.cluster cluster);
     Center.monetary_center := Stats.avgMonetary (Scored.cluster cluster);
     Center.segment_label := segment_label;
     Center.rank := rank;
     Center.composite_score := Scored.composite_score cluster |}.

Definition rankClustersAndAssignLabels (clusterStats : list ClusterStats)
    : list ClusterCenter :=
  let clustersWithScores := map withScores clusterStats in
  let sorted := Array_sort byScoreDesc clustersWithScores in
  imap toCenter sorted.

(** [`Cluster ${c}`]. *)
Definition clusterName (c : option nat) : string :=
  ("Cluster " +:+ match c with Some n => pretty n | None => "undefined" end)%string.

Definition createClusteredMetrics (metrics : list RFMMetrics)
    (clusters : list nat) (rankedClusters : list ClusterCenter)
    : list ClusteredRFMMetrics :=
  let labelMap : gmap nat string :=
    foldl (fun m cluster =>
             <[Center.cluster_id cluster := Center.segment_label cluster]> m)
          ∅ rankedClusters in
  imap (fun index metric =>
          let c := clusters !! index in
          {| Clustered.user_id := user_id metric;
             Clustered.recency := recency metric;
             Clustered.frequency := frequency metric;
             Clustered.monetary := monetary metric;
             Clustered.rfm_score := rfm_score metric;
             Clustered.cluster_id := c;
             Clustered.segment :=
               match c ≫= fun n => labelMap !! n with
               | Some label =>
                   if bool_decide (label = ""%string) then clusterName c else label
               | None => clusterName c
               end |})
       metrics.

Definition denormalizeCenters (normalizedCentroids : list (list number))
    (originalMetrics : list RFMMetrics) (rankedClusters : list ClusterCenter)
    : list ClusterCenter :=
  rankedClusters.

(** ** Evaluator *)

(** [euclideanDistance(point, centroids[clusters[index]])]; with an
    [undefined] centroid the callback of [reduce] throws as soon as [point]
    has a coordinate. *)
Fixpoint wcssFrom (centroids : list (list number)) (clusters : list nat)
    (index : nat) (wcss : number) (data : list (list number)) : option number :=
  match data with
  | [] => Some wcss
  | point :: rest =>
      distance ←
        match clusters !! index ≫= fun c => centroids !! c with
        | Some centroid => Some (euclideanDistance point centroid)
        | None => match point with
                  | [] => Some (Math_sqrt (Fin 0))
                  | _ => None
                  end
        end;
      wcssFrom centroids clusters (S index) (add wcss (mul distance distance)) rest
  end.

Definition calculateWCSS (data centroids : list (list number))
    (clusters : list nat) : option number :=
  wcssFrom centroids clusters 0 (Fin 0) data.

(** Mean distance from [point] to [points]. *)
Definition meanDistance (point : list number) (points : list (list number))
    : number :=
  div (sum_by (fun otherPoint => euclideanDistance point otherPoint) points)
      (of_nat (length points)).

(** [a(i)] of the silhouette of point [i]. *)
Definition silhouetteA (data : list (list number)) (clusters : list nat)
    (i : nat) (point : list number) : number :=
  let cluster := clusters !! i in
  let sameClusterPoints :=
    filteri (fun j _ => bool_decide (clusters !! j = cluster) && negb (i =? j)%nat)
            data in
  if (0 <? length sameClusterPoints)%nat
  then meanDistance point sameClusterPoints else Fin 0.

(** [b(i)] of the silhouette of point [i]. *)
Definition silhouetteB (data : list (list number)) (clusters : list nat)
    (i : nat) (point : list number) : number :=
  let cluster := clusters !! i in
  let otherClusters :=
    filter (fun c => Some c ≠ cluster) (Set_values clusters) in
  Math_min
    (map (fun otherCluster =>
            let otherClusterPoints := inCluster clusters otherCluster data in
            if (0 <? length otherClusterPoints)%nat
            then meanDistance point otherClusterPoints else PosInf)
         otherClusters).

Definition silhouetteOf (data : list (list number)) (clusters : list nat)
    (i : nat) (point : list number) : number :=
  let a := silhouetteA data clusters i point in
  let b := silhouetteB data clusters i point in
  div (sub b a) (max2 a b).

Definition calculateSilhouetteScore (data : list (list number))
    (clusters : list nat) : number :=
  if (length data <=? 1)%nat then Fin 0
  else
    let silhouetteScores := imap (silhouetteOf data clusters) data in
    div (sum_by id silhouetteScores) (of_nat (length silhouetteScores)).

(** ** Descriptive statistics *)

(** [sorted[x]] for a number [x]; [undefined] is read as [NaN]. *)
Definition at_number (a : list number) (x : number) : number :=
  match to_index x with
  | Some i => idx a i
  | None => NaN
  end.

Definition percentile (values : list number) (p : number) : number :=
  let sorted := Array_sort sub values in
  let index := mul (div p (Fin 100)) (sub (of_nat (length sorted)) (Fin 1)) in
  let lower := Math_floor index in
  let upper := Math_ceil index in
  let weight := mod1 index in
  if ge upper (of_nat (length sorted))
  then at_number sorted (sub (of_nat (length sorted)) (Fin 1))
  else add (mul (at_number sorted lower) (sub (Fin 1) weight))
           (mul (at_number sorted upper) weight).

Definition percentilesOf (values : list number) : Percentiles :=
  {| p25 := percentile values (Fin 25);
     p50 := percentile values (Fin 50);
     p75 := percentile values (Fin 75) |}.

Definition calculateDataStats (metrics : list RFMMetrics) : DataStats :=
  let recencyValues := Array_sort sub (map recency metrics) in
  let frequencyValues := Array_sort sub (map frequency metrics) in
  let monetaryValues := Array_sort sub (map monetary metrics) in
  {| recencyPercentiles := percentilesOf recencyValues;
     frequencyPercentiles := percentilesOf frequencyValues;
     monetaryPercentiles := percentilesOf monetaryValues |}.

Definition zeroPercentiles : Percentiles :=
  {| p25 := Fin 0; p50 := Fin 0; p75 := Fin 0 |}.

Definition getEmptyResult (k : nat) : ClusteringResult :=
  {| clusteredMetrics := [];
     centers := [];
     evaluationMetrics :=
       {| silhouetteScore := Fin 0; wcss := Fin 0; iterations := 0 |};
     optimalK := k;
     dataStats :=
       {| recencyPercentiles := zeroPercentiles;
          frequencyPercentiles := zeroPercentiles;
          monetaryPercentiles := zeroPercentiles |} |}.

(** ** Pipeline *)

Definition performKMeansClustering (metrics : list RFMMetrics) (k : nat)
    (dataStats : option DataStats) : M ClusteringResult :=
  if (length metrics =? 0)%nat then mret (getEmptyResult k)
  else
    let dataStats := default (calculateDataStats metrics) dataStats in
    let normalizedData := normalizeData metrics in
    run ← runKMeansAlgorithm normalizedData k;
    let centroids := KMeans.centroids run in
    let clusters := KMeans.clusters run in
    let clusterStats := calculateClusterStatistics metrics clusters k in
    let rankedClusters := rankClustersAndAssignLabels clusterStats in
    let clusteredMetrics := createClusteredMetrics metrics clusters rankedClusters in
    let centers := denormalizeCenters centroids metrics rankedClusters in
    wcss ← lift (calculateWCSS normalizedData centroids clusters);
    let silhouetteScore := calculateSilhouetteScore normalizedData clusters in
    mret {| clusteredMetrics := clusteredMetrics;
            centers := centers;
            evaluationMetrics :=
              {| silhouetteScore := silhouetteScore;
                 wcss := wcss;
                 iterations := KMeans.iterations run |};
            optimalK := k;
            dataStats := dataStats |}.

(** ** Model selector *)

Definition minK : nat := 2.

Definition maxKOf (customerCount : nat) : nat := Nat.min 8 (customerCount / 2).

(** The values taken by [k] in [for (let k = minK; k <= maxK; k++)]. *)
Definition candidateKs (customerCount : nat) : list nat :=
  seq minK (S (maxKOf customerCount) - minK).

(** The first loop of [findOptimalK]: one clustering per candidate. *)
Definition sweepWCSS (metrics : list RFMMetrics) (ks : list nat) : M (list number) :=
  mapM (fun k =>
          let dataStats := calculateDataStats metrics in
          result ← performKMeansClustering metrics k (Some dataStats);
          mret (wcss (evaluationMetrics result)))
       ks.

Definition improvementRate (wcssValues : list number) (i : nat) : number :=
  let improvement := sub (idx wcssValues (i - 1)) (idx wcssValues i) in
  let nextImprovement := sub (idx wcssValues i) (idx wcssValues (i + 1)) in
  sub improvement nextImprovement.

(** One round of the elbow loop on the pair [(optimalK, maxImprovement)]. *)
Definition elbowStep (wcssValues : list number) (st : nat * number) (i : nat)
    : nat * number :=
  if gt (improvementRate wcssValues i) (snd st)
  then (minK + i, improvementRate wcssValues i)
  else st.

(** The values taken by [i] in
    [for (let i = 1; i < wcssValues.length - 1; i++)]. *)
Definition interior (wcssValues : list number) : list nat :=
  seq 1 (length wcssValues - 2).

Definition elbow (wcssValues : list number) : nat :=
  fst (foldl (elbowStep wcssValues) (minK, Fin 0) (interior wcssValues)).

Definition findOptimalK (metrics : list RFMMetrics) : M nat :=
  wcssValues ← sweepWCSS metrics (candidateKs (length metrics));
  mret (elbow wcssValues).

Definition performEnhancedClustering (metrics : list RFMMetrics)
    : M ClusteringResult :=
  if (length metrics =? 0)%nat then mret (getEmptyResult 0)
  else
    let dataStats := calculateDataStats metrics in
    optimalK ← findOptimalK metrics;
    result ← performKMeansClustering metrics optimalK (Some dataStats);
    mret {| clusteredMetrics := clusteredMetrics result;
            centers := centers result;
            evaluationMetrics := evaluationMetrics result;
            optimalK := optimalK;
            dataStats := dataStats |}.

(** ** Metric aggregator ([RFMCalculatorService]) *)

(** The fields of [Order] and [Customer] the aggregation reads. *)
Record Order : Type := {
  o_user_id : string;
  created_at : string;
  total : number
}.

Module Cus.
Record Customer : Type := { id : string }.
End Cus.
Export Cus (Customer).

(** The result of [calculateCustomerMetrics]. *)
Module Cust.
Record CustomerMetrics : Type := {
  recency : number;
  frequency : number;
  monetary : number
}.
End Cust.

(** [x || 0] on a number: [NaN] and [0] are falsy. *)
Definition or_zero (x : number) : number :=
  match x with
  | NaN => Fin 0
  | Fin q => if Qzero_b q then Fin 0 else x
  | _ => x
  end.

(** [new Date(x).getTime()] for a number [x]: an infinite or [NaN] time value
    is an invalid date.  The range limit of time values is not modelled. *)
Definition timeValue (x : number) : number :=
  match x with
  | Fin _ => x
  | _ => NaN
  end.

Definition msPerDay : number := Fin (1000 * 60 * 60 * 24).

Section Calculator.

(** [new Date(s).getTime()] for a string [s]: the time value in
    milliseconds, [NaN] when [s] is not a date. *)
Variable Date_getTime : string -> number.

(** The object [grouped] is used as a map from identifiers to arrays of
    orders; identifiers that name a property of [Object.prototype] are not
    modelled. *)
Definition groupOrdersByCustomer (orders : list Order) : gmap string (list Order) :=
  foldl (fun grouped order =>
           if bool_decide (o_user_id order = ""%string) then grouped
           else
             let userId := o_user_id order in
             <[userId := default [] (grouped !! userId) ++ [order]]> grouped)
        ∅ orders.

Definition calculateCustomerMetrics (orders : list Order) (currentDate : number)
    : Cust.CustomerMetrics :=
  let orderDates := map (fun order => Date_getTime (created_at order)) orders in
  let lastOrderDate := timeValue (Math_max orderDates) in
  let recency := Math_floor (div (sub currentDate lastOrderDate) msPerDay) in
  let frequency := of_nat (length orders) in
  let monetary := foldl (fun sum order => add sum (or_zero (total order))) (Fin 0) orders in
  {| Cust.recency := max2 (Fin 0) recency;
     Cust.frequency := max2 (Fin 1) frequency;
     Cust.monetary := max2 (Fin 0) monetary |}.

(** The body of [for (const customer of customers)]: the record pushed for
    [customer], if any. *)
Definition metricsOfCustomer (ordersByCustomer : gmap string (list Order))
    (currentDate : number) (customer : Customer) : option RFMMetrics :=
  if bool_decide (Cus.id customer = ""%string) then None
  else
    let customerId := Cus.id customer in
    match ordersByCustomer !! customerId with
    | None | Some [] => None
    | Some customerOrders =>
        let metrics := calculateCustomerMetrics customerOrders currentDate in
        Some {| user_id := Cus.id customer;
                recency := Cust.recency metrics;
                frequency := Cust.frequency metrics;
                monetary := Cust.monetary metrics;
                rfm_score := "" |}
    end.

Definition calculateMetricsForCustomers (currentDate : number)
    (customers : list Customer) (orders : list Order) : list RFMMetrics :=
  let ordersByCustomer := groupOrdersByCustomer orders in
  omap (metricsOfCustomer ordersByCustomer currentDate) customers.

End Calculator.

(** ** Entry points of the calculator *)






(** [issues.push(issue); recommendations.push(recommendation)] on the pair
    of the two arrays. *)
Definition pushIssue (st : list string * list string)
    (issue recommendation : string) : list string * list string :=
  (st.1 ++ [issue], st.2 ++ [recommendation]).

(** [new Set(ids.filter(Boolean))] on identifiers read as strings. *)
Definition idSet (ids : list string) : gset string :=
  list_to_set (filter (fun s => s <> ""%string) ids).

Section CalculatorEntry.

Variable Date_getTime : string -> number.


End CalculatorEntry.


(** ** Analysis service ([RfmService]) *)

(** What the query for the latest analysis returns. *)
Inductive LatestAnalysis : Type :=
  | QueryFailed
  | NoAnalysis
  | LastAnalysis (created_at : string).

Section Service.

Variable Date_getTime : string -> number.

(** [currentDate] is the time value of [new Date()]. *)
Definition shouldRunSegmentation (currentDate : number)
    (latest : LatestAnalysis) : bool :=
  match latest with
  | QueryFailed => true
  | NoAnalysis => true
  | LastAnalysis created_at =>
      let lastDate := Date_getTime created_at in
      let daysDiff := Math_floor (div (sub currentDate lastDate) msPerDay) in
      ge daysDiff (Fin 7)
  end.


End Service.

(** [(distribution[segment] || 0) + 1] over the clustered metrics. *)
Definition calculateSegmentDistribution
    (clusteredMetrics : list ClusteredRFMMetrics) : gmap string nat :=
  foldl (fun distribution metric =>
           <[Clustered.segment metric :=
               default 0 (distribution !! Clustered.segment metric) + 1]>
             distribution)
        ∅ clusteredMetrics.

(** The document written by [saveAnalysisMetadata], without its
    timestamps. *)
Record AnalysisData : Type := {
  optimal_k : nat;
  total_customers : nat;
  silhouette_score : number;
  a_wcss : number;
  a_iterations : nat;
  segment_distribution : gmap string nat
}.

Definition analysisData (result : ClusteringResult) : AnalysisData :=
  {| optimal_k := optimalK result;
     total_customers := length (clusteredMetrics result);
     silhouette_score := silhouetteScore (evaluationMetrics result);
     a_wcss := wcss (evaluationMetrics result);
     a_iterations := iterations (evaluationMetrics result);
     segment_distribution :=
       calculateSegmentDistribution (clusteredMetrics result) |}.

(** ** The first clustering service *)

(** The class [KMeansService] at the head of the file shares
    [normalizeData], [assignClusters], [euclideanDistance] and
    [updateCentroids] with the enhanced one; it seeds uniformly, stops at
    0.001 and labels the first four clusters by fixed thresholds. *)

(** [segment] and [segment_label] are [undefined] for a cluster index
    without label. *)
Module LClustered.
Record ClusteredRFMMetrics : Type := {
  user_id : string;
  recency : number;
  frequency : number;
  monetary : number;
  rfm_score : string;
  cluster_id : option nat;
  segment : option string
}.
End LClustered.

Module LCenter.
Record Center : Type := {
  cluster_id : nat;
  recency_center : number;
  frequency_center : number;
  monetary_center : number;
  segment_label : option string
}.
End LCenter.

Module LResult.
Record Result : Type := {
  clusteredMetrics : list LClustered.ClusteredRFMMetrics;
  centers : list LCenter.Center
}.
End LResult.

Module Legacy.

Definition threshold : number := Fin (1 # 1000).

(** [centroids.push([...data[randomIndex]])], [k] times; spreading
    [undefined] throws. *)
Definition initializeCentroids (data : list (list number)) (k : nat)
    : M (list (list number)) :=
  mapM (fun _ : nat =>
          r ← Math_random;
          let randomIndex := Math_floor (mul r (of_nat (length data))) in
          lift (to_index randomIndex ≫= fun i => data !! i))
       (seq 0 k).

Definition loopCondition (s : Loop) : option bool :=
  converged ← centroidsConverged (l_centroids s) (l_previous s) threshold;
  Some (negb converged && (l_iterations s <? maxIterations)%nat).

(** The [while] loop, with the fuel of [kmeansLoop]. *)
Fixpoint kmeansLoop (fuel : nat) (data : list (list number)) (k : nat)
    (s : Loop) : M Loop :=
  continue ← lift (loopCondition s);
  if continue : bool then
    match fuel with
    | O => throw
    | S fuel' => s' ← loopBody data k s; kmeansLoop fuel' data k s'
    end
  else mret s.

Definition generateClusterLabels (metrics : list RFMMetrics)
    (clusters : list nat) : list string :=
  map (fun i =>
         let clusterMetrics := inCluster clusters i metrics in
         match clusterMetrics with
         | [] => "Cần chăm sóc"%string
         | _ =>
             let size := of_nat (length clusterMetrics) in
             let avgRecency := div (sum_by recency clusterMetrics) size in
             let avgFrequency := div (sum_by frequency clusterMetrics) size in
             let avgMonetary := div (sum_by monetary clusterMetrics) size in
             if le avgRecency (Fin 30) && ge avgFrequency (Fin 4)
                && ge avgMonetary (Fin 2000000)
             then "VIP"%string
             else if ge avgFrequency (Fin 3) && ge avgMonetary (Fin 1000000)
             then "Loyal"%string
             else if le avgRecency (Fin 60) || ge avgFrequency (Fin 2)
             then "Potential"%string
             else "Pay attetion"%string
         end)
      (seq 0 4).

Definition performKMeansClustering (metrics : list RFMMetrics) (k : nat)
    : M LResult.Result :=
  if (length metrics =? 0)%nat
  then mret {| LResult.clusteredMetrics := []; LResult.centers := [] |}
  else
    let normalizedData := normalizeData metrics in
    centroids ← initializeCentroids normalizedData k;
    s ← kmeansLoop maxIterations normalizedData k
          {| l_centroids := centroids; l_previous := []; l_iterations := 0 |};
    let centroids := l_centroids s in
    let finalClusters := assignClusters normalizedData centroids in
    let clusterLabels := generateClusterLabels metrics finalClusters in
    mret {| LResult.clusteredMetrics :=
              imap (fun index metric =>
                      {| LClustered.user_id := user_id metric;
                         LClustered.recency := recency metric;
                         LClustered.frequency := frequency metric;
                         LClustered.monetary := monetary metric;
                         LClustered.rfm_score := rfm_score metric;
                         LClustered.cluster_id := finalClusters !! index;
                         LClustered.segment := finalClusters !! index ≫=
                                      fun c => clusterLabels !! c |})
                   metrics;
            LResult.centers :=
              imap (fun index center =>
                      {| LCenter.cluster_id := index;
                         LCenter.recency_center := idx center 0;
                         LCenter.frequency_center := idx center 1;
                         LCenter.monetary_center := idx center 2;
                         LCenter.segment_label := clusterLabels !! index |})
                   centroids |}.

End Legacy.

(** ** Vocabulary of the statements *)

(** The [RFMMetrics] fields of a clustered metric. *)
Definition metricOf (c : ClusteredRFMMetrics) : RFMMetrics :=
  {| user_id := Clustered.user_id c;
     recency := Clustered.recency c;
     frequency := Clustered.frequency c;
     monetary := Clustered.monetary c;
     rfm_score := Clustered.rfm_score c |}.

(** Scenario A: four customers, clustered with [k = 2]. *)
Definition customerA (u : string) (r f m : Q) : RFMMetrics :=
  {| user_id := u; recency := Fin r; frequency := Fin f; monetary := Fin m;
     rfm_score := "" |}.

Definition scenarioA : list RFMMetrics :=
  [ customerA "c1" 5 10 5000000; customerA "c2" 60 1 200000;
    customerA "c3" 3 8 4500000; customerA "c4" 90 1 150000 ].

(** A random source cycling through 0, 0.1, ..., 0.6. *)
Definition demoSource : RandomSource :=
  fun n => (Z.of_nat (n mod 7) # 10)%Q.

(** Two customers with the same values. *)
Definition twins : list RFMMetrics :=
  [ customerA "t1" 7 2 90; customerA "t2" 7 2 90 ].

(** Two coincident points put in two different clusters. *)
Definition twinPoints : list (list number) :=
  [[Fin 0; Fin 0; Fin 0]; [Fin 0; Fin 0; Fin 0]].

(** A record whose three values are finite numbers. *)
Definition finiteMetric (m : RFMMetrics) : bool :=
  is_fin (recency m) && is_fin (frequency m) && is_fin (monetary m).

(** [mn] and [mx] are the least and the greatest of the values [xs]. *)
Definition bounds (xs : list number) (mn mx : Q) : Prop :=
  (exists a, Fin a ∈ xs /\ (a == mn)%Q) /\
  (exists a, Fin a ∈ xs /\ (a == mx)%Q) /\
  forall a, Fin a ∈ xs -> (mn <= a <= mx)%Q.

(** [y] is the min-max scaling of the value [x] of an axis whose values over
    the population are [xs]. *)
Definition scaled (xs : list number) (x y : number) : Prop :=
  exists v mn mx q : Q,
    x = Fin v /\ y = Fin q /\ bounds xs mn mx /\
    (0 <= q <= 1)%Q /\
    (~ (mx == mn)%Q -> (q == (v - mn) / (mx - mn))%Q) /\
    ((mx == mn)%Q -> y = Fin 0) /\
    ((v == mn)%Q -> y = Fin 0) /\
    ((v == mx)%Q -> ~ (mx == mn)%Q -> y = Fin 1).

(** Cluster statistics whose three averages are finite numbers. *)
Definition finiteStats (s : ClusterStats) : bool :=
  is_fin (Stats.avgRecency s) && is_fin (Stats.avgFrequency s)
  && is_fin (Stats.avgMonetary s).

(** The composite score of the claim:
    [0.3 * recencyScore + 0.3 * avgFrequency + 0.4 * avgMonetary] with
    [recencyScore = 1 / avgRecency] when [avgRecency > 0] and 1 otherwise. *)
Definition recencyScoreOf (avgRecency : number) : number :=
  if gt avgRecency (Fin 0) then div (Fin 1) avgRecency else Fin 1.

Definition compositeOf (avgRecency avgFrequency avgMonetary : number) : number :=
  add (add (mul (recencyScoreOf avgRecency) (Fin (3 # 10)))
           (mul avgFrequency (Fin (3 # 10))))
      (mul avgMonetary (Fin (4 # 10))).

(** What a ranked center keeps of the statistics of its cluster. *)
Definition centerKey (c : ClusterCenter) : nat * number * number * number :=
  (Center.cluster_id c, Center.recency_center c, Center.frequency_center c,
   Center.monetary_center c).

Definition statsKey (s : ClusterStats) : nat * number * number * number :=
  (Stats.cluster_id s, Stats.avgRecency s, Stats.avgFrequency s,
   Stats.avgMonetary s).

(** The label of the claim for the cluster at position [index] of the
    ranking: the fixed sequence, clamped to its last entry. *)
Definition labelAt (index : nat) : string :=
  match index with
  | 0 => "VIP"
  | 1 => "Loyal"
  | 2 => "Potential"
  | _ => "Pay Attention"
  end.

(** [a] may come before [b] in a list sorted by decreasing [key]. *)
Definition desc {A} (key : A -> number) (a b : A) : Prop :=
  le (key b) (key a) = true.

(** The statistics recorded for a cluster without points. *)
Definition emptyStats (i : nat) : ClusterStats :=
  {| Stats.cluster_id := i; Stats.size := 0; Stats.avgRecency := Fin 0;
     Stats.avgFrequency := Fin 0; Stats.avgMonetary := Fin 0 |}.

(** Five clusters, one more than there are labels. *)
Definition fiveClusters : list ClusterStats :=
  [ {| Stats.cluster_id := 0; Stats.size := 2; Stats.avgRecency := Fin 40;
       Stats.avgFrequency := Fin 2; Stats.avgMonetary := Fin 300 |};
    {| Stats.cluster_id := 1; Stats.size := 1; Stats.avgRecency := Fin 2;
       Stats.avgFrequency := Fin 9; Stats.avgMonetary := Fin 5000 |};
    {| Stats.cluster_id := 2; Stats.size := 3; Stats.avgRecency := Fin 0;
       Stats.avgFrequency := Fin 1; Stats.avgMonetary := Fin 10 |};
    {| Stats.cluster_id := 3; Stats.size := 1; Stats.avgRecency := Fin 10;
       Stats.avgFrequency := Fin 4; Stats.avgMonetary := Fin 900 |};
    {| Stats.cluster_id := 4; Stats.size := 2; Stats.avgRecency := Fin 90;
       Stats.avgFrequency := Fin 1; Stats.avgMonetary := Fin 50 |} ].

(** One record of frequency 0 assigned to cluster 1 of 2: cluster 0 is empty. *)
Definition dormant : list RFMMetrics := [ customerA "d1" 10 0 0 ].

(** The orders of [orders] placed by the customer [u]. *)
Definition ordersOf (u : string) (orders : list Order) : list Order :=
  filter (fun o => o_user_id o = u) orders.

(** An order with a valid creation date and a finite total. *)
Definition validOrder (Date_getTime : string -> number) (o : Order) : bool :=
  is_fin (Date_getTime (created_at o)) && is_fin (total o).

(** The dates of the aggregation example: three days in milliseconds since
    the epoch, every other string being no date. *)
Definition demoDate (s : string) : number :=
  if bool_decide (s = "2024-01-01"%string) then Fin 1704067200000
  else if bool_decide (s = "2024-03-01"%string) then Fin 1709251200000
  else if bool_decide (s = "2030-01-01"%string) then Fin 1893456000000
  else NaN.

(** 2024-03-11. *)
Definition demoNow : number := Fin 1710115200000.

Definition demoCustomers : list Customer :=
  [ {| Cus.id := "u1" |}; {| Cus.id := "u2" |}; {| Cus.id := "u3" |} ].

Definition demoOrders : list Order :=
  [ {| o_user_id := "u1"; created_at := "2024-01-01"; total := Fin 120 |};
    {| o_user_id := "u2"; created_at := "2030-01-01"; total := Fin 75 |};
    {| o_user_id := "u1"; created_at := "2024-03-01"; total := Fin 30 |} ].

(** Every draw of the source is in [[0, 1)], as [Math.random] promises. *)
Definition validSource (r : RandomSource) : Prop :=
  forall n, (0 <= r n < 1)%Q.

(** A point of [d] finite coordinates. *)
Definition finitePoint (d : nat) (point : list number) : Prop :=
  length point = d /\ Forall (fun x => is_fin x = true) point.

(** A finite number that is not negative. *)
Definition nonneg (x : number) : Prop :=
  match x with
  | Fin q => (0 <= q)%Q
  | _ => False
  end.

(** The sum of the finite values of a list. *)
Definition qsum (l : list number) : Q :=
  foldr (fun x acc => match x with Fin q => (q + acc)%Q | _ => acc end) 0%Q l.

(** [n] rounds of the loop body from the state [s]. *)
Fixpoint rounds (n : nat) (data : list (list number)) (k : nat) (s : Loop)
    : M Loop :=
  match n with
  | O => mret s
  | S n' => s' ← loopBody data k s; rounds n' data k s'
  end.

(** The state in which [runKMeansAlgorithm] enters its loop. *)
Definition enterLoop (centroids : list (list number)) : Loop :=
  {| l_centroids := centroids; l_previous := []; l_iterations := 0 |}.

(** The convergence test of the loop in state [s]. *)
Definition convergedAt (s : Loop) : option bool :=
  centroidsConverged (l_centroids s) (l_previous s) convergenceThreshold.

(** Every coordinate of every centroid of [current] is less than
    [threshold] away from the same coordinate of [previous]. *)
Definition allWithin (current previous : list (list number))
    (threshold : number) : Prop :=
  forall index centroid dimIndex val,
    current !! index = Some centroid -> centroid !! dimIndex = Some val ->
    exists prev, previous !! index = Some prev /\
      lt (Math_abs (sub val (idx prev dimIndex))) threshold = true.

(** A computation whose outcome depends on the random source through the
    values of its draws only. *)
Definition respects {A} (m : M A) : Prop :=
  forall (r1 r2 : RandomSource) (p : nat),
    (forall n, r1 n = r2 n) -> m r1 p = m r2 p.

(** What the pair [(optimalK, maxImprovement)] of the elbow loop is after
    the rounds [seen]. *)
Definition elbowInv (wcssValues : list number) (seen : list nat)
    (st : nat * number) : Prop :=
  let rate := improvementRate wcssValues in
  (st = (minK, Fin 0) /\ forall i, i ∈ seen -> gt (rate i) (Fin 0) = false) \/
  (exists i, i ∈ seen /\ st = (minK + i, rate i) /\
             gt (rate i) (Fin 0) = true /\
             forall j, j ∈ seen -> gt (rate j) (rate i) = false).

(** A finite number of the unit interval. *)
Definition inUnit (x : number) : Prop :=
  match x with
  | Fin q => (0 <= q <= 1)%Q
  | _ => False
  end.

(** A point of [d] coordinates of the unit interval. *)
Definition unitPoint (d : nat) (point : list number) : Prop :=
  length point = d /\ Forall inUnit point.

(** The clusters among [0 .. k-1] that have no point of [data]. *)
Definition emptyClusters {A} (clusters : list nat) (k : nat) (data : list A)
    : list nat :=
  filter (fun i => length (inCluster clusters i data) = 0) (seq 0 k).

(** [y] is the percentile [p] of the values [xs] as the code reads it: with
    [s] the values in increasing order and [ix = p / 100 * (n - 1)], the
    interpolation [s[lo] * (1 - w) + s[hi] * w] of the neighbours
    [s[lo] <= s[hi]] at [lo = floor ix] and [hi = ceil ix], [w] being the
    fractional part of [ix]; it is [s[lo]] when [ix] is whole. *)
Definition interpolated (xs : list number) (p : Q) (y : number) : Prop :=
  exists (s : list Q) (a b w : Q),
    Fin <$> s ≡ₚ xs /\ StronglySorted Qle s /\
    let ix := (p / 100 * (inject_Z (Z.of_nat (length xs)) - 1))%Q in
    s !! Z.to_nat (Qfloor ix) = Some a /\
    s !! Z.to_nat (Qceiling ix) = Some b /\
    (a <= b)%Q /\ (w == ix - inject_Z (Qfloor ix))%Q /\
    y = add (mul (Fin a) (sub (Fin 1) (Fin w))) (mul (Fin b) (Fin w)) /\
    ((w == 0)%Q -> exists v, y = Fin v /\ (v == a)%Q).

(** The three percentiles [ps] of the values [xs] of an axis. *)
Definition percentilesInterpolate (xs : list number) (ps : Percentiles) : Prop :=
  interpolated xs 25 (p25 ps) /\ interpolated xs 50 (p50 ps) /\
  interpolated xs 75 (p75 ps).

(** A silhouette value: [NaN], or a finite number between -1 and 1. *)
Definition silhouetteValue (x : number) : Prop :=
  match x with
  | NaN => True
  | Fin q => (- (1) <= q <= 1)%Q
  | _ => False
  end.

(** The customer [u] has an identifier and at least one order. *)
Definition hasOrders (orders : list Order) (u : string) : Prop :=
  u <> ""%string /\ length (ordersOf u orders) <> 0.


(** The sum of the counts of a distribution. *)
Definition distributionTotal (distribution : gmap string nat) : nat :=
  map_fold (fun _ n acc => n + acc) 0 distribution.

(** The number of clustered metrics of the segment [s]. *)
Definition segmentCount (s : string) (l : list ClusteredRFMMetrics) : nat :=
  length (filter (fun m => Clustered.segment m = s) l).

(** The labels of the first clustering service. *)
Definition legacyLabels : list string :=
  ["VIP"; "Loyal"; "Potential"; "Pay attetion"; "Cần chăm sóc"]%string.

(** The candidate at position [i] of [n] recorded values is interior: it
    has a value before it and a value after it. *)
Definition interiorCandidate (n i : nat) : Prop := (1 <= i /\ i + 1 < n)%nat.

(** [improvement - nextImprovement] at position [i], in the words of the
    claim. *)
Definition bendAt (wcssValues : list number) (i : nat) : number :=
  sub (sub (idx wcssValues (i - 1)) (idx wcssValues i))
      (sub (idx wcssValues i) (idx wcssValues (i + 1))).

(** [K] is the elbow of the recorded values: 2 when no interior candidate
    has a positive bend, otherwise [2 + i] for the first interior position
    [i] whose bend is positive and greatest. *)
Definition isElbow (wcssValues : list number) (K : nat) : Prop :=
  let n := length wcssValues in
  (K = 2 /\
   forall i, interiorCandidate n i -> gt (bendAt wcssValues i) (Fin 0) = false) \/
  (exists i, interiorCandidate n i /\ K = 2 + i /\
     gt (bendAt wcssValues i) (Fin 0) = true /\
     (forall j, interiorCandidate n j ->
        gt (bendAt wcssValues j) (bendAt wcssValues i) = false) /\
     (forall j, interiorCandidate n j -> (j < i)%nat ->
        is_nan (bendAt wcssValues j) = false ->
        gt (bendAt wcssValues i) (bendAt wcssValues j) = true)).

(** Ten customers in four groups: the sweep has the candidates 2 to 5. *)
Definition scenarioE : list RFMMetrics :=
  [ customerA "e1" 5 10 5000; customerA "e2" 6 11 5100; customerA "e3" 4 9 4900;
    customerA "e4" 60 2 300; customerA "e5" 62 2 320; customerA "e6" 58 3 310;
    customerA "e7" 30 5 2000; customerA "e8" 31 5 2100;
    customerA "e9" 90 1 50; customerA "e10" 92 1 60 ].

(** One customer and its one delivered order, whose [created_at] is a
    string that is no date. *)
Definition loneCustomer : list Customer := [ {| Cus.id := "u1" |} ].

Definition undatedOrders : list Order :=
  [ {| o_user_id := "u1"; created_at := "n/a"; total := Fin 120 |} ].

(** The names every plain object inherits from [Object.prototype]. *)
Definition objectPrototypeNames : list string :=
  [ "constructor"; "__defineGetter__"; "__defineSetter__"; "hasOwnProperty";
    "__lookupGetter__"; "__lookupSetter__"; "isPrototypeOf";
    "propertyIsEnumerable"; "toString"; "valueOf"; "__proto__";
    "toLocaleString" ]%string.

(** An identifier that, as a key of a plain object, names no inherited
    property: reading it finds what was stored under it and nothing else. *)
Definition ownKey (u : string) : Prop := u ∉ objectPrototypeNames.

(** * Properties *)

(** ** Numbers *)

Lemma Qzero_b_iff (q : Q) : Qzero_b q = true <-> (q == 0)%Q.
Proof.
  unfold Qzero_b, Qeq. destruct q as [n d]; simpl. rewrite Z.eqb_eq. lia.
Qed.

Lemma Qpos_b_iff (q : Q) : Qpos_b q = true <-> (0 < q)%Q.
Proof.
  unfold Qpos_b, Qlt. destruct q as [n d]; simpl. rewrite Z.ltb_lt. lia.
Qed.

Lemma Qneg_b_iff (q : Q) : Qneg_b q = true <-> (q < 0)%Q.
Proof.
  unfold Qneg_b, Qlt. destruct q as [n d]; simpl. rewrite Z.ltb_lt. lia.
Qed.

Lemma Qlt_b_iff (x y : Q) : Qlt_b x y = true <-> (x < y)%Q.
Proof.
  unfold Qlt_b. rewrite negb_true_iff, <- not_true_iff_false, Qle_bool_iff.
  split; [apply Qnot_le_lt | apply Qlt_not_le].
Qed.

Lemma Qlt_b_false (x y : Q) : Qlt_b x y = false <-> (y <= x)%Q.
Proof.
  unfold Qlt_b. rewrite negb_false_iff. apply Qle_bool_iff.
Qed.

Lemma fin_zero (q : Q) : (q == 0)%Q -> fin q = Fin 0.
Proof.
  intros H. unfold fin. f_equal. apply (Qred_complete q 0 H).
Qed.

Lemma fin_one (q : Q) : (q == 1)%Q -> fin q = Fin 1.
Proof.
  intros H. unfold fin. f_equal. apply (Qred_complete q 1 H).
Qed.

Lemma add_NaN_r (x : number) : add x NaN = NaN.
Proof. destruct x; reflexivity. Qed.

(** ** The monad *)

Lemma bind_Some {A B} (m : M A) (f : A -> M B) r p b p' :
  (m ≫= f) r p = Some (b, p') <->
  exists a p1, m r p = Some (a, p1) /\ f a r p1 = Some (b, p').
Proof.
  unfold mbind, M_bind. split.
  - destruct (m r p) as [[a p1]|]; [|discriminate]. intros H. eauto.
  - intros (a & p1 & -> & H). exact H.
Qed.

Lemma ret_Some {A} (a b : A) r p p' :
  (mret a : M A) r p = Some (b, p') <-> a = b /\ p = p'.
Proof.
  unfold mret, M_ret. split; [intros [= -> ->] | intros [-> ->]]; auto.
Qed.

Lemma lift_Some {A} (o : option A) (a : A) r p p' :
  lift o r p = Some (a, p') <-> o = Some a /\ p = p'.
Proof.
  destruct o as [x|]; simpl.
  - rewrite ret_Some. split; [intros [-> ->] | intros [[= ->] ->]]; auto.
  - split; [discriminate | intros [[=] _]].
Qed.

(** ** Empty population *)

(** C6: on an empty metrics list [performEnhancedClustering] and
    [performKMeansClustering] return the explicit empty result (no clustered
    metrics, no centers, zero evaluation metrics, zero percentiles); they do
    not throw and consume no random draw, so neither clustering nor
    normalisation nor averaging is run. *)
Theorem empty_population_result (r : RandomSource) (p k : nat)
    (ds : option DataStats) :
  performEnhancedClustering [] r p = Some (getEmptyResult 0, p) /\
  performKMeansClustering [] k ds r p = Some (getEmptyResult k, p) /\
  clusteredMetrics (getEmptyResult k) = [] /\
  centers (getEmptyResult k) = [] /\
  evaluationMetrics (getEmptyResult k) =
    {| silhouetteScore := Fin 0; wcss := Fin 0; iterations := 0 |} /\
  recencyPercentiles (dataStats (getEmptyResult k)) = zeroPercentiles /\
  frequencyPercentiles (dataStats (getEmptyResult k)) = zeroPercentiles /\
  monetaryPercentiles (dataStats (getEmptyResult k)) = zeroPercentiles /\
  zeroPercentiles = {| p25 := Fin 0; p50 := Fin 0; p75 := Fin 0 |}.
Proof. repeat split. Qed.

(** ** Frame of the clustered metrics *)

Lemma imap_fmap_ext {A B C} (f : nat -> A -> B) (g : B -> C) (h : A -> C) (l : list A) :
  (forall i x, g (f i x) = h x) -> g <$> imap f l = h <$> l.
Proof.
  revert f. induction l as [|x l IH]; intros f H; simpl; [reflexivity|].
  rewrite H. f_equal. apply IH. intros i y. apply H.
Qed.

Lemma createClusteredMetrics_frame metrics clusters ranked :
  metricOf <$> createClusteredMetrics metrics clusters ranked = metrics.
Proof.
  unfold createClusteredMetrics.
  rewrite (imap_fmap_ext _ metricOf id).
  - apply list_fmap_id.
  - intros i [u rc f m s]; reflexivity.
Qed.

Lemma createClusteredMetrics_cluster_id metrics clusters ranked i c :
  createClusteredMetrics metrics clusters ranked !! i = Some c ->
  Clustered.cluster_id c = clusters !! i.
Proof.
  unfold createClusteredMetrics. rewrite list_lookup_imap.
  destruct (metrics !! i); simpl; [|discriminate]. intros [= <-]. reflexivity.
Qed.

(** What a run of [performKMeansClustering] on a non-empty population is
    made of. *)
Lemma performKMeansClustering_inv metrics k ds r p res p' :
  metrics <> [] ->
  performKMeansClustering metrics k ds r p = Some (res, p') ->
  exists run w,
    runKMeansAlgorithm (normalizeData metrics) k r p = Some (run, p') /\
    calculateWCSS (normalizeData metrics) (KMeans.centroids run)
                  (KMeans.clusters run) = Some w /\
    let ranked :=
      rankClustersAndAssignLabels
        (calculateClusterStatistics metrics (KMeans.clusters run) k) in
    res = {| clusteredMetrics :=
               createClusteredMetrics metrics (KMeans.clusters run) ranked;
             centers := ranked;
             evaluationMetrics :=
               {| silhouetteScore :=
                    calculateSilhouetteScore (normalizeData metrics)
                                             (KMeans.clusters run);
                  wcss := w;
                  iterations := KMeans.iterations run |};
             optimalK := k;
             dataStats := default (calculateDataStats metrics) ds |}.
Proof.
  intros Hne. unfold performKMeansClustering.
  destruct metrics as [|m metrics]; [congruence|]. cbn [length Nat.eqb].
  intros H. apply bind_Some in H as (run & p1 & Hrun & H).
  apply bind_Some in H as (w & p2 & Hw & H).
  apply lift_Some in Hw as [Hw ->]. apply ret_Some in H as [<- <-].
  exists run, w. auto.
Qed.

(** ** Silhouette *)

Lemma foldl_add_NaN {A} (f : A -> number) (l : list A) :
  foldl (fun sum x => add sum (f x)) NaN l = NaN.
Proof. induction l as [|x l IH]; simpl; auto. Qed.

Lemma sum_by_NaN {A} (f : A -> number) (l : list A) (x : A) :
  x ∈ l -> f x = NaN -> sum_by f l = NaN.
Proof.
  unfold sum_by. generalize (Fin 0). induction l as [|y l IH]; intros acc Hin Hx.
  - inversion Hin.
  - simpl. apply elem_of_cons in Hin as [<-|Hin].
    + rewrite Hx, add_NaN_r. apply foldl_add_NaN.
    + apply IH; assumption.
Qed.

Lemma Math_min_all_PosInf (l : list number) :
  Forall (fun x => x = PosInf) l -> Math_min l = PosInf.
Proof.
  induction 1 as [|x l -> _ IH]; simpl; [reflexivity|]. rewrite IH. reflexivity.
Qed.

Lemma filter_from_singleton_nil {A} (f : nat -> A -> bool) (i : nat) (x : A) :
  f i x = false -> filter_from f i [x] = [].
Proof. intros H. simpl. by rewrite H. Qed.

(** With a single point no other cluster has a member, so [b] is [Infinity]. *)
Lemma silhouetteB_single point clusters :
  silhouetteB [point] clusters 0 point = PosInf.
Proof.
  unfold silhouetteB. apply Math_min_all_PosInf.
  apply Forall_fmap, Forall_forall. intros oc Hoc. simpl.
  apply list_elem_of_filter in Hoc as [Hoc _].
  unfold inCluster, filteri. rewrite filter_from_singleton_nil; [reflexivity|].
  apply bool_decide_eq_false. congruence.
Qed.

(** A [NaN] contribution makes the score [NaN]. *)
Lemma silhouette_score_NaN data clusters i point :
  data !! i = Some point -> (1 < length data)%nat ->
  silhouetteOf data clusters i point = NaN ->
  calculateSilhouetteScore data clusters = NaN.
Proof.
  intros Hi Hlen Hs. unfold calculateSilhouetteScore.
  destruct (Nat.leb_spec (length data) 1) as [H|_]; [lia|].
  rewrite (sum_by_NaN id _ (silhouetteOf data clusters i point)).
  - reflexivity.
  - apply list_elem_of_lookup. exists i. rewrite list_lookup_imap, Hi. reflexivity.
  - exact Hs.
Qed.

(** A point without any other populated cluster has [b = Infinity] and
    contributes [Infinity / Infinity]. *)
Lemma silhouette_infinite_b data clusters i point :
  data !! i = Some point -> (1 < length data)%nat ->
  silhouetteB data clusters i point = PosInf ->
  calculateSilhouetteScore data clusters = NaN.
Proof.
  intros Hi Hlen Hb. apply (silhouette_score_NaN data clusters i point Hi Hlen).
  unfold silhouetteOf. rewrite Hb.
  by destruct (silhouetteA data clusters i point).
Qed.

(** C1 (amended): a point whose [a(i)] and [b(i)] are both 0 contributes
    [0 / 0 = NaN], not 0, and the score returned by
    [calculateSilhouetteScore] is then [NaN]. *)
Theorem silhouette_zero_zero_NaN data clusters i point :
  data !! i = Some point ->
  silhouetteA data clusters i point = Fin 0 ->
  silhouetteB data clusters i point = Fin 0 ->
  silhouetteOf data clusters i point = NaN /\
  calculateSilhouetteScore data clusters = NaN.
Proof.
  intros Hi Ha Hb.
  assert (Hs : silhouetteOf data clusters i point = NaN).
  { unfold silhouetteOf. rewrite Ha, Hb. reflexivity. }
  split; [exact Hs|].
  apply (silhouette_score_NaN data clusters i point Hi); [|exact Hs].
  destruct data as [|p0 [|p1 data]]; [discriminate| |cbn; lia].
  destruct i; [|discriminate]. injection Hi as ->.
  rewrite silhouetteB_single in Hb. discriminate.
Qed.

Lemma silhouette_zero_zero_NaN_witness :
  twinPoints !! 0%nat = Some [Fin 0; Fin 0; Fin 0] /\
  silhouetteOf twinPoints [0; 1] 0 [Fin 0; Fin 0; Fin 0] = NaN /\
  calculateSilhouetteScore twinPoints [0; 1] = NaN.
Proof.
  split; [reflexivity|].
  apply (silhouette_zero_zero_NaN twinPoints [0; 1] 0 [Fin 0; Fin 0; Fin 0]);
    reflexivity.
Defined.

(** C1 (as stated) fails: for two coincident points in different clusters
    [a(0) = b(0) = 0], yet the contribution of point 0 and the returned score
    are [NaN]; and the score reported by [performKMeansClustering] for two
    customers with the same values is [NaN]. *)
Lemma silhouette_zero_zero_counterexample :
  silhouetteA twinPoints [0; 1] 0 [Fin 0; Fin 0; Fin 0] = Fin 0 /\
  silhouetteB twinPoints [0; 1] 0 [Fin 0; Fin 0; Fin 0] = Fin 0 /\
  silhouetteOf twinPoints [0; 1] 0 [Fin 0; Fin 0; Fin 0] <> Fin 0 /\
  is_nan (silhouetteOf twinPoints [0; 1] 0 [Fin 0; Fin 0; Fin 0]) = true /\
  is_nan (calculateSilhouetteScore twinPoints [0; 1]) = true /\
  (fun out => silhouetteScore (evaluationMetrics (fst out))) <$>
    performKMeansClustering twins 2 None demoSource 0 = Some NaN.
Proof. vm_compute. repeat split; congruence. Qed.

(** ** Feature normalizer *)

Lemma finite_list (xs : list number) :
  Forall (fun x => is_fin x = true) xs -> exists qs, xs = Fin <$> qs.
Proof.
  induction 1 as [|x xs Hx _ [qs ->]].
  - by exists [].
  - destruct x as [| | |q]; try discriminate. by exists (q :: qs).
Qed.

Lemma Math_min_Fin (qs : list Q) :
  qs <> [] ->
  exists mn, Math_min (Fin <$> qs) = Fin mn /\ mn ∈ qs /\
             forall a, a ∈ qs -> (mn <= a)%Q.
Proof.
  induction qs as [|a qs IH]; [congruence|]. intros _.
  destruct qs as [|b qs].
  - exists a. split; [reflexivity|]. split; [by left|].
    intros c Hc. apply list_elem_of_singleton in Hc as ->. apply Qle_refl.
  - destruct IH as (m & Hm & Hin & Hle); [congruence|].
    change (Math_min (Fin <$> a :: b :: qs))
      with (min2 (Fin a) (Math_min (Fin <$> b :: qs))).
    rewrite Hm. cbn [min2 lt]. destruct (Qlt_b m a) eqn:E.
    + apply Qlt_b_iff in E. exists m. split; [reflexivity|].
      split; [by right|]. intros c Hc.
      apply elem_of_cons in Hc as [->|Hc]; [by apply Qlt_le_weak | by apply Hle].
    + apply Qlt_b_false in E. exists a. split; [reflexivity|].
      split; [by left|]. intros c Hc.
      apply elem_of_cons in Hc as [->|Hc]; [apply Qle_refl|].
      eapply Qle_trans; [exact E | by apply Hle].
Qed.

Lemma Math_max_Fin (qs : list Q) :
  qs <> [] ->
  exists mx, Math_max (Fin <$> qs) = Fin mx /\ mx ∈ qs /\
             forall a, a ∈ qs -> (a <= mx)%Q.
Proof.
  induction qs as [|a qs IH]; [congruence|]. intros _.
  destruct qs as [|b qs].
  - exists a. split; [reflexivity|]. split; [by left|].
    intros c Hc. apply list_elem_of_singleton in Hc as ->. apply Qle_refl.
  - destruct IH as (m & Hm & Hin & Hle); [congruence|].
    change (Math_max (Fin <$> a :: b :: qs))
      with (max2 (Fin a) (Math_max (Fin <$> b :: qs))).
    rewrite Hm. cbn [max2 lt]. destruct (Qlt_b a m) eqn:E.
    + apply Qlt_b_iff in E. exists m. split; [reflexivity|].
      split; [by right|]. intros c Hc.
      apply elem_of_cons in Hc as [->|Hc]; [by apply Qlt_le_weak | by apply Hle].
    + apply Qlt_b_false in E. exists a. split; [reflexivity|].
      split; [by left|]. intros c Hc.
      apply elem_of_cons in Hc as [->|Hc]; [apply Qle_refl|].
      eapply Qle_trans; [by apply Hle | exact E].
Qed.

Lemma elem_of_Fin_fmap (a : Q) (qs : list Q) : Fin a ∈ Fin <$> qs <-> a ∈ qs.
Proof.
  rewrite list_elem_of_fmap. split.
  - intros (b & [= ->] & Hb). exact Hb.
  - intros Ha. by exists a.
Qed.

Lemma bounds_Fin (qs : list Q) :
  qs <> [] ->
  exists mn mx, Math_min (Fin <$> qs) = Fin mn /\
                Math_max (Fin <$> qs) = Fin mx /\
                bounds (Fin <$> qs) mn mx.
Proof.
  intros Hne.
  destruct (Math_min_Fin qs Hne) as (mn & Hmn & Hin & Hle).
  destruct (Math_max_Fin qs Hne) as (mx & Hmx & Hix & Hge).
  exists mn, mx. split; [exact Hmn|]. split; [exact Hmx|].
  split; [|split].
  - exists mn. split; [by apply elem_of_Fin_fmap | reflexivity].
  - exists mx. split; [by apply elem_of_Fin_fmap | reflexivity].
  - intros a Ha. apply elem_of_Fin_fmap in Ha. split; auto.
Qed.

(** The scaling of a value between the bounds of its axis. *)
Lemma normalize_between (v mn mx : Q) :
  (mn <= v <= mx)%Q ->
  exists q, normalize (Fin v) (Fin mn) (Fin mx) = Fin q /\
    (0 <= q <= 1)%Q /\
    (~ (mx == mn)%Q -> (q == (v - mn) / (mx - mn))%Q) /\
    ((mx == mn)%Q -> Fin q = Fin 0) /\
    ((v == mn)%Q -> Fin q = Fin 0) /\
    ((v == mx)%Q -> ~ (mx == mn)%Q -> Fin q = Fin 1).
Proof.
  intros [Hlo Hhi]. unfold normalize. cbn [eqn].
  destruct (Qeq_bool mx mn) eqn:E.
  - apply Qeq_bool_iff in E. exists 0%Q. split; [reflexivity|].
    repeat split; easy.
  - assert (Hne : ~ (mx == mn)%Q).
    { intros H. apply Qeq_bool_iff in H. congruence. }
    assert (Hlt : (0 < mx - mn)%Q).
    { destruct (Qle_lt_or_eq mn mx) as [H|H]; [lra|lra|]. symmetry in H. contradiction. }
    cbn [sub]. unfold fin. cbn [div].
    destruct (Qzero_b (Qred (mx - mn))) eqn:Z.
    { apply Qzero_b_iff in Z. rewrite Qred_correct in Z. lra. }
    assert (Hq : (Qred (Qred (v - mn) / Qred (mx - mn)) == (v - mn) / (mx - mn))%Q).
    { by rewrite !Qred_correct. }
    exists (Qred (Qred (v - mn) / Qred (mx - mn))).
    split; [reflexivity|]. split; [|split; [|split; [|split]]].
    + rewrite Hq. split.
      * apply Qle_shift_div_l; [exact Hlt | lra].
      * apply Qle_shift_div_r; [exact Hlt | lra].
    + intros _. exact Hq.
    + intros H. contradiction.
    + intros H. apply (fin_zero (Qred (v - mn) / Qred (mx - mn))). rewrite !Qred_correct.
      rewrite H. field. lra.
    + intros H _. apply (fin_one (Qred (v - mn) / Qred (mx - mn))). rewrite !Qred_correct.
      rewrite H. field. lra.
Qed.

Lemma scaled_normalize (qs : list Q) (v : Q) :
  v ∈ qs ->
  scaled (Fin <$> qs) (Fin v)
         (normalize (Fin v) (Math_min (Fin <$> qs)) (Math_max (Fin <$> qs))).
Proof.
  intros Hv.
  destruct (bounds_Fin qs) as (mn & mx & -> & -> & Hb).
  { intros ->. inversion Hv. }
  assert (Hvb : (mn <= v <= mx)%Q).
  { apply Hb. by apply elem_of_Fin_fmap. }
  destruct (normalize_between v mn mx Hvb) as (q & -> & H1 & H2 & H3 & H4 & H5).
  exists v, mn, mx, q. split; [reflexivity|]. split; [reflexivity|].
  split; [exact Hb|]. auto.
Qed.

Lemma scaled_axis (get : RFMMetrics -> number) (metrics : list RFMMetrics) m :
  Forall (fun m => is_fin (get m) = true) metrics ->
  m ∈ metrics ->
  scaled (get <$> metrics) (get m)
         (normalize (get m) (Math_min (get <$> metrics))
                    (Math_max (get <$> metrics))).
Proof.
  intros Hfin Hm.
  destruct (finite_list (get <$> metrics)) as [qs Hqs].
  { by apply Forall_fmap. }
  assert (Hin : get m ∈ get <$> metrics) by (by apply list_elem_of_fmap_2).
  rewrite Hqs in Hin |- *.
  apply list_elem_of_fmap in Hin as (v & Hv & Hin). rewrite Hv.
  by apply scaled_normalize.
Qed.

(** C3: on records with finite values, [normalizeData] maps each record to
    the three min-max scalings [(v - min) / (max - min)] of its recency,
    frequency and monetary values over the whole record set: each lies in
    [0, 1], a value at the population minimum maps to exactly 0, a value at
    the maximum of a non-degenerate axis to exactly 1, and every value of a
    degenerate axis ([max == min]) to 0. *)
Theorem normalizeData_scaled (metrics : list RFMMetrics) :
  Forall (fun m => finiteMetric m = true) metrics ->
  Forall2
    (fun m row =>
       exists r f mo, row = [r; f; mo] /\
         scaled (recency <$> metrics) (recency m) r /\
         scaled (frequency <$> metrics) (frequency m) f /\
         scaled (monetary <$> metrics) (monetary m) mo)
    metrics (normalizeData metrics).
Proof.
  intros Hfin. unfold normalizeData.
  change (map ?f metrics) with (f <$> metrics).
  apply Forall2_fmap_r, Forall_Forall2_diag, Forall_forall.
  intros m Hm. cbn.
  assert (Hr : Forall (fun m => is_fin (recency m) = true) metrics).
  { eapply Forall_impl; [exact Hfin|]. unfold finiteMetric. intros x Hx.
    by repeat (apply andb_prop in Hx as [Hx ?]). }
  assert (Hf : Forall (fun m => is_fin (frequency m) = true) metrics).
  { eapply Forall_impl; [exact Hfin|]. unfold finiteMetric. intros x Hx.
    by repeat (apply andb_prop in Hx as [Hx ?]). }
  assert (Hmo : Forall (fun m => is_fin (monetary m) = true) metrics).
  { eapply Forall_impl; [exact Hfin|]. unfold finiteMetric. intros x Hx.
    by repeat (apply andb_prop in Hx as [Hx ?]). }
  eexists _, _, _. split; [reflexivity|].
  split; [|split]; by apply scaled_axis.
Qed.

Lemma normalizeData_scaled_witness :
  Forall2
    (fun m row =>
       exists r f mo, row = [r; f; mo] /\
         scaled (recency <$> scenarioA) (recency m) r /\
         scaled (frequency <$> scenarioA) (frequency m) f /\
         scaled (monetary <$> scenarioA) (monetary m) mo)
    scenarioA
    [ [Fin (2 # 87); Fin 1; Fin 1]; [Fin (19 # 29); Fin 0; Fin (1 # 97)];
      [Fin 0; Fin (7 # 9); Fin (87 # 97)]; [Fin 1; Fin 0; Fin 0] ].
Proof.
  apply (normalizeData_scaled scenarioA).
  repeat constructor.
Defined.

(** ** Sorting *)

Lemma sort_insert_perm {A} (cmp : A -> A -> number) (x : A) (l : list A) :
  sort_insert cmp x l ≡ₚ x :: l.
Proof.
  induction l as [|y l IH]; cbn [sort_insert]; [reflexivity|].
  destruct (gt (cmp x y) (Fin 0)); [|reflexivity].
  rewrite IH. apply perm_swap.
Qed.

Lemma Array_sort_perm {A} (cmp : A -> A -> number) (l : list A) :
  Array_sort cmp l ≡ₚ l.
Proof.
  induction l as [|x l IH]; simpl; [reflexivity|].
  change (foldr (sort_insert cmp) [] l) with (Array_sort cmp l).
  by rewrite sort_insert_perm, IH.
Qed.

Lemma gt_sub_Fin (a b : Q) : gt (sub (Fin b) (Fin a)) (Fin 0) = Qlt_b a b.
Proof.
  cbn. apply eq_true_iff_eq. rewrite !Qlt_b_iff, Qred_correct. split; lra.
Qed.

Lemma le_Fin (a b : Q) : le (Fin a) (Fin b) = true <-> (a <= b)%Q.
Proof. cbn. apply Qle_bool_iff. Qed.

Lemma lt_Fin (a b : Q) : lt (Fin a) (Fin b) = true <-> (a < b)%Q.
Proof. cbn. apply Qlt_b_iff. Qed.

Section SortByKey.

Context {A : Type} (key : A -> number).

(** The comparator [(a, b) => key(b) - key(a)]. *)
Let cmp (a b : A) : number := sub (key b) (key a).

Lemma desc_trans (a b c : A) :
  is_fin (key a) = true -> is_fin (key b) = true -> is_fin (key c) = true ->
  desc key a b -> desc key b c -> desc key a c.
Proof.
  unfold desc. destruct (key a), (key b), (key c); try discriminate.
  intros _ _ _. rewrite !le_Fin. intros; lra.
Qed.

Lemma sort_insert_sorted (x : A) (l : list A) :
  is_fin (key x) = true ->
  Forall (fun y => is_fin (key y) = true) l ->
  StronglySorted (desc key) l ->
  StronglySorted (desc key) (sort_insert cmp x l).
Proof.
  intros Hx Hl Hs. induction Hs as [|y l Hs IH Hy]; cbn [sort_insert].
  - repeat constructor.
  - apply Forall_cons in Hl as [Hfy Hl]. unfold cmp at 1.
    destruct (key x) as [| | |a] eqn:Ex; try discriminate.
    destruct (key y) as [| | |b] eqn:Ey; try discriminate.
    rewrite gt_sub_Fin. destruct (Qlt_b a b) eqn:E.
    + apply Qlt_b_iff in E. constructor; [by apply IH|].
      rewrite sort_insert_perm. constructor; [|exact Hy].
      unfold desc. rewrite Ex, Ey. apply le_Fin. lra.
    + apply Qlt_b_false in E.
      assert (Hxy : desc key x y).
      { unfold desc. rewrite Ex, Ey. by apply le_Fin. }
      constructor; [by constructor|]. constructor; [exact Hxy|].
      rewrite Forall_forall in Hy, Hl |- *. intros z Hz.
      apply (desc_trans x y z); auto; [by rewrite Ex | by rewrite Ey].
Qed.

Lemma Array_sort_sorted (l : list A) :
  Forall (fun y => is_fin (key y) = true) l ->
  StronglySorted (desc key) (Array_sort cmp l).
Proof.
  induction 1 as [|x l Hx Hl IH]; simpl; [constructor|].
  apply sort_insert_sorted; [exact Hx| |exact IH].
  change (foldr (sort_insert cmp) [] l) with (Array_sort cmp l).
  by rewrite Array_sort_perm.
Qed.

End SortByKey.

Lemma StronglySorted_lookup {A} (R : A -> A -> Prop) (l : list A) i j a b :
  StronglySorted R l -> (i < j)%nat ->
  l !! i = Some a -> l !! j = Some b -> R a b.
Proof.
  intros Hs. revert i j. induction Hs as [|x l Hs IH Hx]; intros i j Hij Hi Hj.
  - discriminate.
  - destruct j as [|j]; [lia|]. destruct i as [|i].
    + injection Hi as <-. rewrite Forall_forall in Hx. apply Hx.
      apply list_elem_of_lookup. by exists j.
    + apply (IH i j); [lia|exact Hi|exact Hj].
Qed.

(** ** Segment ranker *)

Lemma compositeOf_fin (r f m : number) :
  is_fin r = true -> is_fin f = true -> is_fin m = true ->
  is_fin (compositeOf r f m) = true.
Proof.
  destruct r as [| | |r], f as [| | |f], m as [| | |m]; try discriminate.
  intros _ _ _. unfold compositeOf, recencyScoreOf.
  destruct (gt (Fin r) (Fin 0)) eqn:E; [|reflexivity].
  apply lt_Fin in E. cbn [div].
  destruct (Qzero_b r) eqn:Z; [|reflexivity].
  apply Qzero_b_iff in Z. lra.
Qed.

Lemma withScores_composite (s : ClusterStats) :
  Scored.composite_score (withScores s) =
  compositeOf (Stats.avgRecency s) (Stats.avgFrequency s) (Stats.avgMonetary s).
Proof. reflexivity. Qed.

Lemma labelAt_segmentLabels (i : nat) :
  default ""%string (segmentLabels !! Nat.min i (length segmentLabels - 1)) =
  labelAt i.
Proof. by do 4 (destruct i as [|i]; [reflexivity|]). Qed.

Lemma imap_rank_from (n : nat) (l : list ScoredCluster) :
  Center.rank <$> imap (fun i => toCenter (n + i)) l = seq (n + 1) (length l).
Proof.
  revert n. induction l as [|x l IH]; intros n; [reflexivity|].
  cbn [imap fmap list_fmap length seq]. f_equal.
  - cbn. lia.
  - rewrite (imap_ext _ (fun i => toCenter (S n + i))).
    + apply (IH (S n)).
    + intros i y _. cbn. f_equal. lia.
Qed.

Lemma ranked_lookup stats i c :
  rankClustersAndAssignLabels stats !! i = Some c ->
  exists sc, Array_sort byScoreDesc (withScores <$> stats) !! i = Some sc /\
             c = toCenter i sc.
Proof.
  unfold rankClustersAndAssignLabels. rewrite list_lookup_imap.
  change (map withScores stats) with (withScores <$> stats).
  destruct (_ !! i) as [sc|]; [|discriminate]. intros [= <-]. eauto.
Qed.

Lemma sorted_scores_fin stats :
  Forall (fun s => finiteStats s = true) stats ->
  Forall (fun sc => is_fin (Scored.composite_score sc) = true)
         (withScores <$> stats).
Proof.
  intros H. apply Forall_fmap. eapply Forall_impl; [exact H|].
  intros s Hs. unfold compose. rewrite withScores_composite.
  unfold finiteStats in Hs.
  apply andb_prop in Hs as [Hs ?]. apply andb_prop in Hs as [? ?].
  by apply compositeOf_fin.
Qed.

(** The ranking is sorted by decreasing composite score. *)
Lemma ranked_sorted stats i j ci cj :
  Forall (fun s => finiteStats s = true) stats ->
  (i < j)%nat ->
  rankClustersAndAssignLabels stats !! i = Some ci ->
  rankClustersAndAssignLabels stats !! j = Some cj ->
  le (Center.composite_score cj) (Center.composite_score ci) = true.
Proof.
  intros Hfin Hij Hi Hj.
  apply ranked_lookup in Hi as (si & Hi & ->).
  apply ranked_lookup in Hj as (sj & Hj & ->).
  cbn [toCenter Center.composite_score].
  apply (StronglySorted_lookup (desc Scored.composite_score)
           (Array_sort byScoreDesc (withScores <$> stats)) i j si sj);
    [|exact Hij|exact Hi|exact Hj].
  apply (Array_sort_sorted Scored.composite_score), sorted_scores_fin, Hfin.
Qed.

Lemma ranked_score_fin stats i c :
  Forall (fun s => finiteStats s = true) stats ->
  rankClustersAndAssignLabels stats !! i = Some c ->
  is_fin (Center.composite_score c) = true.
Proof.
  intros Hfin Hi. apply ranked_lookup in Hi as (sc & Hi & ->).
  cbn [toCenter Center.composite_score].
  pose proof (sorted_scores_fin stats Hfin) as H.
  rewrite <- (Array_sort_perm byScoreDesc) in H.
  rewrite Forall_forall in H. apply H, list_elem_of_lookup. eauto.
Qed.

Lemma le_refl_fin (x : number) : is_fin x = true -> le x x = true.
Proof. destruct x; try discriminate. intros _. apply le_Fin, Qle_refl. Qed.

Lemma ranked_keys_perm stats :
  centerKey <$> rankClustersAndAssignLabels stats ≡ₚ statsKey <$> stats.
Proof.
  unfold rankClustersAndAssignLabels.
  change (map withScores stats) with (withScores <$> stats).
  rewrite (imap_fmap_ext _ centerKey (fun sc => statsKey (Scored.cluster sc)))
    by reflexivity.
  rewrite Array_sort_perm, <- list_fmap_compose. reflexivity.
Qed.

Lemma ranked_composite stats c :
  c ∈ rankClustersAndAssignLabels stats ->
  Center.composite_score c =
  compositeOf (Center.recency_center c) (Center.frequency_center c)
              (Center.monetary_center c).
Proof.
  intros Hc. apply list_elem_of_lookup in Hc as [i Hc].
  apply ranked_lookup in Hc as (sc & Hsc & ->).
  assert (Hin : sc ∈ withScores <$> stats).
  { rewrite <- (Array_sort_perm byScoreDesc). apply list_elem_of_lookup. eauto. }
  apply list_elem_of_fmap in Hin as (s & -> & _). reflexivity.
Qed.

Lemma ranked_rank_label stats i c :
  rankClustersAndAssignLabels stats !! i = Some c ->
  Center.rank c = i + 1 /\ Center.segment_label c = labelAt i.
Proof.
  intros Hc. apply ranked_lookup in Hc as (sc & _ & ->).
  cbn [toCenter Center.rank Center.segment_label].
  split; [reflexivity | apply labelAt_segmentLabels].
Qed.

Lemma ranked_length stats :
  length (rankClustersAndAssignLabels stats) = length stats.
Proof.
  rewrite <- (length_fmap centerKey), ranked_keys_perm. apply length_fmap.
Qed.

(** C4: [rankClustersAndAssignLabels] keeps the K clusters (a permutation of
    the input), scores each by
    [0.3 * recencyScore + 0.3 * avgFrequency + 0.4 * avgMonetary] with
    [recencyScore = 1 / avgRecency] when [avgRecency > 0] and 1 otherwise,
    numbers them by rank 1..K in order and labels position [i] with the i-th
    entry of [VIP, Loyal, Potential, Pay Attention] clamped to the last one;
    the statistics being finite, the clusters are listed by decreasing
    composite score, so that rank 1 is held by a cluster of maximum score. *)
Theorem rankClustersAndAssignLabels_spec (stats : list ClusterStats) :
  let ranked := rankClustersAndAssignLabels stats in
  centerKey <$> ranked ≡ₚ statsKey <$> stats /\
  Forall (fun c =>
            Center.composite_score c =
            compositeOf (Center.recency_center c) (Center.frequency_center c)
                        (Center.monetary_center c)) ranked /\
  Center.rank <$> ranked = seq 1 (length stats) /\
  (forall i c, ranked !! i = Some c ->
     Center.rank c = i + 1 /\ Center.segment_label c = labelAt i) /\
  (Forall (fun s => finiteStats s = true) stats ->
   (forall i j ci cj, (i < j)%nat ->
      ranked !! i = Some ci -> ranked !! j = Some cj ->
      le (Center.composite_score cj) (Center.composite_score ci) = true) /\
   (forall c1, ranked !! 0%nat = Some c1 ->
      Center.rank c1 = 1 /\
      Forall (fun c => le (Center.composite_score c) (Center.composite_score c1) = true)
             ranked)).
Proof.
  intros ranked. split; [|split; [|split; [|split]]].
  - apply ranked_keys_perm.
  - apply Forall_forall. intros c Hc. by apply (ranked_composite stats).
  - subst ranked. unfold rankClustersAndAssignLabels.
    rewrite (imap_rank_from 0).
    change (map withScores stats) with (withScores <$> stats).
    by rewrite Array_sort_perm, length_fmap.
  - intros i c Hc. by apply (ranked_rank_label stats).
  - intros Hfin.
    assert (Hsorted : forall i j ci cj, (i < j)%nat ->
              ranked !! i = Some ci -> ranked !! j = Some cj ->
              le (Center.composite_score cj) (Center.composite_score ci) = true).
    { intros i j ci cj. by apply ranked_sorted. }
    split; [exact Hsorted|]. intros c1 H1. split.
    + by apply (ranked_rank_label stats 0).
    + apply Forall_forall. intros c Hc.
      apply list_elem_of_lookup in Hc as [[|j] Hc].
      * assert (c = c1) as -> by congruence.
        apply le_refl_fin. by apply (ranked_score_fin stats 0).
      * apply (Hsorted 0%nat (S j)); [lia|exact H1|exact Hc].
Qed.

Lemma rankClustersAndAssignLabels_spec_witness :
  Center.rank <$> rankClustersAndAssignLabels fiveClusters = [1; 2; 3; 4; 5] /\
  Center.cluster_id <$> rankClustersAndAssignLabels fiveClusters = [1; 3; 0; 4; 2] /\
  Center.segment_label <$> rankClustersAndAssignLabels fiveClusters =
    ["VIP"; "Loyal"; "Potential"; "Pay Attention"; "Pay Attention"]%string /\
  forall c1, rankClustersAndAssignLabels fiveClusters !! 0%nat = Some c1 ->
    Forall (fun c => le (Center.composite_score c) (Center.composite_score c1) = true)
           (rankClustersAndAssignLabels fiveClusters).
Proof.
  destruct (rankClustersAndAssignLabels_spec fiveClusters) as (_ & _ & H & _ & Hs).
  split; [exact H|]. split; [reflexivity|]. split; [reflexivity|].
  destruct Hs as [_ Hmax]; [repeat constructor|].
  intros c1 H1. by apply Hmax.
Defined.

(** ** Cluster statistics *)

Lemma filter_from_elem {A} (f : nat -> A -> bool) (i : nat) (l : list A) (x : A) :
  x ∈ filter_from f i l -> x ∈ l.
Proof.
  revert i. induction l as [|y l IH]; intros i; cbn [filter_from]; [easy|].
  destruct (f i y).
  - rewrite !elem_of_cons. intros [->|H]; [by left | right; by apply (IH (S i))].
  - intros H. right. by apply (IH (S i)).
Qed.

Lemma inCluster_Forall {A} (P : A -> Prop) clusters i (l : list A) :
  Forall P l -> Forall P (inCluster clusters i l).
Proof.
  rewrite !Forall_forall. intros H x Hx. apply H.
  by apply filter_from_elem in Hx.
Qed.

Lemma add_fin (x y : number) :
  is_fin x = true -> is_fin y = true -> is_fin (add x y) = true.
Proof. by destruct x, y. Qed.

Lemma sum_by_fin {A} (f : A -> number) (l : list A) :
  Forall (fun x => is_fin (f x) = true) l -> is_fin (sum_by f l) = true.
Proof.
  unfold sum_by. assert (H0 : is_fin (Fin 0) = true) by reflexivity.
  revert H0. generalize (Fin 0). intros acc Hacc H. revert acc Hacc.
  induction H as [|x l Hx _ IH]; intros acc Hacc; cbn [foldl]; [exact Hacc|].
  apply IH. by apply add_fin.
Qed.

Lemma div_of_nat_fin (x : number) (n : nat) :
  is_fin x = true -> (0 < n)%nat -> is_fin (div x (of_nat n)) = true.
Proof.
  destruct x as [| | |q]; try discriminate. intros _ Hn. cbn [div of_nat].
  destruct (Qzero_b (inject_Z (Z.of_nat n))) eqn:Z; [|reflexivity].
  unfold Qzero_b in Z. cbn in Z. lia.
Qed.

Lemma statsOfCluster_fin (cm : list RFMMetrics) (i : nat) :
  Forall (fun m => finiteMetric m = true) cm ->
  finiteStats
    match cm with
    | [] => emptyStats i
    | _ =>
        {| Stats.cluster_id := i; Stats.size := length cm;
           Stats.avgRecency := div (sum_by recency cm) (of_nat (length cm));
           Stats.avgFrequency := div (sum_by frequency cm) (of_nat (length cm));
           Stats.avgMonetary := div (sum_by monetary cm) (of_nat (length cm)) |}
    end = true.
Proof.
  intros H. destruct cm as [|m cm]; [reflexivity|].
  unfold finiteStats. cbn [Stats.avgRecency Stats.avgFrequency Stats.avgMonetary].
  rewrite !div_of_nat_fin; [reflexivity| | | | | |]; try (cbn; lia);
    apply sum_by_fin; (eapply Forall_impl; [exact H|]);
    unfold finiteMetric; intros x Hx;
    by repeat (apply andb_prop in Hx as [Hx ?]).
Qed.

Lemma calculateClusterStatistics_fin metrics clusters k :
  Forall (fun m => finiteMetric m = true) metrics ->
  Forall (fun s => finiteStats s = true)
         (calculateClusterStatistics metrics clusters k).
Proof.
  intros H. unfold calculateClusterStatistics.
  change (map ?f (seq 0 k)) with (f <$> seq 0 k).
  apply Forall_fmap, Forall_forall. intros i _. unfold compose.
  apply (statsOfCluster_fin (inCluster clusters i metrics) i).
  by apply inCluster_Forall.
Qed.

Lemma calculateClusterStatistics_empty metrics clusters k i :
  (i < k)%nat -> inCluster clusters i metrics = [] ->
  calculateClusterStatistics metrics clusters k !! i = Some (emptyStats i).
Proof.
  intros Hi He. unfold calculateClusterStatistics.
  change (map ?f (seq 0 k)) with (f <$> seq 0 k).
  rewrite list_lookup_fmap, lookup_seq_lt by exact Hi. cbn. by rewrite He.
Qed.

Lemma lt_le_absurd (x y : number) : lt x y = true -> le y x = true -> False.
Proof.
  destruct x as [| | |a], y as [| | |b]; try discriminate.
  rewrite lt_Fin, le_Fin. lra.
Qed.

(** C9: a cluster without points is recorded with size 0 and zero averages;
    the ranking gives it [recencyScore = 1] and composite score exactly 0.3,
    and still a rank and a label; the metrics being finite, it comes ahead
    of every cluster whose composite score is below 0.3. *)
Theorem empty_cluster_ranked metrics clusters k i :
  (i < k)%nat ->
  inCluster clusters i metrics = [] ->
  let stats := calculateClusterStatistics metrics clusters k in
  let ranked := rankClustersAndAssignLabels stats in
  stats !! i =
    Some {| Stats.cluster_id := i; Stats.size := 0; Stats.avgRecency := Fin 0;
            Stats.avgFrequency := Fin 0; Stats.avgMonetary := Fin 0 |} /\
  Scored.recencyScore (withScores (emptyStats i)) = Fin 1 /\
  Scored.composite_score (withScores (emptyStats i)) = Fin (3 # 10) /\
  exists a ce,
    ranked !! a = Some ce /\
    Center.cluster_id ce = i /\
    Center.composite_score ce = Fin (3 # 10) /\
    Center.rank ce = a + 1 /\ (a < k)%nat /\
    Center.segment_label ce = labelAt a /\
    (Forall (fun m => finiteMetric m = true) metrics ->
     forall c, c ∈ ranked ->
       lt (Center.composite_score c) (Fin (3 # 10)) = true ->
       (Center.rank ce < Center.rank c)%nat).
Proof.
  intros Hi He stats ranked.
  assert (Hs : stats !! i = Some (emptyStats i))
    by (by apply calculateClusterStatistics_empty).
  split; [exact Hs|]. split; [reflexivity|]. split; [reflexivity|].
  assert (Hin : statsKey (emptyStats i) ∈ centerKey <$> ranked).
  { subst ranked. rewrite ranked_keys_perm. apply list_elem_of_fmap_2.
    apply list_elem_of_lookup. eauto. }
  apply list_elem_of_fmap in Hin as (ce & Hkey & Hce).
  pose proof (ranked_composite stats ce Hce) as Hscore.
  apply list_elem_of_lookup in Hce as [a Ha].
  injection Hkey as Hid Hr Hf Hm. rewrite <- Hr, <- Hf, <- Hm in Hscore.
  change (compositeOf _ _ _) with (Fin (3 # 10)) in Hscore.
  destruct (ranked_rank_label stats a ce Ha) as [Hrank Hlabel].
  exists a, ce. split; [exact Ha|]. split; [done|]. split; [exact Hscore|].
  split; [exact Hrank|]. split.
  { apply lookup_lt_Some in Ha. subst ranked stats.
    rewrite ranked_length in Ha. unfold calculateClusterStatistics in Ha.
    by rewrite length_map, length_seq in Ha. }
  split; [exact Hlabel|].
  intros Hfin c Hc Hlt. apply list_elem_of_lookup in Hc as [b Hb].
  destruct (ranked_rank_label stats b c Hb) as [Hrb _]. rewrite Hrank, Hrb.
  assert (Hstats : Forall (fun s => finiteStats s = true) stats)
    by (by apply calculateClusterStatistics_fin).
  destruct (Nat.lt_trichotomy a b) as [Hab|[Hab|Hab]]; [lia| |].
  - subst b. assert (c = ce) as -> by congruence.
    rewrite Hscore in Hlt. discriminate.
  - exfalso. apply (lt_le_absurd _ _ Hlt). rewrite <- Hscore.
    by apply (ranked_sorted stats b a).
Qed.

Lemma empty_cluster_ranked_witness :
  let ranked :=
    rankClustersAndAssignLabels (calculateClusterStatistics dormant [1] 2) in
  Center.cluster_id <$> ranked = [0; 1] /\
  Center.composite_score <$> ranked = [Fin (3 # 10); Fin (3 # 100)] /\
  exists a ce,
    ranked !! a = Some ce /\
    Center.cluster_id ce = 0 /\
    Center.composite_score ce = Fin (3 # 10) /\
    Center.rank ce = a + 1 /\ (a < 2)%nat /\
    Center.segment_label ce = labelAt a /\
    forall c, c ∈ ranked ->
      lt (Center.composite_score c) (Fin (3 # 10)) = true ->
      (Center.rank ce < Center.rank c)%nat.
Proof.
  split; [reflexivity|]. split; [reflexivity|].
  destruct (empty_cluster_ranked dormant [1] 2 0)
    as (_ & _ & _ & a & ce & H1 & H2 & H3 & H4 & H5 & H6 & H7);
    [lia | reflexivity |].
  exists a, ce. repeat (split; [assumption|]).
  apply H7. repeat constructor.
Defined.

(** ** Metric aggregator *)

Lemma max2_lower (c : Q) (x : number) :
  is_nan x = false -> le (Fin c) (max2 (Fin c) x) = true.
Proof.
  destruct x as [| | |q]; try discriminate; intros _; cbn [max2 lt].
  - reflexivity.
  - apply le_Fin, Qle_refl.
  - destruct (Qlt_b c q) eqn:E.
    + apply Qlt_b_iff in E. apply le_Fin. lra.
    + apply le_Fin, Qle_refl.
Qed.

Lemma fin_not_nan (x : number) : is_fin x = true -> is_nan x = false.
Proof. by destruct x. Qed.

Lemma or_zero_fin (x : number) : is_fin x = true -> is_fin (or_zero x) = true.
Proof.
  destruct x as [| | |q]; try discriminate. intros _. cbn.
  by destruct (Qzero_b q).
Qed.

Lemma groupOrders_step (grouped : gmap string (list Order)) (order : Order) (u : string) :
  (if bool_decide (o_user_id order = ""%string) then grouped
   else <[o_user_id order :=
            default [] (grouped !! o_user_id order) ++ [order]]> grouped) !! u =
  if bool_decide (o_user_id order = ""%string) then grouped !! u
  else if bool_decide (o_user_id order = u)
       then Some (default [] (grouped !! u) ++ [order])
       else grouped !! u.
Proof.
  repeat case_bool_decide; subst; try reflexivity.
  - apply lookup_insert_eq.
  - by apply lookup_insert_ne.
Qed.

(** The group of a customer is the list of its orders, in order; there is no
    group for a customer without order, nor for the empty identifier. *)
Lemma groupOrdersByCustomer_lookup (orders : list Order) (u : string) :
  groupOrdersByCustomer orders !! u =
  if bool_decide (u = ""%string) then None
  else match ordersOf u orders with
       | [] => None
       | l => Some l
       end.
Proof.
  unfold groupOrdersByCustomer, ordersOf.
  induction orders as [|o orders IH] using rev_ind.
  - cbn. by case_bool_decide.
  - rewrite foldl_app. cbn [foldl]. rewrite groupOrders_step, IH.
    rewrite filter_app.
    destruct (bool_decide (o_user_id o = ""%string)) eqn:E1.
    + apply bool_decide_eq_true in E1.
      case_bool_decide as E2; [reflexivity|].
      rewrite filter_cons_False, filter_nil, app_nil_r by congruence.
      reflexivity.
    + apply bool_decide_eq_false in E1.
      destruct (bool_decide (o_user_id o = u)) eqn:E2.
      * apply bool_decide_eq_true in E2. subst u.
        rewrite bool_decide_eq_false_2 by exact E1.
        rewrite filter_cons_True, filter_nil by reflexivity.
        by destruct (filter _ orders).
      * apply bool_decide_eq_false in E2.
        rewrite filter_cons_False, filter_nil, app_nil_r by exact E2.
        reflexivity.
Qed.

Section AggregatorFacts.

Variable Date_getTime : string -> number.

Lemma recency_of_days (n mx : Q) :
  let recency :=
    max2 (Fin 0) (Math_floor (div (sub (Fin n) (timeValue (Fin mx))) msPerDay)) in
  le (Fin 0) recency = true /\ ((n < mx)%Q -> recency = Fin 0).
Proof.
  cbn [timeValue sub]. unfold fin, msPerDay. cbn [div].
  change (Qzero_b (1000 * 60 * 60 * 24)) with false. cbn iota. unfold fin.
  cbn [Math_floor]. split.
  - apply max2_lower. reflexivity.
  - intros Hlt. cbn [max2 lt].
    destruct (Qlt_b 0 _) eqn:E; [|reflexivity]. exfalso.
    apply Qlt_b_iff in E. unfold Qlt in E. cbn in E.
    rewrite Z.mul_1_r in E.
    assert (Hneg : (Qred (Qred (n - mx) / (1000 * 60 * 60 * 24)) < 0)%Q).
    { rewrite !Qred_correct.
      apply Qlt_shift_div_r; [reflexivity | lra]. }
    pose proof (Qfloor_le (Qred (Qred (n - mx) / (1000 * 60 * 60 * 24)))) as Hfl.
    assert (H0 : (0 < inject_Z (Qfloor (Qred (Qred (n - mx) / (1000 * 60 * 60 * 24)))))%Q).
    { unfold Qlt. cbn. lia. }
    lra.
Qed.

Lemma frequency_of_count (n : nat) :
  (0 < n)%nat -> max2 (Fin 1) (of_nat n) = of_nat n.
Proof.
  intros Hn. cbn [max2 of_nat lt].
  destruct (Qlt_b 1 _) eqn:E; [reflexivity|].
  apply Qlt_b_false in E. unfold Qle in E. cbn in E.
  assert (n = 1)%nat as -> by lia. reflexivity.
Qed.

Lemma calculateCustomerMetrics_count (orders : list Order) (currentDate : number) :
  orders <> [] ->
  let metrics := calculateCustomerMetrics Date_getTime orders currentDate in
  Cust.frequency metrics = of_nat (length orders) /\
  le (Fin 1) (Cust.frequency metrics) = true.
Proof.
  intros Hne. unfold calculateCustomerMetrics. cbn [Cust.frequency].
  assert (Hlen : (0 < length orders)%nat).
  { destruct orders; [congruence | cbn; lia]. }
  split; [by apply frequency_of_count | by apply max2_lower].
Qed.

Lemma calculateCustomerMetrics_ok (orders : list Order) (currentDate : number) :
  orders <> [] ->
  is_fin currentDate = true ->
  Forall (fun o => validOrder Date_getTime o = true) orders ->
  let metrics := calculateCustomerMetrics Date_getTime orders currentDate in
  le (Fin 0) (Cust.recency metrics) = true /\
  le (Fin 0) (Cust.monetary metrics) = true /\
  ((exists o, o ∈ orders /\
      lt currentDate (Date_getTime (created_at o)) = true) ->
   Cust.recency metrics = Fin 0).
Proof.
  intros Hne Hnow Hvalid. unfold calculateCustomerMetrics.
  cbn [Cust.recency Cust.monetary].
  destruct currentDate as [| | |n]; try discriminate.
  change (map ?f orders) with (f <$> orders).
  destruct (finite_list ((fun order => Date_getTime (created_at order)) <$> orders))
    as [qs Hqs].
  { apply Forall_fmap. eapply Forall_impl; [exact Hvalid|].
    intros o Ho. by apply andb_prop in Ho as [? _]. }
  rewrite Hqs.
  destruct (Math_max_Fin qs) as (mx & -> & Hin & Hmax).
  { intros ->. destruct orders; [congruence | discriminate]. }
  destruct (recency_of_days n mx) as [Hge Hfuture].
  split; [exact Hge|]. split.
  - apply max2_lower, fin_not_nan.
    apply (sum_by_fin (fun order => or_zero (total order))).
    eapply Forall_impl; [exact Hvalid|]. intros o Ho.
    apply andb_prop in Ho as [_ Ho]. by apply or_zero_fin.
  - intros (o & Ho & Hlt). apply Hfuture.
    assert (Hd : Date_getTime (created_at o) ∈ Fin <$> qs).
    { rewrite <- Hqs.
      by apply (list_elem_of_fmap_2 (fun order => Date_getTime (created_at order))). }
    apply list_elem_of_fmap in Hd as (d & Hd & Hdin).
    rewrite Hd in Hlt. apply lt_Fin in Hlt.
    specialize (Hmax d Hdin). lra.
Qed.

(** The invariant of the aggregation, as far as the code keeps it: every
    record belongs to a customer of the input with at least one order and
    has frequency the number of that customer's orders, hence at least 1; a
    customer without order has no record.  The orders having a valid date
    and a finite total, recency is at least 0 (exactly 0 when an order of
    the customer is dated after the current date) and monetary is at least
    0. *)
Theorem aggregator_invariant (currentDate : number)
    (customers : list Customer) (orders : list Order) :
  let output := calculateMetricsForCustomers Date_getTime currentDate customers orders in
  Forall (fun m =>
            (exists c, c ∈ customers /\ Cus.id c = user_id m) /\
            ordersOf (user_id m) orders <> [] /\
            frequency m = of_nat (length (ordersOf (user_id m) orders)) /\
            le (Fin 1) (frequency m) = true)
         output /\
  (forall c, c ∈ customers -> ordersOf (Cus.id c) orders = [] ->
     forall m, m ∈ output -> user_id m <> Cus.id c) /\
  (is_fin currentDate = true ->
   Forall (fun o => validOrder Date_getTime o = true) orders ->
   Forall (fun m =>
             le (Fin 0) (recency m) = true /\
             le (Fin 0) (monetary m) = true /\
             ((exists o, o ∈ orders /\ o_user_id o = user_id m /\
                 lt currentDate (Date_getTime (created_at o)) = true) ->
              recency m = Fin 0))
          output).
Proof.
  intros output.
  assert (Hmain : forall m, m ∈ output ->
            let cm := calculateCustomerMetrics Date_getTime
                        (ordersOf (user_id m) orders) currentDate in
            (exists c, c ∈ customers /\ Cus.id c = user_id m) /\
            ordersOf (user_id m) orders <> [] /\
            recency m = Cust.recency cm /\
            frequency m = Cust.frequency cm /\
            monetary m = Cust.monetary cm).
  { intros m Hm. subst output. unfold calculateMetricsForCustomers in Hm.
    apply list_elem_of_omap in Hm as (c & Hc & Hm).
    unfold metricsOfCustomer in Hm. rewrite groupOrdersByCustomer_lookup in Hm.
    destruct (bool_decide (Cus.id c = ""%string)); [discriminate|].
    destruct (ordersOf (Cus.id c) orders) as [|o l] eqn:El; [discriminate|].
    injection Hm as <-. cbn [user_id recency frequency monetary]. rewrite El.
    split; [eauto|]. by repeat split. }
  split; [|split].
  - apply Forall_forall. intros m Hm.
    destruct (Hmain m Hm) as (Hc & Hne & _ & -> & _).
    destruct (calculateCustomerMetrics_count (ordersOf (user_id m) orders)
                currentDate Hne) as [Hf Hf1].
    auto.
  - intros c Hc Hnone m Hm Heq.
    destruct (Hmain m Hm) as (_ & Hne & _).
    rewrite Heq in Hne. contradiction.
  - intros Hnow Hvalid. apply Forall_forall. intros m Hm.
    destruct (Hmain m Hm) as (Hc & Hne & -> & _ & ->).
    destruct (calculateCustomerMetrics_ok (ordersOf (user_id m) orders) currentDate)
      as (Hr & Hmo & Hfut); [exact Hne | exact Hnow | |].
    { rewrite Forall_forall in Hvalid |- *. intros o Ho. apply Hvalid.
      unfold ordersOf in Ho. by apply list_elem_of_filter in Ho as [_ ?]. }
    split; [exact Hr|]. split; [exact Hmo|].
    intros (o & Ho & Hu & Hlt). apply Hfut. exists o. split; [|exact Hlt].
    unfold ordersOf. by apply list_elem_of_filter.
Qed.

End AggregatorFacts.

Lemma aggregator_invariant_witness :
  calculateMetricsForCustomers demoDate demoNow demoCustomers demoOrders =
    [ {| user_id := "u1"; recency := Fin 10; frequency := Fin 2;
         monetary := Fin 150; rfm_score := "" |};
      {| user_id := "u2"; recency := Fin 0; frequency := Fin 1;
         monetary := Fin 75; rfm_score := "" |} ] /\
  Forall (fun m => le (Fin 0) (recency m) = true /\
                   le (Fin 0) (monetary m) = true)
         (calculateMetricsForCustomers demoDate demoNow demoCustomers demoOrders).
Proof.
  split; [vm_compute; reflexivity|].
  destruct (aggregator_invariant demoDate demoNow demoCustomers demoOrders)
    as (_ & _ & H).
  eapply Forall_impl; [apply H; [reflexivity | repeat constructor]|].
  intros m (Hr & Hm & _). auto.
Defined.

(** C7: the clamp [Math.max(0, recency)], commented [Ensure non-negative],
    lets [NaN] through: a customer whose one delivered order has a
    [created_at] that is no date gets a record of recency [NaN], which is
    not at least 0, whatever the current date.  The record keeps frequency
    1 and a monetary value of at least 0. *)
Theorem aggregator_recency_unclamped (currentDate : number) :
  calculateMetricsForCustomers demoDate currentDate loneCustomer undatedOrders =
    [ {| user_id := "u1"; recency := NaN; frequency := Fin 1;
         monetary := Fin 120; rfm_score := "" |} ] /\
  Forall (fun m => le (Fin 0) (recency m) = false)
         (calculateMetricsForCustomers demoDate currentDate loneCustomer
                                       undatedOrders).
Proof.
  assert (H : calculateMetricsForCustomers demoDate currentDate loneCustomer
                undatedOrders =
              [ {| user_id := "u1"; recency := NaN; frequency := Fin 1;
                   monetary := Fin 120; rfm_score := "" |} ]).
  { destruct currentDate; vm_compute; reflexivity. }
  split; [exact H|]. rewrite H. by repeat constructor.
Qed.

(** ** Model selector *)

Lemma lt_irrefl (x : number) : lt x x = false.
Proof.
  destruct x as [| | |a]; try reflexivity. apply Qlt_b_false, Qle_refl.
Qed.

Lemma lt_trans (x y z : number) : lt x y = true -> lt y z = true -> lt x z = true.
Proof.
  destruct x as [| | |a], y as [| | |b], z as [| | |c]; cbn [lt];
    intros H1 H2; try congruence.
  apply Qlt_b_iff in H1, H2. apply Qlt_b_iff. lra.
Qed.

(** A value that does not exceed the old maximum does not exceed a greater
    one. *)
Lemma gt_raise (x m m' : number) :
  gt m' m = true -> gt x m = false -> gt x m' = false.
Proof.
  unfold gt.
  destruct x as [| | |a], m as [| | |b], m' as [| | |c]; cbn [lt];
    intros H1 H2; try congruence.
  apply Qlt_b_iff in H1. apply Qlt_b_false in H2. apply Qlt_b_false. lra.
Qed.

Section Elbow.

Variable wcssValues : list number.

Let rate := improvementRate wcssValues.

Lemma elbowStep_inv (seen : list nat) (st : nat * number) (i : nat) :
  elbowInv wcssValues seen st ->
  elbowInv wcssValues (seen ++ [i]) (elbowStep wcssValues st i).
Proof.
  unfold elbowStep, elbowInv. cbv zeta. fold rate.
  intros [[-> Hnone] | (i0 & Hi0 & -> & Hpos & Hmax)]; cbn [snd].
  - destruct (gt (rate i) (Fin 0)) eqn:E.
    + right. exists i. split; [set_solver|]. split; [reflexivity|].
      split; [exact E|]. intros j Hj.
      apply elem_of_app in Hj as [Hj|Hj].
      * apply (gt_raise _ (Fin 0)); [exact E | by apply Hnone].
      * apply list_elem_of_singleton in Hj as ->. apply lt_irrefl.
    + left. split; [reflexivity|]. intros j Hj.
      apply elem_of_app in Hj as [Hj|Hj]; [by apply Hnone|].
      by apply list_elem_of_singleton in Hj as ->.
  - destruct (gt (rate i) (rate i0)) eqn:E.
    + right. exists i. split; [set_solver|]. split; [reflexivity|].
      split; [exact (lt_trans _ _ _ Hpos E)|]. intros j Hj.
      apply elem_of_app in Hj as [Hj|Hj].
      * apply (gt_raise _ (rate i0)); [exact E | by apply Hmax].
      * apply list_elem_of_singleton in Hj as ->. apply lt_irrefl.
    + right. exists i0. split; [set_solver|]. split; [reflexivity|].
      split; [exact Hpos|]. intros j Hj.
      apply elem_of_app in Hj as [Hj|Hj]; [by apply Hmax|].
      by apply list_elem_of_singleton in Hj as ->.
Qed.

Lemma elbow_foldl_inv (todo seen : list nat) (st : nat * number) :
  elbowInv wcssValues seen st ->
  elbowInv wcssValues (seen ++ todo) (foldl (elbowStep wcssValues) st todo).
Proof.
  revert seen st. induction todo as [|i todo IH]; intros seen st H.
  - by rewrite app_nil_r.
  - cbn [foldl]. rewrite (assoc_L (++) seen [i] todo : seen ++ i :: todo = _).
    apply IH. by apply elbowStep_inv.
Qed.

End Elbow.

(** The elbow is [minK] when no interior candidate has a positive rate, and
    otherwise an interior candidate of positive rate that no other interior
    candidate exceeds. *)
Lemma elbow_spec (wcssValues : list number) :
  (elbow wcssValues = minK /\
   forall i, i ∈ interior wcssValues ->
     gt (improvementRate wcssValues i) (Fin 0) = false) \/
  (exists i, i ∈ interior wcssValues /\
     elbow wcssValues = minK + i /\
     gt (improvementRate wcssValues i) (Fin 0) = true /\
     forall j, j ∈ interior wcssValues ->
       gt (improvementRate wcssValues j) (improvementRate wcssValues i) = false).
Proof.
  unfold elbow.
  destruct (elbow_foldl_inv wcssValues (interior wcssValues) [] (minK, Fin 0))
    as [[-> H] | (i & Hi & -> & Hpos & Hmax)].
  - left. split; [reflexivity|]. intros i Hi. inversion Hi.
  - left. split; [reflexivity|]. exact H.
  - right. exists i. by repeat split.
Qed.

Lemma elem_of_interior (wcssValues : list number) (i : nat) :
  i ∈ interior wcssValues <-> (1 <= i /\ i + 1 < length wcssValues)%nat.
Proof. unfold interior. rewrite elem_of_seq. lia. Qed.

Lemma elem_of_candidateKs (n k : nat) :
  k ∈ candidateKs n <-> (2 <= k <= Nat.min 8 (n / 2))%nat.
Proof. unfold candidateKs, maxKOf, minK. rewrite elem_of_seq. lia. Qed.

Lemma mapM_inv {A B} (f : A -> M B) (l : list A) r p ys p' :
  mapM f l r p = Some (ys, p') ->
  Forall2 (fun x y => exists p1 p2, f x r p1 = Some (y, p2)) l ys.
Proof.
  revert p ys. induction l as [|x l IH]; intros p ys H; cbn [mapM] in H.
  - apply ret_Some in H as [<- _]. constructor.
  - apply bind_Some in H as (y & p1 & Hy & H).
    apply bind_Some in H as (k & p2 & Hk & H).
    apply ret_Some in H as [<- ->]. constructor.
    + exists p, p1. exact Hy.
    + apply (IH p1). exact Hk.
Qed.

(** ** Clustering engine: the run returns *)

Lemma Qsquare_nonneg (a : Q) : (0 <= a * a)%Q.
Proof. nra. Qed.

Lemma nonneg_fin (x : number) : nonneg x -> is_fin x = true.
Proof. by destruct x. Qed.

Lemma idx_fin (point : list number) (i : nat) :
  Forall (fun x => is_fin x = true) point -> (i < length point)%nat ->
  exists q, idx point i = Fin q.
Proof.
  intros H Hi. unfold idx.
  destruct (lookup_lt_is_Some_2 point i Hi) as [x Hx]. rewrite Hx. cbn.
  rewrite Forall_forall in H.
  assert (Hf : is_fin x = true) by (apply H, list_elem_of_lookup; eauto).
  destruct x; try discriminate. eauto.
Qed.

Lemma squares_from (point2 : list number) (point1 : list number) (n : nat) (acc : Q) :
  Forall (fun x => is_fin x = true) point1 ->
  Forall (fun x => is_fin x = true) point2 ->
  (n + length point1 <= length point2)%nat ->
  (0 <= acc)%Q ->
  nonneg (foldl (fun sum '(index, val) =>
                   add sum (pow2 (sub val (idx point2 index))))
                (Fin acc) (imap (fun i => pair (n + i)) point1)).
Proof.
  intros H1 H2. revert n acc.
  induction H1 as [|x point1 Hx _ IH]; intros n acc Hlen Hacc.
  - exact Hacc.
  - cbn [imap foldl]. cbn [length] in Hlen.
    destruct x as [| | |a]; try discriminate.
    destruct (idx_fin point2 (n + 0) H2) as [b ->]; [lia|].
    cbn [sub pow2 mul add]. unfold fin.
    rewrite (imap_ext _ (fun i => pair (S n + i))).
    + apply IH; [lia|]. rewrite !Qred_correct.
      pose proof (Qsquare_nonneg (a - b)). lra.
    + intros i y _. cbn. f_equal. lia.
Qed.

Lemma euclideanDistance_fin (point1 point2 : list number) :
  Forall (fun x => is_fin x = true) point1 ->
  Forall (fun x => is_fin x = true) point2 ->
  (length point1 <= length point2)%nat ->
  is_fin (euclideanDistance point1 point2) = true.
Proof.
  intros H1 H2 Hlen. unfold euclideanDistance.
  pose proof (squares_from point2 point1 0 0 H1 H2 Hlen (Qle_refl 0)) as H.
  cbn [Nat.add] in H.
  destruct (foldl _ _ _) as [| | |q]; try contradiction. cbn in H.
  cbn [Math_sqrt]. destruct (Qneg_b q) eqn:E; [|reflexivity].
  apply Qneg_b_iff in E. lra.
Qed.

Lemma Math_min_fin (l : list number) :
  l <> [] -> Forall (fun x => is_fin x = true) l -> is_fin (Math_min l) = true.
Proof.
  intros Hne H. destruct (finite_list l H) as [qs ->].
  destruct (Math_min_Fin qs) as (mn & -> & _); [|reflexivity].
  intros ->. by apply Hne.
Qed.

(** The weights of the seeding are finite and not negative. *)
Lemma seeding_weight (d : nat) (point : list number) (centroids : list (list number)) :
  finitePoint d point -> centroids <> [] -> Forall (finitePoint d) centroids ->
  nonneg (let minDistance :=
            Math_min (map (fun centroid => euclideanDistance point centroid)
                          centroids) in
          mul minDistance minDistance).
Proof.
  intros [Hlen Hfin] Hne Hcs. cbn zeta.
  assert (Hm : is_fin (Math_min (map (fun centroid => euclideanDistance point centroid)
                                     centroids)) = true).
  { apply Math_min_fin.
    - destruct centroids; [congruence | discriminate].
    - change (map ?f centroids) with (f <$> centroids).
      apply Forall_fmap. eapply Forall_impl; [exact Hcs|].
      intros c [Hc1 Hc2]. apply euclideanDistance_fin; auto. lia. }
  destruct (Math_min _) as [| | |m]; try discriminate.
  cbn [mul]. unfold fin, nonneg. rewrite Qred_correct. apply Qsquare_nonneg.
Qed.

Lemma foldl_add_qsum (l : list number) (c : Q) :
  Forall (fun x => is_fin x = true) l ->
  exists t, foldl (fun sum x => add sum (id x)) (Fin c) l = Fin t /\
            (t == c + qsum l)%Q.
Proof.
  intros H. revert c. induction H as [|x l Hx _ IH]; intros c.
  - exists c. split; [reflexivity|]. cbn. lra.
  - destruct x as [| | |q]; try discriminate. cbn [foldl].
    change (add (Fin c) (id (Fin q))) with (Fin (Qred (c + q))).
    destruct (IH (Qred (c + q))) as (t & -> & Ht). exists t.
    split; [reflexivity|]. rewrite Ht, Qred_correct.
    change (qsum (Fin q :: l)) with (q + qsum l)%Q. lra.
Qed.

Lemma qsum_nonneg (l : list number) : Forall nonneg l -> (0 <= qsum l)%Q.
Proof.
  induction 1 as [|x l Hx _ IH]; [cbn; lra|].
  destruct x as [| | |q]; try contradiction.
  change (qsum (Fin q :: l)) with (q + qsum l)%Q. cbn in Hx. lra.
Qed.

(** The weighted pick succeeds when the target does not exceed the weight
    still to be cumulated. *)
Lemma pickWeighted_some (distances : list number) (rv : Q)
    (rest : list (list number)) (j : nat) (cum : Q) :
  Forall nonneg distances ->
  (j + length rest = length distances)%nat ->
  rest <> [] ->
  (rv <= cum + qsum (drop j distances))%Q ->
  exists point,
    pickWeighted distances (Fin rv) (Fin cum) j rest = Some point /\
    point ∈ rest.
Proof.
  intros Hd. revert j cum.
  induction rest as [|point rest IH]; intros j cum Hlen Hne Hrv; [congruence|].
  cbn [length] in Hlen. cbn [pickWeighted].
  destruct (lookup_lt_is_Some_2 distances j) as [dj Hj]; [lia|].
  assert (Hnn : nonneg dj).
  { rewrite Forall_forall in Hd. apply Hd, list_elem_of_lookup. eauto. }
  rewrite (drop_S _ _ _ Hj) in Hrv. unfold idx. rewrite Hj. cbn [default from_option id].
  destruct dj as [| | |q]; try contradiction.
  change (qsum (Fin q :: ?l)) with (q + qsum l)%Q in Hrv.
  cbn [add]. unfold fin, ge. cbn [le].
  destruct (Qle_bool rv (Qred (cum + q))) eqn:E.
  - exists point. split; [reflexivity | by left].
  - assert (Hlt : (Qred (cum + q) < rv)%Q).
    { apply Qnot_le_lt. intros H. apply Qle_bool_iff in H. congruence. }
    rewrite Qred_correct in Hlt.
    destruct rest as [|point' rest'].
    + exfalso. cbn [length] in Hlen.
      rewrite drop_ge in Hrv by lia. cbn in Hrv. lra.
    + destruct (IH (S j) (Qred (cum + q))) as (pt & Hpt & Hin);
        [cbn [length] in *; lia | congruence | rewrite Qred_correct; lra |].
      exists pt. split; [exact Hpt | by right].
Qed.

(** One round of the seeding picks a point of the data. *)
Lemma seeding_pick (d : nat) (data centroids : list (list number)) (r : Q) :
  data <> [] -> Forall (finitePoint d) data ->
  centroids <> [] -> Forall (finitePoint d) centroids ->
  (0 <= r < 1)%Q ->
  let distances :=
    map (fun point =>
           let minDistance :=
             Math_min (map (fun centroid => euclideanDistance point centroid)
                           centroids) in
           mul minDistance minDistance)
        data in
  exists point,
    pickWeighted distances (mul (Fin r) (sum_by id distances)) (Fin 0) 0 data
      = Some point /\ point ∈ data.
Proof.
  intros Hne Hdata Hcne Hcs Hr distances.
  assert (Hnn : Forall nonneg distances).
  { subst distances. change (map ?f data) with (f <$> data).
    apply Forall_fmap. eapply Forall_impl; [exact Hdata|].
    intros point Hp. by apply (seeding_weight d). }
  destruct (foldl_add_qsum distances 0) as (t & Ht & Hteq).
  { eapply Forall_impl; [exact Hnn|]. apply nonneg_fin. }
  unfold sum_by. rewrite Ht. cbn [mul]. unfold fin.
  apply pickWeighted_some; [exact Hnn | | exact Hne |].
  - subst distances. by rewrite length_map.
  - rewrite drop_0, Qred_correct, Hteq.
    pose proof (qsum_nonneg distances Hnn). nra.
Qed.

Lemma seedCentroids_total (d : nat) (data : list (list number)) (r : RandomSource)
    (n : nat) (centroids : list (list number)) (p : nat) :
  validSource r -> data <> [] -> Forall (finitePoint d) data ->
  centroids <> [] -> Forall (fun c => c ∈ data) centroids ->
  exists cs p',
    seedCentroids data n centroids r p = Some (cs, p') /\
    length cs = length centroids + n /\
    Forall (fun c => c ∈ data) cs.
Proof.
  intros Hr Hne Hdata. revert centroids p.
  induction n as [|n IH]; intros centroids p Hcne Hcs.
  - exists centroids, p. split; [reflexivity|]. split; [lia | exact Hcs].
  - cbn [seedCentroids]. unfold mbind, M_bind, Math_random. cbv zeta.
    destruct (seeding_pick d data centroids (r p)) as (point & Hpick & Hin);
      [exact Hne | exact Hdata | exact Hcne | | apply Hr |].
    { rewrite Forall_forall in Hcs, Hdata |- *. auto. }
    cbv zeta in Hpick. rewrite Hpick.
    destruct (IH (centroids ++ [point]) (S p)) as (cs & p' & H & Hlen & Hall).
    { by destruct centroids. }
    { apply Forall_app. split; [exact Hcs | by constructor]. }
    exists cs, p'. split; [exact H|]. split; [|exact Hall].
    rewrite Hlen, length_app. cbn. lia.
Qed.

Lemma first_index (q : Q) (n : nat) :
  (0 <= q < 1)%Q -> (0 < n)%nat ->
  exists i, to_index (Math_floor (mul (Fin q) (of_nat n))) = Some i /\ (i < n)%nat.
Proof.
  intros [H0 H1] Hn. cbn [of_nat mul]. unfold fin.
  set (x := Qred (q * inject_Z (Z.of_nat n))).
  cbn [Math_floor to_index]. rewrite Qfloor_Z.
  assert (Hx0 : (0 <= x)%Q).
  { subst x. rewrite Qred_correct. apply Qmult_le_0_compat; [exact H0|].
    rewrite <- (Zle_Qle 0). lia. }
  assert (Hx1 : (x < inject_Z (Z.of_nat n))%Q).
  { subst x. rewrite Qred_correct.
    assert (Hpos : (0 < inject_Z (Z.of_nat n))%Q) by (rewrite <- (Zlt_Qlt 0); lia).
    nra. }
  assert (Hz0 : (0 <= Qfloor x)%Z).
  { change 0%Z with (Qfloor 0). by apply Qfloor_resp_le. }
  assert (Hz1 : (Qfloor x < Z.of_nat n)%Z).
  { rewrite Zlt_Qlt. eapply Qle_lt_trans; [apply Qfloor_le | exact Hx1]. }
  rewrite (proj2 (Qeq_bool_iff _ _) (Qeq_refl _)).
  rewrite (proj2 (Z.leb_le _ _) Hz0). cbn [andb].
  exists (Z.to_nat (Qfloor x)). split; [reflexivity | lia].
Qed.

Lemma initializeCentroids_total (d : nat) (data : list (list number)) (k : nat)
    (r : RandomSource) (p : nat) :
  validSource r -> data <> [] -> Forall (finitePoint d) data ->
  exists cs p',
    initializeCentroidsKMeansPlusPlus data k r p = Some (cs, p') /\
    (k <= length cs)%nat /\ Forall (fun c => c ∈ data) cs.
Proof.
  intros Hr Hne Hdata. unfold initializeCentroidsKMeansPlusPlus.
  unfold mbind at 1, M_bind at 1, Math_random at 1.
  destruct (first_index (r p) (length data)) as (i & Hi & Hlt); [apply Hr | |].
  { destruct data; [congruence | cbn; lia]. }
  destruct (lookup_lt_is_Some_2 data i Hlt) as [first Hfirst].
  unfold mbind at 1, M_bind at 1. rewrite Hi. cbn [mbind option_bind].
  rewrite Hfirst. cbn [lift mret M_ret].
  destruct (seedCentroids_total d data r (k - 1) [first] (S p))
    as (cs & p' & H & Hlen & Hall); [exact Hr | exact Hne | exact Hdata | done | |].
  { constructor; [|constructor]. apply list_elem_of_lookup. eauto. }
  exists cs, p'. split; [exact H|]. split; [cbn in Hlen; lia | exact Hall].
Qed.

(** The convergence test reads [previous[index]] for the indices of
    [current] only. *)
Lemma every_from_total (previous : list (list number)) (threshold : number)
    (current : list (list number)) (i : nat) :
  (i + length current <= length previous)%nat ->
  is_Some
    (every_from
       (fun index centroid =>
          match centroid, previous !! index with
          | [], _ => Some true
          | _, None => None
          | _, Some prev =>
              Some (forallb id
                      (imap (fun dimIndex val =>
                               lt (Math_abs (sub val (idx prev dimIndex)))
                                  threshold)
                            centroid))
          end)
       i current).
Proof.
  revert i. induction current as [|c current IH]; intros i Hlen; [by eexists|].
  cbn [every_from]. cbn [length] in Hlen.
  destruct (lookup_lt_is_Some_2 previous i) as [prev ->]; [lia|].
  assert (Hrest := IH (S i)).
  destruct c as [|x c].
  - apply Hrest. lia.
  - destruct (forallb _ _); [apply Hrest; lia | by eexists].
Qed.

Lemma centroidsConverged_total (current previous : list (list number))
    (threshold : number) :
  previous = [] \/ (length current <= length previous)%nat ->
  is_Some (centroidsConverged current previous threshold).
Proof.
  intros H. unfold centroidsConverged. destruct previous as [|p0 previous].
  - by eexists.
  - destruct H as [H|H]; [discriminate|]. by apply every_from_total.
Qed.

Lemma updateCentroid_total data clusters i r p :
  exists c p', updateCentroid data clusters i r p = Some (c, p').
Proof.
  unfold updateCentroid. destruct (inCluster clusters i data); by eexists _, _.
Qed.

Lemma mapM_total {A B} (f : A -> M B) (l : list A) r p :
  (forall x p, exists y p', f x r p = Some (y, p')) ->
  exists ys p', mapM f l r p = Some (ys, p') /\ length ys = length l.
Proof.
  intros Hf. revert p. induction l as [|x l IH]; intros p.
  - by exists [], p.
  - cbn [mapM]. destruct (Hf x p) as (y & p1 & Hy).
    destruct (IH p1) as (ys & p2 & Hys & Hlen).
    exists (y :: ys), p2. split; [|cbn; lia].
    unfold mbind at 1, M_bind at 1. rewrite Hy.
    unfold mbind at 1, M_bind at 1. rewrite Hys. reflexivity.
Qed.

Lemma updateCentroids_total data clusters k r p :
  exists cs p', updateCentroids data clusters k r p = Some (cs, p') /\
                length cs = k.
Proof.
  unfold updateCentroids.
  destruct (mapM_total (updateCentroid data clusters) (seq 0 k) r p)
    as (cs & p' & H & Hlen).
  - intros x q. apply updateCentroid_total.
  - exists cs, p'. split; [exact H|]. by rewrite Hlen, length_seq.
Qed.

(** ** Clustering engine: the loop *)

Lemma loopCondition_true (s : Loop) :
  loopCondition s = Some true <->
  convergedAt s = Some false /\ (l_iterations s < maxIterations)%nat.
Proof.
  unfold loopCondition, convergedAt.
  destruct (centroidsConverged _ _ _) as [[|]|];
    cbn [mbind option_bind negb andb].
  - split; [discriminate | intros [[=] _]].
  - rewrite <- Nat.ltb_lt. split; [intros [= ->] | intros [_ ->]]; auto.
  - split; [discriminate | intros [[=] _]].
Qed.

Lemma loopCondition_false (s : Loop) :
  loopCondition s = Some false ->
  convergedAt s = Some true \/
  (convergedAt s = Some false /\ (maxIterations <= l_iterations s)%nat).
Proof.
  unfold loopCondition, convergedAt.
  destruct (centroidsConverged _ _ _) as [[|]|];
    cbn [mbind option_bind negb andb]; [auto| |discriminate].
  intros [= H]. apply Nat.ltb_ge in H. auto.
Qed.

Lemma loopBody_iterations data k s r p s' p' :
  loopBody data k s r p = Some (s', p') ->
  l_iterations s' = S (l_iterations s) /\ l_previous s' = l_centroids s.
Proof.
  unfold loopBody. intros H. apply bind_Some in H as (cs & p1 & _ & H).
  apply ret_Some in H as [<- _]. auto.
Qed.

(** A returning loop has run [n] rounds, none of them from a converged
    state, and stops in a state where the condition fails. *)
Lemma kmeansLoop_rounds data k r (fuel : nat) (s : Loop) p s' p' :
  (l_iterations s <= maxIterations)%nat ->
  kmeansLoop fuel data k s r p = Some (s', p') ->
  exists n,
    rounds n data k s r p = Some (s', p') /\
    l_iterations s' = l_iterations s + n /\
    (l_iterations s' <= maxIterations)%nat /\
    (forall j, (j < n)%nat ->
       exists sj pj, rounds j data k s r p = Some (sj, pj) /\
                     convergedAt sj = Some false) /\
    loopCondition s' = Some false.
Proof.
  revert s p. induction fuel as [|fuel IH]; intros s p Hit H;
    cbn [kmeansLoop] in H;
    apply bind_Some in H as (b & p1 & Hb & H);
    apply lift_Some in Hb as [Hb <-]; destruct b.
  - discriminate.
  - apply ret_Some in H as [<- <-]. exists 0.
    split; [reflexivity|]. split; [lia|]. split; [exact Hit|].
    split; [intros j Hj; lia | exact Hb].
  - apply bind_Some in H as (s1 & p1 & Hbody & H).
    apply loopCondition_true in Hb as [Hconv Hlt].
    destruct (loopBody_iterations _ _ _ _ _ _ _ Hbody) as [Hit1 _].
    destruct (IH s1 p1) as (n & Hn & Hiter & Hmax & Hprev & Hstop);
      [lia | exact H |].
    exists (S n). split.
    { cbn [rounds]. apply bind_Some. eauto. }
    split; [lia|]. split; [exact Hmax|]. split; [|exact Hstop].
    intros [|j] Hj.
    + exists s, p. split; [reflexivity | exact Hconv].
    + destruct (Hprev j) as (sj & pj & Hsj & Hcj); [lia|].
      exists sj, pj. split; [|exact Hcj].
      cbn [rounds]. apply bind_Some. eauto.
  - apply ret_Some in H as [<- <-]. exists 0.
    split; [reflexivity|]. split; [lia|]. split; [exact Hit|].
    split; [intros j Hj; lia | exact Hb].
Qed.

(** With the fuel the loop is given it returns, and after a first round its
    centroids are [k]. *)
Lemma kmeansLoop_total data k r (fuel : nat) (s : Loop) p :
  (maxIterations <= fuel + l_iterations s)%nat ->
  l_previous s = [] \/ (length (l_centroids s) <= length (l_previous s))%nat ->
  (k <= length (l_centroids s))%nat ->
  exists s' p',
    kmeansLoop fuel data k s r p = Some (s', p') /\
    (loopCondition s = Some true \/ length (l_centroids s) = k ->
     length (l_centroids s') = k).
Proof.
  revert s p. induction fuel as [|fuel IH]; intros s p Hfuel Hprev Hk;
    cbn [kmeansLoop];
    destruct (centroidsConverged_total (l_centroids s) (l_previous s)
                convergenceThreshold Hprev) as [conv Hconv];
    assert (Hcond : loopCondition s =
              Some (negb conv && (l_iterations s <? maxIterations)%nat))
      by (unfold loopCondition; rewrite Hconv; reflexivity);
    unfold mbind at 1, M_bind at 1; rewrite Hcond; cbn [lift mret M_ret];
    destruct (negb conv && (l_iterations s <? maxIterations)%nat) eqn:E.
  - apply andb_prop in E as [_ E]. apply Nat.ltb_lt in E. lia.
  - exists s, p. split; [reflexivity|]. intros [H|H]; [congruence | exact H].
  - destruct (updateCentroids_total data (assignClusters data (l_centroids s)) k r p)
      as (cs & p1 & Hcs & Hlen).
    apply andb_prop in E as [_ E]. apply Nat.ltb_lt in E.
    set (s1 := {| l_centroids := cs; l_previous := l_centroids s;
                  l_iterations := S (l_iterations s) |}).
    destruct (IH s1 p1) as (s' & p' & H & Hfinal).
    { cbn. lia. }
    { right. cbn. lia. }
    { cbn. lia. }
    exists s', p'. split.
    + unfold mbind at 1, M_bind at 1, loopBody.
      unfold mbind at 1, M_bind at 1. rewrite Hcs. cbn [mret M_ret]. exact H.
    + intros _. apply Hfinal. right. exact Hlen.
  - exists s, p. split; [reflexivity|]. intros [H|H]; [congruence | exact H].
Qed.

Lemma forallb_imap_true {A} (f : nat -> A -> bool) (l : list A) :
  forallb id (imap f l) = true <->
  forall i x, l !! i = Some x -> f i x = true.
Proof.
  revert f. induction l as [|y l IH]; intros f; cbn [imap forallb].
  - split; [intros _ i x H; discriminate | reflexivity].
  - rewrite andb_true_iff, IH. unfold id at 1. split.
    + intros [H0 HS] [|i] x Hx; [by injection Hx as <- | by apply HS].
    + intros H. split; [by apply (H 0) | intros i x Hx; by apply (H (S i))].
Qed.

Lemma every_from_true (previous : list (list number)) (threshold : number)
    (current : list (list number)) (i : nat) :
  every_from
    (fun index centroid =>
       match centroid, previous !! index with
       | [], _ => Some true
       | _, None => None
       | _, Some prev =>
           Some (forallb id
                   (imap (fun dimIndex val =>
                            lt (Math_abs (sub val (idx prev dimIndex)))
                               threshold)
                         centroid))
       end)
    i current = Some true <->
  forall j centroid dimIndex val,
    current !! j = Some centroid -> centroid !! dimIndex = Some val ->
    exists prev, previous !! (i + j) = Some prev /\
      lt (Math_abs (sub val (idx prev dimIndex))) threshold = true.
Proof.
  revert i. induction current as [|c current IH]; intros i; cbn [every_from].
  - split; [intros _ j centroid dimIndex val H; discriminate | reflexivity].
  - destruct c as [|x c].
    + rewrite IH. split.
      * intros H [|j] centroid dimIndex val Hj Hd.
        -- injection Hj as <-. discriminate.
        -- rewrite <- Nat.add_succ_comm. by apply (H j centroid).
      * intros H j centroid dimIndex val Hj Hd.
        rewrite Nat.add_succ_comm. by apply (H (S j) centroid).
    + destruct (previous !! i) as [prev|] eqn:Ep.
      * destruct (forallb _ _) eqn:Ef.
        -- rewrite IH. pose proof (proj1 (forallb_imap_true _ _) Ef) as Ef'.
           split.
           ++ intros H [|j] centroid dimIndex val Hj Hd.
              ** injection Hj as <-. rewrite Nat.add_0_r. exists prev.
                 split; [exact Ep | by apply Ef'].
              ** rewrite <- Nat.add_succ_comm. by apply (H j centroid).
           ++ intros H j centroid dimIndex val Hj Hd.
              rewrite Nat.add_succ_comm. by apply (H (S j) centroid).
        -- split; [discriminate|]. intros H. exfalso.
           apply not_true_iff_false in Ef. apply Ef.
           apply (proj2 (forallb_imap_true _ _)).
           intros d v Hv. destruct (H 0 (x :: c) d v) as (prev' & Hp' & Hlt);
             [reflexivity | exact Hv |].
           rewrite Nat.add_0_r, Ep in Hp'. by injection Hp' as <-.
      * split; [discriminate|]. intros H. exfalso.
        destruct (H 0 (x :: c) 0 x) as (prev' & Hp' & _);
          [reflexivity | reflexivity |].
        rewrite Nat.add_0_r, Ep in Hp'. discriminate.
Qed.

(** [centroidsConverged] answers [true] exactly when there is a previous
    round and no coordinate has moved by the threshold or more. *)
Lemma centroidsConverged_true (current previous : list (list number))
    (threshold : number) :
  centroidsConverged current previous threshold = Some true <->
  previous <> [] /\ allWithin current previous threshold.
Proof.
  unfold centroidsConverged, allWithin. destruct previous as [|p0 previous].
  - split; [discriminate | intros [H _]; congruence].
  - rewrite every_from_true. split; [intros H; split; [done | exact H] | intros [_ H]; exact H].
Qed.

Lemma rounds_last data k r (n : nat) (s : Loop) p s' p' :
  rounds (S n) data k s r p = Some (s', p') ->
  exists sn pn,
    rounds n data k s r p = Some (sn, pn) /\
    loopBody data k sn r pn = Some (s', p').
Proof.
  revert s p. induction n as [|n IH]; intros s p H.
  - cbn [rounds] in H. apply bind_Some in H as (s1 & p1 & Hb & H).
    apply ret_Some in H as [<- <-]. exists s, p. split; [reflexivity | exact Hb].
  - change (rounds (S (S n)) data k s)
      with (loopBody data k s ≫= fun s1 => rounds (S n) data k s1) in H.
    apply bind_Some in H as (s1 & p1 & Hb & H).
    destruct (IH s1 p1 H) as (sn & pn & Hn & Hlast).
    exists sn, pn. split; [|exact Hlast].
    cbn [rounds]. apply bind_Some. eauto.
Qed.

Lemma runKMeansAlgorithm_inv data k r p run p' :
  runKMeansAlgorithm data k r p = Some (run, p') ->
  exists c0 p0 s,
    initializeCentroidsKMeansPlusPlus data k r p = Some (c0, p0) /\
    kmeansLoop maxIterations data k (enterLoop c0) r p0 = Some (s, p') /\
    run = {| KMeans.centroids := l_centroids s;
             KMeans.clusters := assignClusters data (l_centroids s);
             KMeans.iterations := l_iterations s |}.
Proof.
  unfold runKMeansAlgorithm. intros H.
  apply bind_Some in H as (c0 & p0 & Hinit & H).
  apply bind_Some in H as (s & p1 & Hloop & H).
  apply ret_Some in H as [<- <-]. exists c0, p0, s. auto.
Qed.

Lemma runKMeansAlgorithm_total (d : nat) data k r p :
  validSource r -> data <> [] -> Forall (finitePoint d) data ->
  exists run p',
    runKMeansAlgorithm data k r p = Some (run, p') /\
    length (KMeans.centroids run) = k /\
    KMeans.clusters run = assignClusters data (KMeans.centroids run).
Proof.
  intros Hr Hne Hdata.
  destruct (initializeCentroids_total d data k r p Hr Hne Hdata)
    as (c0 & p0 & Hinit & Hlen & _).
  destruct (kmeansLoop_total data k r maxIterations (enterLoop c0) p0)
    as (s & p' & Hloop & Hfinal);
    [cbn [enterLoop l_iterations]; lia | by left | exact Hlen |].
  eexists _, p'. split.
  - unfold runKMeansAlgorithm. apply bind_Some. exists c0, p0.
    split; [exact Hinit|]. apply bind_Some. exists s, p'.
    split; [exact Hloop | reflexivity].
  - cbn. split; [|reflexivity]. apply Hfinal. left. reflexivity.
Qed.

(** C5: a returning run of [runKMeansAlgorithm] has performed exactly
    [iterations] rounds of the loop body, at most 100; no round started from
    a state whose centroids had all moved by less than 0.0001 since the
    previous round, and a run of fewer than 100 rounds stops in such a
    state.  On finite data and draws in [[0, 1)] the run does return. *)
Theorem kmeans_iteration_bound data k r p :
  maxIterations = 100 /\ convergenceThreshold = Fin (1 # 10000) /\
  (forall run p', runKMeansAlgorithm data k r p = Some (run, p') ->
     exists c0 p0 s,
       initializeCentroidsKMeansPlusPlus data k r p = Some (c0, p0) /\
       rounds (KMeans.iterations run) data k (enterLoop c0) r p0 = Some (s, p') /\
       KMeans.centroids run = l_centroids s /\
       (KMeans.iterations run <= 100)%nat /\
       (forall j, (j < KMeans.iterations run)%nat ->
          exists sj pj,
            rounds j data k (enterLoop c0) r p0 = Some (sj, pj) /\
            ~ (l_previous sj <> [] /\
               allWithin (l_centroids sj) (l_previous sj) convergenceThreshold)) /\
       ((KMeans.iterations run < 100)%nat ->
          l_previous s <> [] /\
          allWithin (l_centroids s) (l_previous s) convergenceThreshold)) /\
  (forall n s0 p0 s1 p1, rounds (S n) data k s0 r p0 = Some (s1, p1) ->
     exists sn pn, rounds n data k s0 r p0 = Some (sn, pn) /\
                   l_previous s1 = l_centroids sn) /\
  (forall d, validSource r -> data <> [] -> Forall (finitePoint d) data ->
     exists run p', runKMeansAlgorithm data k r p = Some (run, p')).
Proof.
  split; [reflexivity|]. split; [reflexivity|]. split; [|split].
  - intros run p' H.
    apply runKMeansAlgorithm_inv in H as (c0 & p0 & s & Hinit & Hloop & ->).
    apply kmeansLoop_rounds in Hloop as (n & Hn & Hiter & Hmax & Hprev & Hstop);
      [|cbn [enterLoop l_iterations]; lia].
    cbn [enterLoop l_iterations Nat.add] in Hiter.
    cbn [KMeans.iterations KMeans.centroids]. rewrite Hiter.
    exists c0, p0, s. split; [exact Hinit|]. split; [exact Hn|].
    split; [reflexivity|]. split; [rewrite <- Hiter; exact Hmax|]. split.
    + intros j Hj. destruct (Hprev j Hj) as (sj & pj & Hsj & Hcj).
      exists sj, pj. split; [exact Hsj|]. intros Hall.
      apply centroidsConverged_true in Hall. unfold convergedAt in Hcj. congruence.
    + intros Hlt. apply centroidsConverged_true.
      destruct (loopCondition_false s Hstop) as [Hc|[_ Hge]]; [exact Hc|].
      unfold maxIterations in Hge. lia.
  - intros n s0 p0 s1 p1 H. apply rounds_last in H as (sn & pn & Hn & Hb).
    exists sn, pn. split; [exact Hn|]. by apply loopBody_iterations in Hb as [_ ?].
  - intros d Hr Hne Hdata.
    destruct (runKMeansAlgorithm_total d data k r p Hr Hne Hdata) as (run & p' & H & _).
    eauto.
Qed.

Lemma demoSource_valid : validSource demoSource.
Proof.
  intros n. unfold demoSource.
  pose proof (Nat.mod_upper_bound n 7 ltac:(lia)) as H.
  unfold Qle, Qlt. cbn. lia.
Qed.

Lemma kmeans_iteration_bound_witness :
  exists run p',
    runKMeansAlgorithm (normalizeData scenarioA) 2 demoSource 0 = Some (run, p').
Proof.
  destruct (kmeans_iteration_bound (normalizeData scenarioA) 2 demoSource 0)
    as (_ & _ & _ & _ & H).
  apply (H 3).
  - exact demoSource_valid.
  - discriminate.
  - repeat constructor.
Defined.

(** ** Determinism under a fixed random source *)

Lemma respects_ret {A} (a : A) : respects (mret a).
Proof. intros r1 r2 p _. reflexivity. Qed.

Lemma respects_throw {A} : respects (@throw A).
Proof. intros r1 r2 p _. reflexivity. Qed.

Lemma respects_lift {A} (o : option A) : respects (lift o).
Proof. destruct o; [apply respects_ret | apply respects_throw]. Qed.

Lemma respects_random : respects Math_random.
Proof. intros r1 r2 p H. unfold Math_random. by rewrite H. Qed.

Lemma respects_bind {A B} (m : M A) (f : A -> M B) :
  respects m -> (forall a, respects (f a)) -> respects (m ≫= f).
Proof.
  intros Hm Hf r1 r2 p H. unfold mbind, M_bind. rewrite (Hm r1 r2 p H).
  destruct (m r2 p) as [[a p1]|]; [by apply Hf | reflexivity].
Qed.

Lemma respects_mapM {A B} (f : A -> M B) (l : list A) :
  (forall x, respects (f x)) -> respects (mapM f l).
Proof.
  intros Hf. induction l as [|x l IH]; cbn [mapM]; [apply respects_ret|].
  apply respects_bind; [apply Hf | intros y].
  apply respects_bind; [exact IH | intros ys]. apply respects_ret.
Qed.

Lemma respects_seedCentroids data n centroids :
  respects (seedCentroids data n centroids).
Proof.
  revert centroids. induction n as [|n IH]; intros centroids;
    cbn [seedCentroids]; [apply respects_ret|].
  apply respects_bind; [apply respects_random | intros x].
  cbv zeta. destruct (pickWeighted _ _ _ _ _); apply IH.
Qed.

Lemma respects_initializeCentroids data k :
  respects (initializeCentroidsKMeansPlusPlus data k).
Proof.
  unfold initializeCentroidsKMeansPlusPlus.
  apply respects_bind; [apply respects_random | intros x].
  apply respects_bind; [apply respects_lift | intros first].
  apply respects_seedCentroids.
Qed.

Lemma respects_updateCentroids data clusters k :
  respects (updateCentroids data clusters k).
Proof.
  apply respects_mapM. intros i. unfold updateCentroid.
  destruct (inCluster clusters i data); [|apply respects_ret].
  repeat (apply respects_bind; [apply respects_random | intros ?]).
  apply respects_ret.
Qed.

Lemma respects_loopBody data k s : respects (loopBody data k s).
Proof.
  unfold loopBody.
  apply respects_bind; [apply respects_updateCentroids | intros cs].
  apply respects_ret.
Qed.

Lemma respects_kmeansLoop fuel data k s : respects (kmeansLoop fuel data k s).
Proof.
  revert s. induction fuel as [|fuel IH]; intros s; cbn [kmeansLoop];
    (apply respects_bind; [apply respects_lift | intros [|]]);
    try apply respects_ret; try apply respects_throw.
  apply respects_bind; [apply respects_loopBody | intros s']. apply IH.
Qed.

Lemma respects_runKMeansAlgorithm data k : respects (runKMeansAlgorithm data k).
Proof.
  unfold runKMeansAlgorithm.
  apply respects_bind; [apply respects_initializeCentroids | intros c0].
  apply respects_bind; [apply respects_kmeansLoop | intros s].
  apply respects_ret.
Qed.

(** C8: two runs of the clustering on the same vectors and the same [k], with
    random sources delivering the same draws, have the same outcome: the
    same centroids, assignments and iteration count (and the same number of
    draws consumed), or the same failure. *)
Theorem kmeans_deterministic (data : list (list number)) (k : nat)
    (r1 r2 : RandomSource) (p : nat) :
  (forall n, r1 n = r2 n) ->
  runKMeansAlgorithm data k r1 p = runKMeansAlgorithm data k r2 p /\
  forall run p', runKMeansAlgorithm data k r1 p = Some (run, p') ->
    exists run', runKMeansAlgorithm data k r2 p = Some (run', p') /\
      KMeans.centroids run' = KMeans.centroids run /\
      KMeans.clusters run' = KMeans.clusters run /\
      KMeans.iterations run' = KMeans.iterations run.
Proof.
  intros H. pose proof (respects_runKMeansAlgorithm data k r1 r2 p H) as E.
  split; [exact E|]. intros run p' Hrun. exists run. rewrite <- E. auto.
Qed.

(** ** The pipeline returns *)

Lemma scaled_fin xs x y : scaled xs x y -> is_fin y = true.
Proof. by intros (v & mn & mx & q & _ & -> & _). Qed.

Lemma normalizeData_finite (metrics : list RFMMetrics) :
  Forall (fun m => finiteMetric m = true) metrics ->
  Forall (finitePoint 3) (normalizeData metrics).
Proof.
  intros Hfin. unfold normalizeData.
  change (map ?f metrics) with (f <$> metrics).
  apply Forall_fmap, Forall_forall. intros m Hm. unfold compose.
  split; [reflexivity|].
  assert (Hall : forall x, finiteMetric x = true ->
            is_fin (recency x) = true /\ is_fin (frequency x) = true /\
            is_fin (monetary x) = true).
  { unfold finiteMetric. intros x Hx.
    apply andb_prop in Hx as [Hx ?]. by apply andb_prop in Hx as [? ?]. }
  repeat constructor.
  - apply (scaled_fin (recency <$> metrics) (recency m)), scaled_axis; [|exact Hm].
    eapply Forall_impl; [exact Hfin|]. intros x Hx. by apply Hall.
  - apply (scaled_fin (frequency <$> metrics) (frequency m)), scaled_axis; [|exact Hm].
    eapply Forall_impl; [exact Hfin|]. intros x Hx. by apply Hall.
  - apply (scaled_fin (monetary <$> metrics) (monetary m)), scaled_axis; [|exact Hm].
    eapply Forall_impl; [exact Hfin|]. intros x Hx. by apply Hall.
Qed.

(** The closest centroid is the current candidate or one of the indices
    scanned. *)
Lemma closestFrom_range point (centroids : list (list number)) index minDistance closest :
  closestFrom point index centroids minDistance closest = closest \/
  (index <= closestFrom point index centroids minDistance closest
         < index + length centroids)%nat.
Proof.
  revert index minDistance closest.
  induction centroids as [|c centroids IH]; intros index minDistance closest;
    cbn [closestFrom length]; [by left|].
  destruct (lt _ _).
  - right. destruct (IH (S index) (euclideanDistance point c) index) as [->|H]; lia.
  - destruct (IH (S index) minDistance closest) as [->|H]; [by left | right; lia].
Qed.

Lemma assignClusters_range data centroids :
  centroids <> [] ->
  Forall (fun c => (c < length centroids)%nat) (assignClusters data centroids).
Proof.
  intros Hne. unfold assignClusters.
  change (map ?f data) with (f <$> data).
  apply Forall_fmap, Forall_forall. intros point _. unfold compose.
  assert (0 < length centroids)%nat by (destruct centroids; [congruence | cbn; lia]).
  destruct (closestFrom_range point centroids 0 PosInf 0) as [->|?]; lia.
Qed.

Lemma wcssFrom_total centroids clusters (rest : list (list number)) index wcss :
  Forall (fun c => (c < length centroids)%nat) clusters ->
  (index + length rest <= length clusters)%nat ->
  is_Some (wcssFrom centroids clusters index wcss rest).
Proof.
  intros Hc. revert index wcss.
  induction rest as [|point rest IH]; intros index wcss Hlen; [by eexists|].
  cbn [wcssFrom length] in *.
  destruct (lookup_lt_is_Some_2 clusters index) as [c Hci]; [lia|].
  rewrite Hci. cbn [mbind option_bind].
  assert (Hlt : (c < length centroids)%nat).
  { rewrite Forall_forall in Hc. apply Hc, list_elem_of_lookup. eauto. }
  destruct (lookup_lt_is_Some_2 centroids c Hlt) as [centroid ->].
  cbn [mbind option_bind]. apply IH. lia.
Qed.

Lemma performKMeansClustering_total metrics k ds r p :
  Forall (fun m => finiteMetric m = true) metrics ->
  (1 <= k)%nat -> validSource r ->
  exists res p', performKMeansClustering metrics k ds r p = Some (res, p').
Proof.
  intros Hfin Hk Hr. unfold performKMeansClustering.
  destruct metrics as [|m metrics]; [by eexists _, _|]. cbn [length Nat.eqb].
  set (ms := m :: metrics) in *.
  destruct (runKMeansAlgorithm_total 3 (normalizeData ms) k r p)
    as (run & p' & Hrun & Hlen & Hclusters); [exact Hr |discriminate| |].
  { by apply normalizeData_finite. }
  destruct (wcssFrom_total (KMeans.centroids run) (KMeans.clusters run)
              (normalizeData ms) 0 (Fin 0)) as [w Hw].
  { rewrite Hclusters. apply assignClusters_range.
    destruct (KMeans.centroids run); [cbn in Hlen; lia | discriminate]. }
  { rewrite Hclusters. unfold assignClusters. rewrite length_map. lia. }
  eexists _, p'. apply bind_Some. exists run, p'. split; [exact Hrun|].
  apply bind_Some. exists w, p'. split; [|reflexivity].
  apply lift_Some. split; [exact Hw | reflexivity].
Qed.

Lemma mapM_total_on {A B} (P : A -> Prop) (f : A -> M B) (l : list A) r p :
  (forall x p, P x -> exists y p', f x r p = Some (y, p')) ->
  Forall P l ->
  exists ys p', mapM f l r p = Some (ys, p').
Proof.
  intros Hf Hl. revert p. induction Hl as [|x l Hx _ IH]; intros p.
  - by exists [], p.
  - cbn [mapM]. destruct (Hf x p Hx) as (y & p1 & Hy).
    destruct (IH p1) as (ys & p2 & Hys).
    exists (y :: ys), p2.
    unfold mbind at 1, M_bind at 1. rewrite Hy.
    unfold mbind at 1, M_bind at 1. rewrite Hys. reflexivity.
Qed.

Lemma findOptimalK_total metrics r p :
  Forall (fun m => finiteMetric m = true) metrics -> validSource r ->
  exists K p', findOptimalK metrics r p = Some (K, p').
Proof.
  intros Hfin Hr. unfold findOptimalK, sweepWCSS.
  destruct (mapM_total_on (fun k => 1 <= k)%nat
              (fun k =>
                 let dataStats := calculateDataStats metrics in
                 result ← performKMeansClustering metrics k (Some dataStats);
                 mret (wcss (evaluationMetrics result)))
              (candidateKs (length metrics)) r p) as (ws & p' & H).
  - intros k q Hk.
    destruct (performKMeansClustering_total metrics k
                (Some (calculateDataStats metrics)) r q Hfin Hk Hr)
      as (res & q' & Hres).
    eexists _, q'. cbv zeta. apply bind_Some. exists res, q'.
    split; [exact Hres | reflexivity].
  - apply Forall_forall. intros k Hk. apply elem_of_candidateKs in Hk. lia.
  - eexists _, p'. apply bind_Some. exists ws, p'. split; [exact H | reflexivity].
Qed.

Lemma elbow_min (wcssValues : list number) : (minK <= elbow wcssValues)%nat.
Proof.
  destruct (elbow_spec wcssValues) as [[-> _] | (i & _ & -> & _)]; lia.
Qed.

(** On finite metrics and draws in [[0, 1)] the whole analysis returns. *)
Lemma performEnhancedClustering_total metrics r p :
  Forall (fun m => finiteMetric m = true) metrics -> validSource r ->
  exists res p', performEnhancedClustering metrics r p = Some (res, p').
Proof.
  intros Hfin Hr. unfold performEnhancedClustering.
  destruct metrics as [|m metrics]; [by eexists _, _|]. cbn [length Nat.eqb].
  set (ms := m :: metrics) in *.
  destruct (findOptimalK_total ms r p Hfin Hr) as (K & p1 & HK).
  assert (HK1 : (1 <= K)%nat).
  { unfold findOptimalK in HK. apply bind_Some in HK as (ws & q & _ & HK).
    apply ret_Some in HK as [<- _]. pose proof (elbow_min ws). unfold minK in *. lia. }
  destruct (performKMeansClustering_total ms K (Some (calculateDataStats ms)) r p1
              Hfin HK1 Hr) as (res & p' & Hres).
  eexists _, p'. apply bind_Some. exists K, p1. split; [exact HK|].
  apply bind_Some. exists res, p'. split; [exact Hres | reflexivity].
Qed.

Lemma gt_below (x y m : number) :
  is_nan x = false -> gt x m = false -> gt y m = true -> gt y x = true.
Proof.
  unfold gt.
  destruct x as [| | |a], y as [| | |b], m as [| | |c]; cbn [lt is_nan];
    intros Hx H1 H2; try congruence.
  apply Qlt_b_false in H1. apply Qlt_b_iff in H2. apply Qlt_b_iff. lra.
Qed.

(** The elbow loop over the positions 1 to [n]: the pair it holds after
    them. *)
Lemma elbow_loop_inv (wcssValues : list number) (n : nat) :
  let rate := improvementRate wcssValues in
  let st := foldl (elbowStep wcssValues) (minK, Fin 0) (seq 1 n) in
  (st = (minK, Fin 0) /\
   forall j, (1 <= j <= n)%nat -> gt (rate j) (Fin 0) = false) \/
  (exists i, (1 <= i <= n)%nat /\ st = (minK + i, rate i) /\
     gt (rate i) (Fin 0) = true /\
     (forall j, (1 <= j <= n)%nat -> gt (rate j) (rate i) = false) /\
     (forall j, (1 <= j < i)%nat -> is_nan (rate j) = false ->
        gt (rate i) (rate j) = true)).
Proof.
  cbv zeta. set (rate := improvementRate wcssValues).
  induction n as [|n IH].
  - left. split; [reflexivity|]. intros j Hj. lia.
  - rewrite seq_S, foldl_app. cbn [foldl].
    destruct IH as [[-> Hnone] | (i0 & Hi0 & -> & Hpos & Hmax & Hfirst)];
      unfold elbowStep; cbn [snd]; fold rate.
    + destruct (gt (rate (1 + n)) (Fin 0)) eqn:E.
      * right. exists (1 + n). split; [lia|]. split; [reflexivity|].
        split; [exact E|]. split.
        -- intros j Hj. destruct (decide (j = 1 + n)) as [->|Hne];
             [apply lt_irrefl|].
           apply (gt_raise _ (Fin 0)); [exact E | apply Hnone; lia].
        -- intros j Hj Hnan.
           apply (gt_below _ _ (Fin 0)); [exact Hnan | apply Hnone; lia | exact E].
      * left. split; [reflexivity|]. intros j Hj.
        destruct (decide (j = 1 + n)) as [->|Hne]; [exact E | apply Hnone; lia].
    + destruct (gt (rate (1 + n)) (rate i0)) eqn:E.
      * right. exists (1 + n). split; [lia|]. split; [reflexivity|].
        split; [exact (lt_trans _ _ _ Hpos E)|]. split.
        -- intros j Hj. destruct (decide (j = 1 + n)) as [->|Hne];
             [apply lt_irrefl|].
           apply (gt_raise _ (rate i0)); [exact E | apply Hmax; lia].
        -- intros j Hj Hnan.
           apply (gt_below _ _ (rate i0));
             [exact Hnan | apply Hmax; lia | exact E].
      * right. exists i0. split; [lia|]. split; [reflexivity|].
        split; [exact Hpos|]. split; [|exact Hfirst].
        intros j Hj. destruct (decide (j = 1 + n)) as [->|Hne];
          [exact E | apply Hmax; lia].
Qed.

(** What the second loop of [findOptimalK] returns is the elbow of the
    recorded values. *)
Lemma elbow_isElbow (wcssValues : list number) :
  isElbow wcssValues (elbow wcssValues).
Proof.
  unfold isElbow, elbow, interior, interiorCandidate. cbv zeta.
  change (bendAt wcssValues) with (improvementRate wcssValues).
  destruct (elbow_loop_inv wcssValues (length wcssValues - 2))
    as [[-> Hnone] | (i & Hi & -> & Hpos & Hmax & Hfirst)]; cbn [fst].
  - left. split; [reflexivity|]. intros j Hj. apply Hnone. lia.
  - right. exists i. split; [lia|]. split; [reflexivity|].
    split; [exact Hpos|]. split.
    + intros j Hj. apply Hmax. lia.
    + intros j Hj Hlt. apply Hfirst. lia.
Qed.

(** C2: [findOptimalK] clusters once for each candidate K from 2 to
    [min(8, floor(customerCount / 2))] inclusive, in order, and records the
    WCSS of each.  It returns the elbow of the recorded values: 2 when no
    interior candidate (one with a recorded value before and after it) has
    [improvement - nextImprovement > 0]; otherwise the interior candidate
    [2 + i] whose [improvement - nextImprovement] is positive and exceeded
    at no interior position, the first such one.  For 6 customers the
    candidates are exactly 2 and 3.  On finite metrics and draws in
    [[0, 1)] it returns. *)
Theorem findOptimalK_spec (metrics : list RFMMetrics) (r : RandomSource) (p : nat) :
  candidateKs 6 = [2; 3] /\
  (forall k, k ∈ candidateKs (length metrics) <->
             (2 <= k <= Nat.min 8 (length metrics / 2))%nat) /\
  (forall K p', findOptimalK metrics r p = Some (K, p') ->
     exists wcssValues,
       sweepWCSS metrics (candidateKs (length metrics)) r p = Some (wcssValues, p') /\
       Forall2
         (fun k w =>
            exists pk pk' res,
              performKMeansClustering metrics k (Some (calculateDataStats metrics))
                                      r pk = Some (res, pk') /\
              w = wcss (evaluationMetrics res))
         (candidateKs (length metrics)) wcssValues /\
       isElbow wcssValues K /\
       (K = 2 \/
        ((2 < K < Nat.min 8 (length metrics / 2))%nat /\
         candidateKs (length metrics) !! (K - 2) = Some K))) /\
  (Forall (fun m => finiteMetric m = true) metrics -> validSource r ->
   exists K p', findOptimalK metrics r p = Some (K, p')).
Proof.
  split; [reflexivity|]. split; [apply elem_of_candidateKs|].
  split; [|apply findOptimalK_total].
  intros K p' H. unfold findOptimalK in H.
  apply bind_Some in H as (ws & p1 & Hsweep & H).
  apply ret_Some in H as [<- <-]. exists ws. split; [exact Hsweep|].
  assert (Hruns : Forall2
            (fun k w =>
               exists pk pk' res,
                 performKMeansClustering metrics k
                   (Some (calculateDataStats metrics)) r pk = Some (res, pk') /\
                 w = wcss (evaluationMetrics res))
            (candidateKs (length metrics)) ws).
  { apply mapM_inv in Hsweep. eapply Forall2_impl; [exact Hsweep|].
    intros k w (pk & pk' & Hk). cbv zeta in Hk.
    apply bind_Some in Hk as (res & q & Hres & Hk).
    apply ret_Some in Hk as [<- <-]. eauto. }
  split; [exact Hruns|].
  pose proof (elbow_isElbow ws) as Helbow. split; [exact Helbow|].
  apply Forall2_length in Hruns. unfold candidateKs in *.
  rewrite length_seq in Hruns. unfold minK, maxKOf in *.
  destruct Helbow as [[-> _] | (i & [Hi1 Hi2] & -> & _)]; [by left|right].
  split; [lia|]. rewrite lookup_seq_lt by lia. f_equal. lia.
Qed.

Lemma findOptimalK_spec_witness :
  exists wcssValues p',
    findOptimalK scenarioE demoSource 0 = Some (3, p') /\
    length wcssValues = 4 /\ isElbow wcssValues 3.
Proof.
  destruct (findOptimalK_spec scenarioE demoSource 0) as (_ & _ & H & _).
  destruct (H 3 14) as (ws & Hsweep & Hruns & Helbow & _);
    [vm_compute; reflexivity|].
  exists ws, 14. split; [vm_compute; reflexivity|]. split; [|exact Helbow].
  apply Forall2_length in Hruns. rewrite <- Hruns. reflexivity.
Defined.

(** ** Frame of the clustered metrics, on a returning run *)

(** C10: the clustered metrics returned by [performKMeansClustering] are the
    input metrics, one entry per metric and in the same order, with
    [user_id], [recency], [frequency], [monetary] and [rfm_score] unchanged;
    only [cluster_id] and [segment] are added.  On finite metrics, [k >= 1]
    and draws in [[0, 1)] the call does return. *)
Theorem clusteredMetrics_frame metrics k ds r p :
  (forall res p', performKMeansClustering metrics k ds r p = Some (res, p') ->
     length (clusteredMetrics res) = length metrics /\
     metricOf <$> clusteredMetrics res = metrics /\
     forall i m, metrics !! i = Some m ->
       exists c, clusteredMetrics res !! i = Some c /\
         Clustered.user_id c = user_id m /\
         Clustered.recency c = recency m /\
         Clustered.frequency c = frequency m /\
         Clustered.monetary c = monetary m /\
         Clustered.rfm_score c = rfm_score m) /\
  (Forall (fun m => finiteMetric m = true) metrics -> (1 <= k)%nat ->
   validSource r ->
   exists res p', performKMeansClustering metrics k ds r p = Some (res, p')).
Proof.
  split; [|apply performKMeansClustering_total].
  intros res p' H.
  assert (Hframe : metricOf <$> clusteredMetrics res = metrics).
  { destruct metrics as [|m0 metrics].
    - cbn in H. apply ret_Some in H as [<- _]. reflexivity.
    - apply performKMeansClustering_inv in H as (run & w & _ & _ & ->); [|done].
      apply createClusteredMetrics_frame. }
  split; [|split; [exact Hframe|]].
  - rewrite <- (length_fmap metricOf). by rewrite Hframe.
  - intros i m Hm. rewrite <- Hframe in Hm.
    rewrite list_lookup_fmap in Hm.
    destruct (clusteredMetrics res !! i) as [c|]; [|discriminate].
    injection Hm as <-. exists c. by repeat split.
Qed.

Lemma clusteredMetrics_frame_witness :
  exists res p',
    performKMeansClustering scenarioA 2 None demoSource 0 = Some (res, p') /\
    length (clusteredMetrics res) = 4 /\
    metricOf <$> clusteredMetrics res = scenarioA.
Proof.
  destruct (clusteredMetrics_frame scenarioA 2 None demoSource 0) as [Hf Ht].
  destruct Ht as (res & p' & H);
    [repeat constructor | lia | exact demoSource_valid |].
  exists res, p'. split; [exact H|].
  destruct (Hf res p' H) as (Hlen & Hmap & _). auto.
Defined.

Lemma demoSource_shift (n : nat) :
  demoSource n = (fun m => demoSource (m + 7)) n.
Proof.
  unfold demoSource. cbn beta.
  replace ((n + 7) mod 7) with (n mod 7); [reflexivity|].
  symmetry. apply (Nat.Div0.mod_add n 1 7).
Qed.

Lemma kmeans_deterministic_witness :
  runKMeansAlgorithm (normalizeData scenarioA) 2 demoSource 0 =
  runKMeansAlgorithm (normalizeData scenarioA) 2 (fun m => demoSource (m + 7)) 0.
Proof.
  apply (kmeans_deterministic (normalizeData scenarioA) 2 demoSource
           (fun m => demoSource (m + 7)) 0).
  exact demoSource_shift.
Defined.

(** ** Seeding, centroid update and shape of a run *)

Lemma pickWeighted_elem (distances : list number) (randomValue : number)
    (data : list (list number)) (j : nat) (cum : number) (point : list number) :
  pickWeighted distances randomValue cum j data = Some point -> point ∈ data.
Proof.
  revert j cum. induction data as [|x data IH]; intros j cum; cbn [pickWeighted];
    [discriminate|].
  destruct (ge _ _).
  - intros [= ->]. by left.
  - intros H. right. by apply IH in H.
Qed.

(** The seeding loop never throws: it makes one draw a round and adds at
    most one point of the data a round. *)
Lemma seedCentroids_account (data : list (list number)) (r : RandomSource)
    (n : nat) (centroids : list (list number)) (p : nat) :
  Forall (fun c => c ∈ data) centroids ->
  exists cs,
    seedCentroids data n centroids r p = Some (cs, p + n) /\
    (length centroids <= length cs <= length centroids + n)%nat /\
    Forall (fun c => c ∈ data) cs.
Proof.
  revert centroids p. induction n as [|n IH]; intros centroids p Hcs.
  - exists centroids. rewrite Nat.add_0_r. split; [reflexivity|]. split; [lia|exact Hcs].
  - cbn [seedCentroids]. unfold mbind, M_bind, Math_random. cbv zeta.
    destruct (pickWeighted _ _ _ _ _) as [point|] eqn:E.
    + apply pickWeighted_elem in E.
      destruct (IH (centroids ++ [point]) (S p)) as (cs & H & Hlen & Hall).
      { apply Forall_app. split; [exact Hcs | by constructor]. }
      exists cs. replace (p + S n) with (S p + n) by lia.
      split; [exact H|]. split; [|exact Hall].
      rewrite length_app in Hlen. cbn in Hlen. lia.
    + destruct (IH centroids (S p) Hcs) as (cs & H & Hlen & Hall).
      exists cs. replace (p + S n) with (S p + n) by lia.
      split; [exact H|]. split; [lia | exact Hall].
Qed.

(** X1: k-means++ seeding throws on an empty data set; when it returns it
    has made exactly [max(1, k)] draws and chosen between 1 and [max(1, k)]
    centroids, each a point of the data; on finite points and draws in
    [[0, 1)] it returns exactly [max(1, k)] centroids. *)
Theorem seeding_spec (data : list (list number)) (k : nat) (r : RandomSource)
    (p : nat) :
  initializeCentroidsKMeansPlusPlus [] k r p = None /\
  (forall cs p',
     initializeCentroidsKMeansPlusPlus data k r p = Some (cs, p') ->
     p' = p + Nat.max 1 k /\
     (1 <= length cs <= Nat.max 1 k)%nat /\
     Forall (fun c => c ∈ data) cs) /\
  (forall d, validSource r -> data <> [] -> Forall (finitePoint d) data ->
     exists cs p',
       initializeCentroidsKMeansPlusPlus data k r p = Some (cs, p') /\
       length cs = Nat.max 1 k).
Proof.
  split; [|split].
  - unfold initializeCentroidsKMeansPlusPlus, mbind at 1, M_bind at 1, Math_random.
    cbn [length of_nat mul]. unfold fin.
    assert (Hz : Qred (r p * inject_Z (Z.of_nat 0)) = 0%Q).
    { apply (Qred_complete _ 0). cbn. ring. }
    rewrite Hz. reflexivity.
  - intros cs p' H. unfold initializeCentroidsKMeansPlusPlus in H.
    apply bind_Some in H as (x & p1 & Hx & H).
    unfold Math_random in Hx. injection Hx as <- <-.
    apply bind_Some in H as (first & p2 & Hfirst & H).
    apply lift_Some in Hfirst as [Hfirst <-].
    destruct (to_index _) as [i|]; [|discriminate]. cbn in Hfirst.
    destruct (seedCentroids_account data r (k - 1) [first] (S p)) as (cs' & H' & Hlen & Hall).
    { constructor; [|constructor]. apply list_elem_of_lookup. eauto. }
    rewrite H' in H. injection H as <- <-. cbn [length] in Hlen.
    split; [lia|]. split; [lia | exact Hall].
  - intros d Hr Hne Hdata.
    unfold initializeCentroidsKMeansPlusPlus.
    unfold mbind at 1, M_bind at 1, Math_random at 1.
    destruct (first_index (r p) (length data)) as (i & Hi & Hlt); [apply Hr | |].
    { destruct data; [congruence | cbn; lia]. }
    destruct (lookup_lt_is_Some_2 data i Hlt) as [first Hfirst].
    unfold mbind at 1, M_bind at 1. rewrite Hi. cbn [mbind option_bind].
    rewrite Hfirst. cbn [lift mret M_ret].
    destruct (seedCentroids_total d data r (k - 1) [first] (S p))
      as (cs & p' & H & Hlen & Hall); [exact Hr | exact Hne | exact Hdata | done | |].
    { constructor; [|constructor]. apply list_elem_of_lookup. eauto. }
    exists cs, p'. split; [exact H|]. cbn in Hlen. lia.
Qed.

Lemma seeding_spec_witness :
  exists cs p',
    initializeCentroidsKMeansPlusPlus (normalizeData scenarioA) 3 demoSource 0
      = Some (cs, p') /\ length cs = 3.
Proof.
  destruct (seeding_spec (normalizeData scenarioA) 3 demoSource 0) as (_ & _ & H).
  apply (H 3); [exact demoSource_valid | discriminate | repeat constructor].
Defined.

Lemma mapM_account {A B} (f : A -> M B) (cost : A -> nat) (l : list A) r p :
  (forall x p, exists y, f x r p = Some (y, p + cost x)) ->
  exists ys, mapM f l r p = Some (ys, p + sum_list (cost <$> l)) /\
             length ys = length l.
Proof.
  intros Hf. revert p. induction l as [|x l IH]; intros p.
  - exists []. cbn. rewrite Nat.add_0_r. done.
  - destruct (Hf x p) as [y Hy].
    destruct (IH (p + cost x)) as (ys & Hys & Hlen).
    exists (y :: ys). split; [|cbn; by rewrite Hlen].
    cbn [mapM fmap list_fmap sum_list sum_list_with].
    unfold mbind at 1, M_bind at 1. rewrite Hy.
    unfold mbind at 1, M_bind at 1. rewrite Hys.
    unfold mret, M_ret. cbn [id]. do 2 f_equal. lia.
Qed.

Lemma updateCentroid_account data clusters i r p :
  exists c,
    updateCentroid data clusters i r p
      = Some (c, p + (if decide (length (inCluster clusters i data) = 0)
                      then 3 else 0)).
Proof.
  unfold updateCentroid. cbv zeta.
  destruct (inCluster clusters i data) as [|first rest]; cbn [length].
  - rewrite decide_True by done. eexists. cbn.
    unfold mbind, M_bind, Math_random, mret, M_ret.
    do 3 f_equal. lia.
  - rewrite decide_False by done. eexists. cbn. rewrite Nat.add_0_r. reflexivity.
Qed.

Lemma sum_list_filter (P : nat -> Prop) `{!forall i, Decision (P i)} (c : nat)
    (l : list nat) :
  sum_list ((fun i => if decide (P i) then c else 0) <$> l)
    = c * length (filter P l).
Proof.
  induction l as [|x l IH]; [cbn; lia|].
  cbn [fmap list_fmap sum_list sum_list_with]. rewrite filter_cons.
  change (sum_list_with id ?l) with (sum_list l). cbn [id].
  change (list_fmap _ _ ?f l) with (f <$> l). rewrite IH.
  destruct (decide (P x)); cbn [length]; lia.
Qed.

(** X2: the centroid update never throws; it returns exactly [k] centroids
    and makes three draws for each cluster without a point, and no other. *)
Theorem updateCentroids_spec (data : list (list number)) (clusters : list nat)
    (k : nat) (r : RandomSource) (p : nat) :
  exists cs,
    updateCentroids data clusters k r p
      = Some (cs, p + 3 * length (emptyClusters clusters k data)) /\
    length cs = k.
Proof.
  unfold updateCentroids, emptyClusters.
  destruct (mapM_account (updateCentroid data clusters)
              (fun i => if decide (length (inCluster clusters i data) = 0)
                        then 3 else 0)
              (seq 0 k) r p) as (cs & H & Hlen).
  { intros x q. apply updateCentroid_account. }
  exists cs. rewrite length_seq in Hlen. split; [|exact Hlen].
  rewrite H. do 3 f_equal.
  apply (sum_list_filter (fun i => length (inCluster clusters i data) = 0)).
Qed.

Lemma inUnit_fin (x : number) : inUnit x -> is_fin x = true.
Proof. by destruct x. Qed.

Lemma unitPoint_finite (d : nat) (point : list number) :
  unitPoint d point -> finitePoint d point.
Proof.
  intros [Hlen Hall]. split; [exact Hlen|].
  eapply Forall_impl; [exact Hall|]. apply inUnit_fin.
Qed.

(** A sum of [n] numbers of the unit interval lies between 0 and [n]. *)
Lemma foldl_add_unit {A} (f : A -> number) (l : list A) (c : Q) :
  Forall (fun x => inUnit (f x)) l ->
  exists t, foldl (fun sum x => add sum (f x)) (Fin c) l = Fin t /\
            (c <= t <= c + inject_Z (Z.of_nat (length l)))%Q.
Proof.
  revert c. induction l as [|x l IH]; intros c Hall.
  - exists c. split; [reflexivity|].
    change (inject_Z (Z.of_nat (@length A []))) with 0%Q. lra.
  - apply Forall_cons in Hall as [Hx Hall]. cbn [foldl].
    destruct (f x) as [| | |q]; try done. cbn [add]. unfold fin.
    destruct (IH (Qred (c + q)) Hall) as (t & Ht & Hb).
    exists t. split; [exact Ht|].
    rewrite Qred_correct in Hb. cbn [length]. rewrite Nat2Z.inj_succ.
    unfold Z.succ. rewrite inject_Z_plus. cbn in Hx. change (inject_Z 1) with 1%Q.
    lra.
Qed.

(** The mean of a non-empty list of numbers of the unit interval is one. *)
Lemma mean_unit {A} (f : A -> number) (l : list A) :
  l <> [] -> Forall (fun x => inUnit (f x)) l ->
  inUnit (div (sum_by f l) (of_nat (length l))).
Proof.
  intros Hne Hall. unfold sum_by.
  destruct (foldl_add_unit f l 0 Hall) as (t & -> & Hb).
  unfold of_nat, div.
  assert (Hpos : (0 < inject_Z (Z.of_nat (length l)))%Q).
  { change 0%Q with (inject_Z 0). rewrite <- Zlt_Qlt.
    destruct l; [congruence | cbn [length]; lia]. }
  destruct (Qzero_b _) eqn:E.
  { apply Qzero_b_iff in E. lra. }
  unfold fin, inUnit. rewrite Qred_correct.
  set (n := inject_Z (Z.of_nat (length l))) in *.
  split.
  - apply Qle_shift_div_l; [exact Hpos | lra].
  - apply Qle_shift_div_r; [exact Hpos | lra].
Qed.

Lemma inCluster_elem {A} (clusters : list nat) (i : nat) (data : list A) x :
  x ∈ inCluster clusters i data -> x ∈ data.
Proof.
  unfold inCluster, filteri. generalize 0.
  induction data as [|y data IH]; intros n; cbn [filter_from]; [done|].
  destruct (bool_decide _).
  - intros [->|H]%elem_of_cons; [by left | right; eauto].
  - intros H. right. eauto.
Qed.

Lemma updateCentroid_unit data clusters i r p c p' :
  validSource r -> Forall (unitPoint 3) data ->
  updateCentroid data clusters i r p = Some (c, p') ->
  unitPoint 3 c.
Proof.
  intros Hr Hdata. unfold updateCentroid. cbv zeta.
  destruct (inCluster clusters i data) as [|first rest] eqn:E.
  - cbn. unfold mbind, M_bind, Math_random, mret, M_ret. intros [= <- <-].
    split; [reflexivity|]. repeat constructor; cbn; apply Hr || apply Qlt_le_weak, Hr.
  - unfold mret, M_ret. intros [= <- <-].
    assert (Hin : Forall (unitPoint 3) (first :: rest)).
    { apply Forall_forall. intros x Hx. rewrite <- E in Hx.
      apply inCluster_elem in Hx. by eapply Forall_forall in Hdata. }
    pose proof (Forall_inv Hin) as [Hlen _].
    split; [by rewrite length_imap|].
    apply Forall_forall. intros y Hy.
    apply list_elem_of_lookup in Hy as [j Hj].
    rewrite list_lookup_imap in Hj.
    destruct (first !! j) as [v|] eqn:Ev; [|discriminate].
    cbv [fmap option_fmap option_map] in Hj. injection Hj as <-.
    apply (mean_unit (fun point => idx point j) (first :: rest)); [done|].
    eapply Forall_impl; [exact Hin|].
    intros point [Hl Hall]. cbn beta.
    apply lookup_lt_Some in Ev. rewrite Hlen in Ev.
    destruct (lookup_lt_is_Some_2 point j) as [w Hw]; [lia|].
    unfold idx. rewrite Hw. cbn.
    by eapply Forall_lookup_1 in Hall.
Qed.

Lemma updateCentroids_unit data clusters k r p cs p' :
  validSource r -> Forall (unitPoint 3) data ->
  updateCentroids data clusters k r p = Some (cs, p') ->
  length cs = k /\ Forall (unitPoint 3) cs.
Proof.
  intros Hr Hdata H. unfold updateCentroids in H. apply mapM_inv in H.
  split.
  - apply Forall2_length in H. by rewrite length_seq in H.
  - induction H as [|x y l l' (p1 & p2 & Hxy) _ IH]; constructor; [|exact IH].
    exact (updateCentroid_unit data clusters x r p1 y p2 Hr Hdata Hxy).
Qed.

Lemma updateCentroids_length data clusters k r p cs p' :
  updateCentroids data clusters k r p = Some (cs, p') -> length cs = k.
Proof.
  intros H. unfold updateCentroids in H. apply mapM_inv in H.
  apply Forall2_length in H. by rewrite length_seq in H.
Qed.

(** The loop of a returning run makes at least one round: its last state
    comes out of the loop body. *)
Lemma kmeansLoop_last data k r c0 p0 s p' :
  kmeansLoop maxIterations data k (enterLoop c0) r p0 = Some (s, p') ->
  (1 <= l_iterations s <= maxIterations)%nat /\
  exists sn pn, loopBody data k sn r pn = Some (s, p').
Proof.
  intros H. apply kmeansLoop_rounds in H as (n & Hn & Hit & Hmax & _ & Hcond);
    [|cbn; lia].
  destruct n as [|n].
  - cbn in Hn. injection Hn as <- <-. discriminate Hcond.
  - apply rounds_last in Hn as (sn & pn & _ & Hbody).
    split; [cbn in Hit; lia | eauto].
Qed.

Lemma loopBody_inv data k sn r pn s p' :
  loopBody data k sn r pn = Some (s, p') ->
  updateCentroids data (assignClusters data (l_centroids sn)) k r pn
    = Some (l_centroids s, p').
Proof.
  unfold loopBody. cbv zeta. intros H.
  apply bind_Some in H as (cs & p1 & Hcs & H).
  apply ret_Some in H as [<- <-]. exact Hcs.
Qed.

Lemma updateCentroids_spec_aux data clusters k r p :
  exists cs, updateCentroids data clusters k r p
               = Some (cs, p + 3 * length (emptyClusters clusters k data)) /\
             (length (emptyClusters clusters k data) <= k)%nat.
Proof.
  unfold updateCentroids, emptyClusters.
  destruct (mapM_account (updateCentroid data clusters)
              (fun i => if decide (length (inCluster clusters i data) = 0)
                        then 3 else 0)
              (seq 0 k) r p) as (cs & H & Hlen).
  { intros x q. apply updateCentroid_account. }
  exists cs. split.
  - rewrite H. do 3 f_equal.
    apply (sum_list_filter (fun i => length (inCluster clusters i data) = 0)).
  - etrans; [apply length_filter|]. by rewrite length_seq.
Qed.

Lemma runKMeansAlgorithm_shape data k r p run p' :
  runKMeansAlgorithm data k r p = Some (run, p') ->
  (1 <= KMeans.iterations run <= maxIterations)%nat /\
  length (KMeans.centroids run) = k /\
  KMeans.clusters run = assignClusters data (KMeans.centroids run).
Proof.
  intros H. apply runKMeansAlgorithm_inv in H as (c0 & p0 & s & _ & Hloop & ->).
  cbn [KMeans.iterations KMeans.centroids KMeans.clusters].
  apply kmeansLoop_last in Hloop as (Hit & sn & pn & Hbody).
  split; [exact Hit|]. split; [|reflexivity].
  apply loopBody_inv in Hbody. by apply updateCentroids_length in Hbody.
Qed.

(** Each round of the loop makes between 0 and [3 * k] draws. *)
Lemma rounds_draws data k r (n : nat) (s : Loop) p s' p' :
  rounds n data k s r p = Some (s', p') -> (p <= p' <= p + 3 * k * n)%nat.
Proof.
  revert s p. induction n as [|n IH]; intros s p H.
  - cbn in H. injection H as <- <-. lia.
  - cbn [rounds] in H. apply bind_Some in H as (s1 & p1 & Hbody & H).
    apply IH in H. apply loopBody_inv in Hbody.
    destruct (updateCentroids_spec_aux data (assignClusters data (l_centroids s)) k r p)
      as (cs & Hcs & Hle).
    rewrite Hcs in Hbody. injection Hbody as _ <-. nia.
Qed.

(** X3: a run of the algorithm that returns has made between 1 and 100
    rounds; it returns exactly [k] centroids and one cluster index for each
    point, the index of a centroid when [k >= 1]; it has made at least
    [max(1, k)] draws and at most [3 * k] more for each round. *)
Theorem run_shape (data : list (list number)) (k : nat) (r : RandomSource)
    (p : nat) (run : KMeans.Run) (p' : nat) :
  runKMeansAlgorithm data k r p = Some (run, p') ->
  (1 <= KMeans.iterations run <= 100)%nat /\
  length (KMeans.centroids run) = k /\
  length (KMeans.clusters run) = length data /\
  ((1 <= k)%nat -> Forall (fun c => (c < k)%nat) (KMeans.clusters run)) /\
  (p + Nat.max 1 k <= p' <= p + Nat.max 1 k + 3 * k * KMeans.iterations run)%nat.
Proof.
  intros H. pose proof (runKMeansAlgorithm_shape _ _ _ _ _ _ H) as (Hit & Hlen & Hcl).
  split; [exact Hit|]. split; [exact Hlen|].
  split; [rewrite Hcl; unfold assignClusters; by rewrite length_map|].
  split.
  - intros Hk. rewrite Hcl, <- Hlen. apply assignClusters_range.
    destruct (KMeans.centroids run); [cbn in Hlen; lia | done].
  - apply runKMeansAlgorithm_inv in H as (c0 & p0 & s & Hinit & Hloop & ->).
    cbn [KMeans.iterations].
    unfold initializeCentroidsKMeansPlusPlus in Hinit.
    apply bind_Some in Hinit as (x & p1 & Hx & Hinit).
    unfold Math_random in Hx. injection Hx as <- <-.
    apply bind_Some in Hinit as (first & p2 & Hfirst & Hinit).
    apply lift_Some in Hfirst as [Hfirst <-].
    destruct (seedCentroids_account data r (k - 1) [first] (S p))
      as (cs' & H' & _).
    { destruct (to_index _) as [i|]; [|discriminate]. cbn in Hfirst.
      constructor; [|constructor]. apply list_elem_of_lookup. eauto. }
    rewrite H' in Hinit. injection Hinit as <- <-.
    apply kmeansLoop_rounds in Hloop as (n & Hn & Hitn & _); [|cbn; lia].
    cbn in Hitn. rewrite Hitn. apply rounds_draws in Hn. lia.
Qed.

Lemma run_shape_witness :
  exists run p',
    runKMeansAlgorithm (normalizeData scenarioA) 2 demoSource 0 = Some (run, p') /\
    length (KMeans.clusters run) = 4.
Proof.
  destruct (runKMeansAlgorithm (normalizeData scenarioA) 2 demoSource 0)
    as [[run p']|] eqn:E; [|vm_compute in E; discriminate].
  exists run, p'. split; [reflexivity|].
  destruct (run_shape _ _ _ _ _ _ E) as (_ & _ & Hlen & _). exact Hlen.
Defined.

Lemma scaled_unit xs x y : scaled xs x y -> inUnit y.
Proof. by intros (v & mn & mx & q & _ & -> & _ & Hq & _). Qed.

Lemma finiteMetric_axes (x : RFMMetrics) :
  finiteMetric x = true ->
  is_fin (recency x) = true /\ is_fin (frequency x) = true /\
  is_fin (monetary x) = true.
Proof.
  unfold finiteMetric. intros Hx.
  apply andb_prop in Hx as [Hx ?]. by apply andb_prop in Hx as [? ?].
Qed.

Lemma normalizeData_unit (metrics : list RFMMetrics) :
  Forall (fun m => finiteMetric m = true) metrics ->
  Forall (unitPoint 3) (normalizeData metrics).
Proof.
  intros Hfin. unfold normalizeData.
  change (map ?f metrics) with (f <$> metrics).
  apply Forall_fmap, Forall_forall. intros m Hm. unfold compose.
  split; [reflexivity|].
  repeat constructor.
  - apply (scaled_unit (recency <$> metrics) (recency m)), scaled_axis; [|exact Hm].
    eapply Forall_impl; [exact Hfin|]. intros x Hx. by apply finiteMetric_axes.
  - apply (scaled_unit (frequency <$> metrics) (frequency m)), scaled_axis; [|exact Hm].
    eapply Forall_impl; [exact Hfin|]. intros x Hx. by apply finiteMetric_axes.
  - apply (scaled_unit (monetary <$> metrics) (monetary m)), scaled_axis; [|exact Hm].
    eapply Forall_impl; [exact Hfin|]. intros x Hx. by apply finiteMetric_axes.
Qed.

Lemma run_centroids_unit data k r p run p' :
  validSource r -> Forall (unitPoint 3) data ->
  runKMeansAlgorithm data k r p = Some (run, p') ->
  Forall (unitPoint 3) (KMeans.centroids run).
Proof.
  intros Hr Hdata H.
  apply runKMeansAlgorithm_inv in H as (c0 & p0 & s & _ & Hloop & ->).
  cbn [KMeans.centroids].
  apply kmeansLoop_last in Hloop as (_ & sn & pn & Hbody).
  apply loopBody_inv in Hbody.
  by apply updateCentroids_unit in Hbody as [_ ?].
Qed.

(** X4: on a population of finite metrics and draws in [[0, 1)], every
    centroid a run returns has three coordinates, each in [[0, 1]]: the
    centroids stay in the cube of the normalised data, also those drawn for
    a cluster without a point. *)
Theorem centroids_in_unit_cube (metrics : list RFMMetrics) (k : nat)
    (r : RandomSource) (p : nat) (run : KMeans.Run) (p' : nat) :
  Forall (fun m => finiteMetric m = true) metrics ->
  validSource r ->
  runKMeansAlgorithm (normalizeData metrics) k r p = Some (run, p') ->
  Forall (unitPoint 3) (KMeans.centroids run).
Proof.
  intros Hfin Hr H.
  eapply run_centroids_unit; [exact Hr | | exact H].
  by apply normalizeData_unit.
Qed.

Lemma centroids_in_unit_cube_witness :
  exists run p',
    runKMeansAlgorithm (normalizeData scenarioA) 2 demoSource 0 = Some (run, p') /\
    Forall (unitPoint 3) (KMeans.centroids run).
Proof.
  destruct (runKMeansAlgorithm (normalizeData scenarioA) 2 demoSource 0)
    as [[run p']|] eqn:E; [|vm_compute in E; discriminate].
  exists run, p'. split; [reflexivity|].
  apply (centroids_in_unit_cube scenarioA 2 demoSource 0 run p');
    [repeat constructor | exact demoSource_valid | exact E].
Defined.

Lemma mul_self_nonneg (x : number) : is_fin x = true -> nonneg (mul x x).
Proof.
  destruct x as [| | |q]; try done. intros _. cbn. rewrite Qred_correct.
  apply Qsquare_nonneg.
Qed.

Lemma add_nonneg (x y : number) : nonneg x -> nonneg y -> nonneg (add x y).
Proof.
  destruct x as [| | |a], y as [| | |b]; try done. cbn. intros Ha Hb.
  rewrite Qred_correct. lra.
Qed.

Lemma wcssFrom_nonneg (d : nat) centroids clusters (data : list (list number))
    index wcss w :
  Forall (finitePoint d) data -> Forall (finitePoint d) centroids ->
  nonneg wcss ->
  wcssFrom centroids clusters index wcss data = Some w -> nonneg w.
Proof.
  intros Hdata Hcs. revert index wcss.
  induction Hdata as [|point rest [Hlen Hpoint] Hrest IH]; intros index wcss Hw H.
  - cbn in H. by injection H as <-.
  - cbn [wcssFrom] in H.
    destruct (clusters !! index ≫= fun c => centroids !! c) as [centroid|] eqn:E.
    + cbn [mbind option_bind] in H. apply IH in H; [exact H|].
      apply add_nonneg; [exact Hw|]. apply mul_self_nonneg.
      assert (Hc : finitePoint d centroid).
      { destruct (clusters !! index) as [c|]; [|discriminate]. cbn in E.
        eapply Forall_lookup_1 in E; eauto. }
      destruct Hc as [Hlc Hc]. apply euclideanDistance_fin; [done..|lia].
    + destruct point; [|discriminate]. cbn [mbind option_bind] in H.
      apply IH in H; [exact H|]. apply add_nonneg; [exact Hw|].
      by apply mul_self_nonneg.
Qed.

Lemma normalizeData_length (metrics : list RFMMetrics) :
  length (normalizeData metrics) = length metrics.
Proof. unfold normalizeData. by rewrite length_map. Qed.

(** X5: on finite metrics and draws in [[0, 1)], a result of the pipeline
    carries a within-cluster sum of squares that is a finite number and not
    negative, a number of rounds between 1 and 100 for a population that is
    not empty, exactly [k] centers, and [k] as its [optimalK]. *)
Theorem evaluation_metrics_sound (metrics : list RFMMetrics) (k : nat)
    (ds : option DataStats) (r : RandomSource) (p : nat)
    (res : ClusteringResult) (p' : nat) :
  Forall (fun m => finiteMetric m = true) metrics ->
  validSource r ->
  performKMeansClustering metrics k ds r p = Some (res, p') ->
  nonneg (wcss (evaluationMetrics res)) /\
  optimalK res = k /\
  (metrics <> [] ->
     (1 <= iterations (evaluationMetrics res) <= 100)%nat /\
     length (centers res) = k).
Proof.
  intros Hfin Hr H.
  destruct metrics as [|m metrics'] eqn:Em.
  { cbn in H. injection H as <- <-. cbn. split; [lra|]. split; [reflexivity|done]. }
  rewrite <- Em in *. assert (Hne : metrics <> []) by (rewrite Em; done).
  apply performKMeansClustering_inv in H as (run & w & Hrun & Hw & ->); [|exact Hne].
  cbn [evaluationMetrics wcss optimalK iterations centers].
  pose proof (runKMeansAlgorithm_shape _ _ _ _ _ _ Hrun) as (Hit & Hlen & _).
  split; [|split; [reflexivity|]].
  - unfold calculateWCSS in Hw.
    refine (wcssFrom_nonneg 3 _ _ _ _ (Fin 0) w _ _ (Qle_refl 0) Hw).
    + by apply normalizeData_finite.
    + eapply Forall_impl; [|apply unitPoint_finite].
      exact (run_centroids_unit _ _ _ _ _ _ Hr (normalizeData_unit _ Hfin) Hrun).
  - intros _. split; [exact Hit|].
    rewrite ranked_length. unfold calculateClusterStatistics.
    by rewrite length_map, length_seq.
Qed.

Lemma evaluation_metrics_sound_witness :
  exists res p',
    performKMeansClustering scenarioA 2 None demoSource 0 = Some (res, p') /\
    nonneg (wcss (evaluationMetrics res)) /\ length (centers res) = 2.
Proof.
  destruct (performKMeansClustering scenarioA 2 None demoSource 0)
    as [[res p']|] eqn:E; [|vm_compute in E; discriminate].
  exists res, p'. split; [reflexivity|].
  destruct (evaluation_metrics_sound scenarioA 2 None demoSource 0 res p')
    as (Hw & _ & Hc); [repeat constructor | exact demoSource_valid | exact E |].
  split; [exact Hw|]. by apply Hc.
Defined.

Lemma pipeline_clusters_positive (metrics : list RFMMetrics) (k : nat)
    (ds : option DataStats) (r : RandomSource) (p : nat)
    (res : ClusteringResult) (p' : nat) :
  metrics <> [] ->
  performKMeansClustering metrics k ds r p = Some (res, p') -> (1 <= k)%nat.
Proof.
  intros Hne E.
  apply performKMeansClustering_inv in E as (run & w & Hrun & Hw & _); [|exact Hne].
  pose proof (runKMeansAlgorithm_shape _ _ _ _ _ _ Hrun) as (_ & Hlen & _).
  destruct k as [|k]; [exfalso|lia].
  destruct (KMeans.centroids run); [|discriminate Hlen].
  unfold calculateWCSS in Hw.
  destruct metrics as [|m metrics']; [done|].
  unfold normalizeData in Hw. cbv zeta in Hw. cbn [map] in Hw.
  cbn [wcssFrom] in Hw.
  destruct (KMeans.clusters run !! 0) as [c|]; cbn [mbind option_bind] in Hw;
    [rewrite lookup_nil in Hw|]; discriminate Hw.
Qed.

(** X6: asked for no cluster at all on a population that is not empty, the
    pipeline throws, whatever the draws: the run ends without a centroid
    and the within-cluster sum reads a coordinate of an undefined one. *)
Theorem no_cluster_throws (metrics : list RFMMetrics) (ds : option DataStats)
    (r : RandomSource) (p : nat) :
  metrics <> [] -> performKMeansClustering metrics 0 ds r p = None.
Proof.
  intros Hne.
  destruct (performKMeansClustering metrics 0 ds r p) as [[res p']|] eqn:E;
    [exfalso|reflexivity].
  apply pipeline_clusters_positive in E; [lia | exact Hne].
Qed.

Lemma no_cluster_throws_witness :
  performKMeansClustering scenarioA 0 None demoSource 0 = None.
Proof. apply no_cluster_throws. discriminate. Defined.

(** ** Assignment to the nearest centroid *)

Lemma lt_le_trans (x y z : number) :
  lt x y = true -> le y z = true -> lt x z = true.
Proof.
  destruct x as [| | |a], y as [| | |b], z as [| | |c]; cbn; try done.
  rewrite !Qlt_b_iff, Qle_bool_iff. intros. lra.
Qed.

Lemma lt_false_le (x y : number) :
  is_fin x = true -> is_fin y = true -> lt x y = false -> le y x = true.
Proof.
  destruct x as [| | |a], y as [| | |b]; cbn; try done.
  intros _ _. rewrite Qlt_b_false, Qle_bool_iff. done.
Qed.

Lemma lt_le_weak (x y : number) : lt x y = true -> le x y = true.
Proof.
  destruct x as [| | |a], y as [| | |b]; cbn; try done.
  rewrite Qlt_b_iff, Qle_bool_iff. intros. lra.
Qed.

(** The scan of [closestFrom]: [pre] is what has been scanned, [rest] what
    is left; the candidate is the first of the nearest of [pre]. *)
Lemma closestFrom_nearest (point : list number) (rest pre : list (list number))
    (md : number) (closest : nat) :
  (forall c, c ∈ pre ++ rest -> is_fin (euclideanDistance point c) = true) ->
  (pre = [] /\ md = PosInf) \/
  (exists best, pre !! closest = Some best /\
     md = euclideanDistance point best /\
     (forall j c, pre !! j = Some c ->
        le md (euclideanDistance point c) = true) /\
     (forall j c, (j < closest)%nat -> pre !! j = Some c ->
        lt md (euclideanDistance point c) = true)) ->
  pre ++ rest <> [] ->
  exists best,
    (pre ++ rest) !! closestFrom point (length pre) rest md closest = Some best /\
    (forall j c, (pre ++ rest) !! j = Some c ->
       le (euclideanDistance point best) (euclideanDistance point c) = true) /\
    (forall j c,
       (j < closestFrom point (length pre) rest md closest)%nat ->
       (pre ++ rest) !! j = Some c ->
       lt (euclideanDistance point best) (euclideanDistance point c) = true).
Proof.
  revert pre md closest.
  induction rest as [|c rest IH]; intros pre md closest Hfin Inv Hne.
  - cbn [closestFrom]. rewrite app_nil_r in *.
    destruct Inv as [[-> _]|(best & Hb & -> & Hle & Hlt)]; [done|].
    exists best. auto.
  - cbn [closestFrom]. cbv zeta.
    assert (Hc : is_fin (euclideanDistance point c) = true).
    { apply Hfin. apply elem_of_app. right. by left. }
    assert (Hfin' : forall c0, c0 ∈ (pre ++ [c]) ++ rest ->
              is_fin (euclideanDistance point c0) = true).
    { intros c0 H0. apply Hfin. by rewrite <- app_assoc in H0. }
    assert (Hne' : (pre ++ [c]) ++ rest <> []).
    { by destruct pre. }
    replace (S (length pre)) with (length (pre ++ [c]))
      by (rewrite length_app; cbn; lia).
    replace (pre ++ c :: rest) with ((pre ++ [c]) ++ rest)
      by (by rewrite <- app_assoc).
    destruct (lt (euclideanDistance point c) md) eqn:E.
    + apply IH; [exact Hfin' | | exact Hne'].
      right. exists c. split; [by rewrite list_lookup_middle|].
      split; [reflexivity|]. split.
      * intros j c' Hj. apply lookup_app_Some in Hj as [Hj|[_ Hj]].
        -- destruct Inv as [[-> _]|(best & _ & -> & Hle & _)]; [done|].
           apply lt_le_weak. eapply lt_le_trans; [exact E | by eapply Hle].
        -- destruct (j - length pre) as [|n]; [|done].
           injection Hj as <-. by apply le_refl_fin.
      * intros j c' Hlt Hj. apply lookup_app_Some in Hj as [Hj|[Hge _]]; [|lia].
        destruct Inv as [[-> _]|(best & _ & -> & Hle & _)]; [done|].
        eapply lt_le_trans; [exact E | by eapply Hle].
    + destruct Inv as [[-> ->]|(best & Hb & -> & Hle & Hlt)].
      { destruct (euclideanDistance point c); done. }
      apply IH; [exact Hfin' | | exact Hne'].
      right. exists best. split; [by apply lookup_app_l_Some|].
      split; [reflexivity|]. split.
      * intros j c' Hj. apply lookup_app_Some in Hj as [Hj|[_ Hj]];
          [by eapply Hle|].
        destruct (j - length pre) as [|n]; [|done].
        injection Hj as <-. apply lt_false_le; [exact Hc | | exact E].
        apply Hfin, elem_of_app. left. apply list_elem_of_lookup. eauto.
      * intros j c' Hjc Hj. apply lookup_lt_Some in Hb.
        apply lookup_app_Some in Hj as [Hj|[Hge _]]; [|lia].
        by eapply Hlt.
Qed.

(** X7: with finite points of one dimension and at least one centroid,
    every point is assigned the index of a centroid that is nearest to it,
    and among the nearest the first: no centroid is nearer, and every
    centroid of a smaller index is strictly farther. *)
Theorem assignClusters_nearest (d : nat) (data centroids : list (list number))
    (i : nat) (point : list number) :
  centroids <> [] ->
  Forall (finitePoint d) data -> Forall (finitePoint d) centroids ->
  data !! i = Some point ->
  exists c centroid,
    assignClusters data centroids !! i = Some c /\
    centroids !! c = Some centroid /\
    (forall j other, centroids !! j = Some other ->
       le (euclideanDistance point centroid) (euclideanDistance point other)
         = true) /\
    (forall j other, (j < c)%nat -> centroids !! j = Some other ->
       lt (euclideanDistance point centroid) (euclideanDistance point other)
         = true).
Proof.
  intros Hne Hdata Hcs Hi.
  destruct (closestFrom_nearest point centroids [] PosInf 0)
    as (best & Hb & Hle & Hlt); [| by left | done |].
  - intros c Hc. cbn in Hc.
    eapply Forall_forall in Hcs as [Hlc Hfc]; [|exact Hc].
    eapply Forall_lookup_1 in Hdata as [Hlp Hfp]; [|exact Hi].
    apply euclideanDistance_fin; [done..|lia].
  - cbn [app length] in *.
    exists (closestFrom point 0 centroids PosInf 0), best.
    split; [|auto].
    unfold assignClusters. change (map ?f data) with (f <$> data).
    by rewrite list_lookup_fmap, Hi.
Qed.

Lemma assignClusters_nearest_witness :
  exists c centroid,
    assignClusters [[Fin 1; Fin 1]; [Fin 4; Fin 4]]
                   [[Fin 5; Fin 5]; [Fin 0; Fin 0]; [Fin 2; Fin 2]] !! 0
      = Some c /\
    [[Fin 5; Fin 5]; [Fin 0; Fin 0]; [Fin 2; Fin 2]] !! c = Some centroid.
Proof.
  destruct (assignClusters_nearest 2 [[Fin 1; Fin 1]; [Fin 4; Fin 4]]
              [[Fin 5; Fin 5]; [Fin 0; Fin 0]; [Fin 2; Fin 2]] 0 [Fin 1; Fin 1])
    as (c & centroid & H1 & H2 & _);
    [discriminate | repeat constructor | repeat constructor | reflexivity |].
  exists c, centroid. split; [exact H1 | exact H2].
Defined.

(** ** The Euclidean distance *)

Lemma pow2_sub_sym (x y : number) : pow2 (sub x y) = pow2 (sub y x).
Proof.
  destruct x as [| | |a], y as [| | |b]; try reflexivity.
  cbn. unfold fin. f_equal. apply Qred_complete.
  rewrite !Qred_correct. ring.
Qed.

(** The sum of squares of [euclideanDistance], over the pairs of
    coordinates, when [point2] has a coordinate for each one of [point1]. *)
Lemma squares_zip (point1 point2 pre : list number) (acc : number) :
  (length point1 <= length point2)%nat ->
  foldl (fun sum '(index, val) =>
           add sum (pow2 (sub val (idx (pre ++ point2) index))))
        acc (imap (fun i => pair (length pre + i)) point1)
  = foldl (fun sum '(a, b) => add sum (pow2 (sub a b))) acc (zip point1 point2).
Proof.
  revert point2 pre acc.
  induction point1 as [|v point1 IH]; intros point2 pre acc Hlen; [reflexivity|].
  destruct point2 as [|b point2]; [cbn in Hlen; lia|].
  cbn [imap foldl zip zip_with].
  assert (Hb : idx (pre ++ b :: point2) (length pre + 0) = b).
  { unfold idx. by rewrite Nat.add_0_r, list_lookup_middle. }
  rewrite Hb.
  rewrite (imap_ext _ (fun i => pair (length (pre ++ [b]) + i))).
  - replace (pre ++ b :: point2) with ((pre ++ [b]) ++ point2)
      by (by rewrite <- app_assoc).
    apply IH. cbn in Hlen. lia.
  - intros i y _. cbn. f_equal. rewrite length_app. cbn. lia.
Qed.

Lemma squares_NaN (point2 : list number) (l : list (nat * number)) :
  foldl (fun sum '(index, val) => add sum (pow2 (sub val (idx point2 index))))
        NaN l = NaN.
Proof. induction l as [|[i v] l IH]; [reflexivity | exact IH]. Qed.

Lemma squares_short (point1 point2 pre : list number) (acc : number) :
  (length point2 < length point1)%nat ->
  foldl (fun sum '(index, val) =>
           add sum (pow2 (sub val (idx (pre ++ point2) index))))
        acc (imap (fun i => pair (length pre + i)) point1) = NaN.
Proof.
  revert point2 pre acc.
  induction point1 as [|v point1 IH]; intros point2 pre acc Hlen;
    [cbn in Hlen; lia|].
  cbn [imap foldl].
  destruct point2 as [|b point2].
  - assert (Hb : idx (pre ++ []) (length pre + 0) = NaN).
    { unfold idx. rewrite app_nil_r, Nat.add_0_r.
      by rewrite (lookup_ge_None_2 pre (length pre)) by lia. }
    rewrite Hb.
    replace (sub v NaN) with NaN by (by destruct v).
    cbn [pow2 mul]. rewrite add_NaN_r. apply squares_NaN.
  - rewrite (imap_ext _ (fun i => pair (length (pre ++ [b]) + i))).
    + replace (pre ++ b :: point2) with ((pre ++ [b]) ++ point2)
        by (by rewrite <- app_assoc).
      apply IH. cbn in Hlen. lia.
    + intros i y _. cbn. f_equal. rewrite length_app. cbn. lia.
Qed.

Lemma squares_sym (point1 point2 : list number) (acc : number) :
  foldl (fun sum '(a, b) => add sum (pow2 (sub a b))) acc (zip point1 point2)
  = foldl (fun sum '(a, b) => add sum (pow2 (sub a b))) acc (zip point2 point1).
Proof.
  revert point2 acc.
  induction point1 as [|a point1 IH]; intros [|b point2] acc; try reflexivity.
  cbn [zip zip_with foldl]. rewrite (pow2_sub_sym a b). apply IH.
Qed.

Lemma squares_self (point : list number) :
  Forall (fun x => is_fin x = true) point ->
  foldl (fun sum '(a, b) => add sum (pow2 (sub a b))) (Fin 0) (zip point point)
  = Fin 0.
Proof.
  induction 1 as [|x point Hx _ IH]; [reflexivity|].
  cbn [zip zip_with foldl]. destruct x as [| | |a]; try discriminate.
  cbn [sub]. rewrite (fin_zero (a - a)) by ring. exact IH.
Qed.

Lemma Qsqrt_nonneg (q : Q) : (0 <= Qsqrt q)%Q.
Proof.
  unfold Qsqrt, Qle. cbn. rewrite Z.mul_1_r. apply Z.sqrt_nonneg.
Qed.

(** X8: the distance of two points of as many coordinates is symmetric; on
    finite coordinates it is a finite number, not negative, and 0 from a
    point to itself; it is [NaN] whenever the second point has fewer
    coordinates than the first. *)
Theorem euclideanDistance_spec (point1 point2 : list number) :
  (length point1 = length point2 ->
   euclideanDistance point1 point2 = euclideanDistance point2 point1) /\
  (Forall (fun x => is_fin x = true) point1 ->
   euclideanDistance point1 point1 = Fin 0) /\
  (Forall (fun x => is_fin x = true) point1 ->
   Forall (fun x => is_fin x = true) point2 ->
   length point1 = length point2 ->
   nonneg (euclideanDistance point1 point2)) /\
  ((length point2 < length point1)%nat ->
   euclideanDistance point1 point2 = NaN).
Proof.
  unfold euclideanDistance.
  split; [|split; [|split]].
  - intros Hlen.
    rewrite (squares_zip point1 point2 []), (squares_zip point2 point1 []) by lia.
    by rewrite squares_sym.
  - intros Hfin. rewrite (squares_zip point1 point1 []) by lia.
    by rewrite squares_self.
  - intros H1 H2 Hlen.
    pose proof (squares_from point2 point1 0 0 H1 H2) as Hs.
    cbn [Nat.add] in Hs.
    destruct (foldl _ _ (imap pair point1)) as [| | |t];
      try (exfalso; apply Hs; [lia | lra]).
    assert (Ht : (0 <= t)%Q) by (apply Hs; [lia | lra]).
    cbn [Math_sqrt]. destruct (Qneg_b t) eqn:En.
    { apply Qneg_b_iff in En. lra. }
    cbn. rewrite Qred_correct. apply Qsqrt_nonneg.
  - intros Hlen. by rewrite (squares_short point1 point2 []).
Qed.

Lemma euclideanDistance_spec_witness :
  euclideanDistance [Fin 3; Fin 0] [Fin 0; Fin 4]
    = euclideanDistance [Fin 0; Fin 4] [Fin 3; Fin 0] /\
  euclideanDistance [Fin 3; Fin 0] [Fin 3; Fin 0] = Fin 0 /\
  nonneg (euclideanDistance [Fin 3; Fin 0] [Fin 0; Fin 4]) /\
  euclideanDistance [Fin 3; Fin 0; Fin 1] [Fin 0; Fin 4] = NaN.
Proof.
  destruct (euclideanDistance_spec [Fin 3; Fin 0] [Fin 0; Fin 4])
    as (Hsym & Hself & Hpos & _).
  destruct (euclideanDistance_spec [Fin 3; Fin 0; Fin 1] [Fin 0; Fin 4])
    as (_ & _ & _ & Hnan).
  split; [apply Hsym; reflexivity|].
  split; [apply Hself; repeat constructor|].
  split; [apply Hpos; repeat constructor | apply Hnan; cbn; lia].
Defined.

(** ** Cluster sizes and the labels of the customers *)

Lemma sum_list_plus {A} (f g : A -> nat) (l : list A) :
  sum_list ((fun x => f x + g x) <$> l)
    = sum_list (f <$> l) + sum_list (g <$> l).
Proof.
  induction l as [|x l IH]; [reflexivity|].
  cbn [fmap list_fmap sum_list sum_list_with id].
  change (sum_list_with id ?l) with (sum_list l).
  change (list_fmap _ _ ?f l) with (f <$> l) in *. rewrite IH. lia.
Qed.

Lemma sum_list_indicator (c a k : nat) :
  sum_list ((fun i => if decide (c = i) then 1 else 0) <$> seq a k)
    = if decide (a <= c < a + k)%nat then 1 else 0.
Proof.
  revert a. induction k as [|k IH]; intros a.
  - cbn. destruct (decide _); [lia | reflexivity].
  - cbn [seq fmap list_fmap sum_list sum_list_with id].
    change (sum_list_with id ?l) with (sum_list l).
    change (list_fmap _ _ ?f ?l) with (f <$> l). rewrite IH.
    repeat destruct (decide _); lia.
Qed.

(** Every point with a cluster index below [k] is counted in one cluster. *)
Lemma inCluster_sizes {A} (clusters : list nat) (k : nat) (l : list A) (n : nat) :
  (n + length l <= length clusters)%nat ->
  Forall (fun c => (c < k)%nat) clusters ->
  sum_list ((fun i =>
               length (filter_from
                         (fun index _ => bool_decide (clusters !! index = Some i))
                         n l)) <$> seq 0 k)
    = length l.
Proof.
  intros Hlen Hk. revert n Hlen.
  induction l as [|x l IH]; intros n Hlen.
  - cbn [filter_from length]. induction (seq 0 k); [reflexivity | done].
  - cbn [length] in Hlen.
    destruct (lookup_lt_is_Some_2 clusters n) as [c Hc]; [lia|].
    assert (Hck : (c < k)%nat) by (by eapply Forall_lookup_1 in Hk).
    rewrite (list_fmap_ext _
               (fun i => (if decide (c = i) then 1 else 0) +
                         length (filter_from
                                   (fun index _ =>
                                      bool_decide (clusters !! index = Some i))
                                   (S n) l))).
    + rewrite sum_list_plus, sum_list_indicator, IH by lia.
      rewrite decide_True by lia. reflexivity.
    + intros j i _. cbn [filter_from]. rewrite Hc.
      destruct (decide (c = i)) as [->|Hne].
      * by rewrite bool_decide_eq_true_2.
      * rewrite bool_decide_eq_false_2; [reflexivity | congruence].
Qed.

(** X9: the statistics have one entry for each of the [k] clusters, at the
    position of its index, with the number of customers assigned to it as
    its size; when every customer has a cluster index below [k] the sizes
    add up to the population: each customer is counted in exactly one
    cluster. *)
Theorem cluster_sizes_partition (metrics : list RFMMetrics)
    (clusters : list nat) (k : nat) :
  length (calculateClusterStatistics metrics clusters k) = k /\
  (forall i s, calculateClusterStatistics metrics clusters k !! i = Some s ->
     Stats.cluster_id s = i /\
     Stats.size s = length (inCluster clusters i metrics)) /\
  ((length metrics <= length clusters)%nat ->
   Forall (fun c => (c < k)%nat) clusters ->
   sum_list (Stats.size <$> calculateClusterStatistics metrics clusters k)
     = length metrics).
Proof.
  unfold calculateClusterStatistics. change (map ?f (seq 0 k)) with (f <$> seq 0 k).
  split; [by rewrite length_fmap, length_seq|]. split.
  - intros i s Hs. rewrite list_lookup_fmap in Hs.
    destruct (seq 0 k !! i) as [j|] eqn:Ej; [|discriminate].
    apply lookup_seq in Ej as [-> _]. cbn in Hs. injection Hs as <-.
    by destruct (inCluster clusters i metrics).
  - intros Hlen Hk. rewrite <- list_fmap_compose.
    rewrite <- (inCluster_sizes clusters k metrics 0 Hlen Hk).
    apply (f_equal sum_list), list_fmap_ext. intros i j _. unfold compose.
    fold (filteri (fun index (_ : RFMMetrics) =>
                     bool_decide (clusters !! index = Some j)) metrics).
    fold (inCluster clusters j metrics).
    by destruct (inCluster clusters j metrics).
Qed.

Lemma cluster_sizes_partition_witness :
  sum_list (Stats.size <$> calculateClusterStatistics scenarioA [0; 1; 0; 1] 3)
    = 4.
Proof.
  destruct (cluster_sizes_partition scenarioA [0; 1; 0; 1] 3) as (_ & _ & H).
  apply H; [cbn; lia | repeat constructor].
Defined.

Lemma labelMap_other (l : list ClusterCenter) (m0 : gmap nat string) (n : nat) :
  n ∉ Center.cluster_id <$> l ->
  foldl (fun m cluster =>
           <[Center.cluster_id cluster := Center.segment_label cluster]> m)
        m0 l !! n = m0 !! n.
Proof.
  revert m0. induction l as [|x l IH]; intros m0 Hn; [reflexivity|].
  cbn [foldl]. rewrite fmap_cons in Hn. apply not_elem_of_cons in Hn as [Hx Hn].
  rewrite IH by exact Hn. by rewrite lookup_insert_ne.
Qed.

(** With distinct cluster indices the label map holds the label of each
    center under its index. *)
Lemma labelMap_lookup (l : list ClusterCenter) (m0 : gmap nat string)
    (c : ClusterCenter) :
  NoDup (Center.cluster_id <$> l) -> c ∈ l ->
  foldl (fun m cluster =>
           <[Center.cluster_id cluster := Center.segment_label cluster]> m)
        m0 l !! Center.cluster_id c = Some (Center.segment_label c).
Proof.
  revert m0. induction l as [|x l IH]; intros m0 Hnd Hc; [by apply elem_of_nil in Hc|].
  rewrite fmap_cons in Hnd. apply NoDup_cons in Hnd as [Hx Hnd].
  cbn [foldl]. apply elem_of_cons in Hc as [->|Hc].
  - rewrite labelMap_other by exact Hx. by rewrite lookup_insert_eq.
  - by apply IH.
Qed.

Lemma ranked_ids (metrics : list RFMMetrics) (clusters : list nat) (k : nat) :
  Center.cluster_id <$>
    rankClustersAndAssignLabels (calculateClusterStatistics metrics clusters k)
  ≡ₚ seq 0 k.
Proof.
  pose proof (ranked_keys_perm (calculateClusterStatistics metrics clusters k)) as H.
  apply (fmap_Permutation (fun key => key.1.1.1)) in H.
  rewrite <- !list_fmap_compose in H.
  etrans; [exact H|].
  assert (Heq : forall l1 l2 : list nat, l1 = l2 -> l1 ≡ₚ l2) by (by intros ? ? ->).
  apply Heq.
  unfold calculateClusterStatistics. change (map ?f (seq 0 k)) with (f <$> seq 0 k).
  rewrite <- list_fmap_compose. rewrite <- (list_fmap_id (seq 0 k)) at 2.
  apply list_fmap_ext. intros i j _. unfold compose, statsKey. cbn.
  by destruct (inCluster clusters j metrics).
Qed.

Lemma labelAt_in (i : nat) : labelAt i ∈ segmentLabels.
Proof.
  unfold segmentLabels. destruct i as [|[|[|i]]]; cbn;
    repeat (first [by left | right]).
Qed.

Lemma labelAt_nonempty (i : nat) : labelAt i <> ""%string.
Proof. by destruct i as [|[|[|i]]]. Qed.

(** X10: in a result of the pipeline every customer carries the index of
    one of the [k] clusters and, as its segment, the label of the center of
    that cluster, one of the four labels of the ranking; the centers have
    distinct cluster indices, so that this center is the only one. *)
Theorem segment_is_center_label (metrics : list RFMMetrics) (k : nat)
    (ds : option DataStats) (r : RandomSource) (p : nat)
    (res : ClusteringResult) (p' : nat) (i : nat) (c : ClusteredRFMMetrics) :
  performKMeansClustering metrics k ds r p = Some (res, p') ->
  clusteredMetrics res !! i = Some c ->
  NoDup (Center.cluster_id <$> centers res) /\
  exists center,
    center ∈ centers res /\
    (Center.cluster_id center < k)%nat /\
    Clustered.cluster_id c = Some (Center.cluster_id center) /\
    Clustered.segment c = Center.segment_label center /\
    Clustered.segment c ∈ segmentLabels.
Proof.
  intros H Hc.
  destruct (decide (metrics = [])) as [->|Hne].
  { cbn in H. injection H as <- <-. discriminate Hc. }
  pose proof (pipeline_clusters_positive _ _ _ _ _ _ _ Hne H) as Hk.
  apply performKMeansClustering_inv in H as (run & w & Hrun & _ & ->); [|exact Hne].
  cbn [clusteredMetrics centers] in *.
  pose proof (runKMeansAlgorithm_shape _ _ _ _ _ _ Hrun) as (_ & Hlen & Hcl).
  set (clusters := KMeans.clusters run) in *.
  set (ranked := rankClustersAndAssignLabels
                   (calculateClusterStatistics metrics clusters k)) in *.
  assert (Hids : Center.cluster_id <$> ranked ≡ₚ seq 0 k) by apply ranked_ids.
  assert (Hnd : NoDup (Center.cluster_id <$> ranked)).
  { rewrite Hids. apply NoDup_seq. }
  split; [exact Hnd|].
  pose proof (createClusteredMetrics_cluster_id _ _ _ _ _ Hc) as Hid.
  unfold createClusteredMetrics in Hc. cbv zeta in Hc.
  rewrite list_lookup_imap in Hc.
  destruct (metrics !! i) as [metric|] eqn:Em; [|discriminate].
  cbv [fmap option_fmap option_map] in Hc. injection Hc as Hc.
  assert (Hrange : Forall (fun n => (n < k)%nat) clusters).
  { rewrite Hcl, <- Hlen. apply assignClusters_range.
    destruct (KMeans.centroids run); [cbn in Hlen; lia | done]. }
  destruct (lookup_lt_is_Some_2 clusters i) as [n Hn].
  { rewrite Hcl. unfold assignClusters.
    rewrite length_map, normalizeData_length. by eapply lookup_lt_Some. }
  assert (Hnk : (n < k)%nat) by (by eapply Forall_lookup_1 in Hrange).
  assert (Hin : n ∈ Center.cluster_id <$> ranked).
  { rewrite Hids. apply elem_of_seq. lia. }
  apply list_elem_of_fmap in Hin as (center & -> & Hcenter).
  exists center. split; [exact Hcenter|]. split; [exact Hnk|].
  split; [by rewrite Hid|].
  pose proof Hcenter as Hpos. apply list_elem_of_lookup in Hpos as [j Hj].
  apply ranked_rank_label in Hj as [_ Hlabel].
  assert (Hseg : Clustered.segment c = Center.segment_label center).
  { rewrite <- Hc. cbn [Clustered.segment]. rewrite Hn. cbn [mbind option_bind].
    rewrite (labelMap_lookup ranked ∅ center Hnd Hcenter).
    rewrite bool_decide_eq_false_2; [reflexivity|].
    rewrite Hlabel. apply labelAt_nonempty. }
  split; [exact Hseg|]. rewrite Hseg, Hlabel. apply labelAt_in.
Qed.

Lemma segment_is_center_label_witness :
  exists res p' c,
    performKMeansClustering scenarioA 2 None demoSource 0 = Some (res, p') /\
    clusteredMetrics res !! 0 = Some c /\
    Clustered.segment c ∈ segmentLabels.
Proof.
  destruct (performKMeansClustering scenarioA 2 None demoSource 0)
    as [[res p']|] eqn:E; [|vm_compute in E; discriminate].
  destruct (clusteredMetrics res !! 0) as [c|] eqn:Ec;
    [|vm_compute in E; injection E as <- _; vm_compute in Ec; discriminate].
  exists res, p', c. split; [reflexivity|]. split; [exact Ec|].
  destruct (segment_is_center_label scenarioA 2 None demoSource 0 res p' 0 c E Ec)
    as (_ & center & _ & _ & _ & _ & H).
  exact H.
Defined.

(** ** The number of clusters chosen *)

Lemma elbow_range (wcssValues : list number) :
  elbow wcssValues = 2 \/
  (3 <= elbow wcssValues /\ elbow wcssValues <= length wcssValues)%nat.
Proof.
  destruct (elbow_spec wcssValues) as [[H _]|(i & Hi & H & _)].
  - left. exact H.
  - right. apply elem_of_interior in Hi. rewrite H. unfold minK. lia.
Qed.

Lemma findOptimalK_range (metrics : list RFMMetrics) r p K p' :
  findOptimalK metrics r p = Some (K, p') ->
  K = 2 \/ (3 <= K /\ K < Nat.min 8 (length metrics / 2))%nat.
Proof.
  unfold findOptimalK. intros H.
  apply bind_Some in H as (wcssValues & p1 & Hsweep & H).
  apply ret_Some in H as [<- _].
  unfold sweepWCSS in Hsweep. apply mapM_inv, Forall2_length in Hsweep.
  unfold candidateKs in Hsweep. rewrite length_seq in Hsweep.
  destruct (elbow_range wcssValues) as [?|[? ?]]; [by left|right].
  unfold maxKOf, minK in Hsweep. lia.
Qed.

(** X11: on a population that is not empty, a result of the enhanced
    clustering has a number of clusters between 2 and 7, 2 whenever there
    are fewer than 8 customers and never the largest candidate above 2; it
    has that many centers, one clustered metric for each customer, and the
    statistics of the population as its [dataStats]. *)
Theorem enhanced_result_shape (metrics : list RFMMetrics) (r : RandomSource)
    (p : nat) (res : ClusteringResult) (p' : nat) :
  metrics <> [] ->
  performEnhancedClustering metrics r p = Some (res, p') ->
  (2 <= optimalK res <= 7)%nat /\
  ((length metrics < 8)%nat -> optimalK res = 2) /\
  (optimalK res = 2 \/ (optimalK res < Nat.min 8 (length metrics / 2))%nat) /\
  length (centers res) = optimalK res /\
  length (clusteredMetrics res) = length metrics /\
  dataStats res = calculateDataStats metrics.
Proof.
  intros Hne H. unfold performEnhancedClustering in H.
  destruct (length metrics =? 0)%nat eqn:E.
  { apply Nat.eqb_eq in E. by destruct metrics. }
  cbv zeta in H.
  apply bind_Some in H as (K & p1 & HK & H).
  apply bind_Some in H as (result & p2 & Hres & H).
  apply ret_Some in H as [<- _].
  cbn [optimalK centers clusteredMetrics dataStats].
  apply findOptimalK_range in HK.
  apply performKMeansClustering_inv in Hres as (run & w & _ & _ & ->); [|exact Hne].
  cbn [centers clusteredMetrics].
  split; [lia|]. split.
  { intros Hlt. destruct HK as [?|[? HK]]; [done|].
    assert (length metrics / 2 < 4)%nat
      by (apply Nat.Div0.div_lt_upper_bound; lia). lia. }
  split; [lia|]. split; [|split; [|reflexivity]].
  - rewrite ranked_length. unfold calculateClusterStatistics.
    by rewrite length_map, length_seq.
  - rewrite <- (length_fmap metricOf). by rewrite createClusteredMetrics_frame.
Qed.

Lemma enhanced_result_shape_witness :
  exists res p',
    performEnhancedClustering scenarioA demoSource 0 = Some (res, p') /\
    optimalK res = 2 /\ length (centers res) = 2.
Proof.
  destruct (performEnhancedClustering_total scenarioA demoSource 0)
    as (res & p' & H); [repeat constructor | exact demoSource_valid |].
  exists res, p'. split; [exact H|].
  destruct (enhanced_result_shape scenarioA demoSource 0 res p')
    as (_ & H2 & _ & Hc & _); [discriminate | exact H |].
  rewrite Hc. split; apply H2; cbn; lia.
Defined.

(** ** Percentiles *)

(** Sorting numbers with [(a, b) => a - b] puts finite values in
    increasing order. *)
Lemma sort_insert_asc (x : Q) (l : list Q) :
  StronglySorted Qle l ->
  exists l', sort_insert sub (Fin x) (Fin <$> l) = Fin <$> l' /\
             l' ≡ₚ x :: l /\ StronglySorted Qle l'.
Proof.
  induction 1 as [|y l Hl IH Hy].
  - exists [x]. split; [reflexivity|]. split; [reflexivity|].
    repeat constructor.
  - cbn [fmap list_fmap sort_insert]. rewrite gt_sub_Fin.
    destruct (Qlt_b y x) eqn:E.
    + destruct IH as (l' & Heq & Hperm & Hsorted).
      exists (y :: l'). change (list_fmap _ _ ?f l) with (f <$> l).
      rewrite Heq. split; [reflexivity|]. split.
      * rewrite Hperm. apply perm_swap.
      * constructor; [exact Hsorted|]. rewrite Hperm.
        constructor; [|exact Hy]. apply Qlt_b_iff in E. lra.
    + exists (x :: y :: l). split; [reflexivity|]. split; [reflexivity|].
      apply Qlt_b_false in E.
      constructor; [by constructor|]. constructor; [exact E|].
      eapply Forall_impl; [exact Hy|]. intros z Hz. cbn in Hz. lra.
Qed.

Lemma Array_sort_asc (qs : list Q) :
  exists s, Array_sort sub (Fin <$> qs) = Fin <$> s /\
            s ≡ₚ qs /\ StronglySorted Qle s.
Proof.
  induction qs as [|x qs (s & Heq & Hperm & Hsorted)].
  - exists []. split; [reflexivity|]. split; [reflexivity | constructor].
  - cbn [fmap list_fmap Array_sort foldr].
    change (foldr (sort_insert sub) [] ?l) with (Array_sort sub l).
    change (list_fmap _ _ ?f qs) with (f <$> qs). rewrite Heq.
    destruct (sort_insert_asc x s Hsorted) as (l' & Hl' & Hp' & Hs').
    exists l'. split; [exact Hl'|]. split; [|exact Hs'].
    by rewrite Hp', Hperm.
Qed.

Lemma sorted_lookup_le (s : list Q) (i j : nat) (a b : Q) :
  StronglySorted Qle s -> (i <= j)%nat ->
  s !! i = Some a -> s !! j = Some b -> (a <= b)%Q.
Proof.
  intros Hs Hij Ha Hb. destruct (decide (i = j)) as [->|Hne].
  - rewrite Ha in Hb. injection Hb as ->. apply Qle_refl.
  - eapply (StronglySorted_lookup Qle s i j); eauto. lia.
Qed.

Lemma at_number_Z (s : list Q) (z : Z) (a : Q) :
  (0 <= z)%Z -> s !! Z.to_nat z = Some a ->
  at_number (Fin <$> s) (Fin (inject_Z z)) = Fin a.
Proof.
  intros Hz Ha. unfold at_number, to_index. rewrite Qfloor_Z.
  rewrite (proj2 (Qeq_bool_iff _ _) (Qeq_refl _)).
  rewrite (proj2 (Z.leb_le _ _) Hz). cbn [andb].
  unfold idx. by rewrite list_lookup_fmap, Ha.
Qed.

Lemma scale_le (t N : Q) :
  (0 <= t <= 1)%Q -> (1 <= N)%Q -> (t * (N - 1) <= N + - (1))%Q.
Proof. intros Ht HN. nra. Qed.

(** The position read by [percentile]: [p / 100 * (n - 1)]. *)
Lemma percentile_index (pq : Q) (n : nat) :
  (0 <= pq <= 100)%Q -> (1 <= n)%nat ->
  let ix := Qred (Qred (pq / 100) * Qred (inject_Z (Z.of_nat n) - 1)) in
  (ix == pq / 100 * (inject_Z (Z.of_nat n) - 1))%Q /\
  (0 <= ix)%Q /\ (ix <= inject_Z (Z.of_nat n - 1))%Q /\
  (0 <= Qfloor ix)%Z /\ (Qfloor ix <= Qceiling ix)%Z /\
  (Qceiling ix <= Z.of_nat n - 1)%Z.
Proof.
  intros Hp Hn ix.
  assert (Hix : (ix == pq / 100 * (inject_Z (Z.of_nat n) - 1))%Q).
  { unfold ix. by rewrite !Qred_correct. }
  assert (Hn1 : (1 <= inject_Z (Z.of_nat n))%Q).
  { change 1%Q with (inject_Z 1). rewrite <- Zle_Qle. lia. }
  assert (H0 : (0 <= ix)%Q).
  { rewrite Hix. apply Qmult_le_0_compat; [|lra].
    apply Qle_shift_div_l; [reflexivity | lra]. }
  assert (H1 : (ix <= inject_Z (Z.of_nat n - 1))%Q).
  { rewrite Hix. unfold Z.sub. rewrite inject_Z_plus.
    change (inject_Z (- (1))) with (- (1))%Q.
    assert (Hp1 : (pq / 100 <= 1)%Q)
      by (apply Qle_shift_div_r; [reflexivity | lra]).
    assert (Hp0 : (0 <= pq / 100)%Q)
      by (apply Qle_shift_div_l; [reflexivity | lra]).
    apply scale_le; [split; assumption | exact Hn1]. }
  split; [exact Hix|]. split; [exact H0|]. split; [exact H1|].
  split; [|split].
  - rewrite <- (Qfloor_Z 0). by apply Qfloor_resp_le.
  - pose proof (Qfloor_le ix). pose proof (Qle_ceiling ix).
    rewrite Zle_Qle. lra.
  - rewrite <- (Qceiling_Z (Z.of_nat n - 1)). by apply Qceiling_resp_le.
Qed.

(** What [percentile] returns on finite values. *)
Lemma percentile_interpolated (qs : list Q) (pq : Q) :
  qs <> [] -> (0 <= pq <= 100)%Q ->
  interpolated (Fin <$> qs) pq (percentile (Fin <$> qs) (Fin pq)).
Proof.
  intros Hne Hp.
  destruct (Array_sort_asc qs) as (s & Hsort & Hperm & Hsorted).
  assert (Hlen : length s = length qs) by (by rewrite Hperm).
  assert (Hn : (1 <= length s)%nat).
  { rewrite Hlen. destruct qs; [done | cbn; lia]. }
  destruct (percentile_index pq (length s) Hp Hn)
    as (Hix & H0 & H1 & Hf0 & Hfc & Hcn).
  set (ix := Qred (Qred (pq / 100) * Qred (inject_Z (Z.of_nat (length s)) - 1)))
    in *.
  destruct (lookup_lt_is_Some_2 s (Z.to_nat (Qfloor ix))) as [a Ha]; [lia|].
  destruct (lookup_lt_is_Some_2 s (Z.to_nat (Qceiling ix))) as [b Hb]; [lia|].
  exists s, a, b, (Qred (ix - inject_Z (Qfloor ix))).
  rewrite length_fmap, <- Hlen. cbv zeta.
  assert (Hfl : Qfloor (pq / 100 * (inject_Z (Z.of_nat (length s)) - 1))
                = Qfloor ix) by (apply Qfloor_comp; symmetry; exact Hix).
  assert (Hce : Qceiling (pq / 100 * (inject_Z (Z.of_nat (length s)) - 1))
                = Qceiling ix) by (apply Qceiling_comp; symmetry; exact Hix).
  rewrite Hfl, Hce.
  split; [by rewrite Hperm|]. split; [exact Hsorted|].
  split; [exact Ha|]. split; [exact Hb|].
  split; [eapply (sorted_lookup_le s); [exact Hsorted | | exact Ha | exact Hb]; lia|].
  split.
  { rewrite Qred_correct. clear -Hix.
    generalize dependent (pq / 100 * (inject_Z (Z.of_nat (length s)) - 1))%Q.
    intros x Hix. lra. }
  assert (Hneg : Qneg_b ix = false).
  { destruct (Qneg_b ix) eqn:E; [|reflexivity]. apply Qneg_b_iff in E. lra. }
  assert (Hge : ge (Fin (inject_Z (Qceiling ix))) (of_nat (length s)) = false).
  { unfold ge, of_nat, le. destruct (Qle_bool _ _) eqn:E; [|reflexivity].
    apply Qle_bool_iff in E. rewrite <- Zle_Qle in E. lia. }
  assert (Hval : percentile (Fin <$> qs) (Fin pq) =
                 add (mul (Fin a) (sub (Fin 1) (Fin (Qred (ix - inject_Z (Qfloor ix))))))
                     (mul (Fin b) (Fin (Qred (ix - inject_Z (Qfloor ix)))))).
  { unfold percentile. cbv zeta. rewrite Hsort, length_fmap.
    assert (Hindex : mul (div (Fin pq) (Fin 100))
                         (sub (of_nat (length s)) (Fin 1)) = Fin ix) by reflexivity.
    rewrite Hindex. cbn [Math_floor Math_ceil mod1]. rewrite Hneg, Hge.
    rewrite (at_number_Z s (Qfloor ix) a) by (lia || exact Ha).
    rewrite (at_number_Z s (Qceiling ix) b) by (lia || exact Hb).
    reflexivity. }
  split; [exact Hval|].
  intros Hw. rewrite Qred_correct in Hw. rewrite Hval.
  eexists. split; [reflexivity|].
  rewrite !Qred_correct. rewrite Hw. ring.
Qed.

Lemma interpolated_perm (xs ys : list number) (p : Q) (y : number) :
  xs ≡ₚ ys -> interpolated xs p y -> interpolated ys p y.
Proof.
  intros Hp (s & a & b & w & Hs & H). exists s, a, b, w.
  split; [by etrans|]. apply Permutation_length in Hp. by rewrite <- Hp.
Qed.

Lemma axis_percentiles (get : RFMMetrics -> number) (metrics : list RFMMetrics) :
  metrics <> [] -> Forall (fun m => is_fin (get m) = true) metrics ->
  percentilesInterpolate (get <$> metrics)
                         (percentilesOf (Array_sort sub (get <$> metrics))).
Proof.
  intros Hne Hfin.
  destruct (finite_list (get <$> metrics)) as [qs Hqs]; [by apply Forall_fmap|].
  rewrite Hqs.
  destruct (Array_sort_asc qs) as (s & Hsort & Hperm & _). rewrite Hsort.
  assert (Hs : s <> []).
  { intros ->. apply Permutation_nil_l in Hperm. subst qs.
    by destruct metrics. }
  assert (Hxs : Fin <$> s ≡ₚ Fin <$> qs) by (by rewrite Hperm).
  unfold percentilesInterpolate, percentilesOf. cbn [p25 p50 p75].
  split; [|split]; apply (interpolated_perm _ _ _ _ Hxs);
    apply percentile_interpolated; (exact Hs || lra).
Qed.

(** X12: on a population of finite metrics that is not empty, each of the
    percentiles 25, 50 and 75 of each axis is read inside the values of the
    axis put in increasing order, at the positions below and above
    [p / 100 * (n - 1)]: it is the interpolation of the two neighbouring
    values there, the lower one first, and that value itself when the
    position is whole. *)
Theorem dataStats_interpolated (metrics : list RFMMetrics) :
  metrics <> [] -> Forall (fun m => finiteMetric m = true) metrics ->
  percentilesInterpolate (recency <$> metrics)
                         (recencyPercentiles (calculateDataStats metrics)) /\
  percentilesInterpolate (frequency <$> metrics)
                         (frequencyPercentiles (calculateDataStats metrics)) /\
  percentilesInterpolate (monetary <$> metrics)
                         (monetaryPercentiles (calculateDataStats metrics)).
Proof.
  intros Hne Hfin. unfold calculateDataStats. cbv zeta.
  cbn [recencyPercentiles frequencyPercentiles monetaryPercentiles].
  change (map ?f metrics) with (f <$> metrics).
  split; [|split]; apply axis_percentiles; try exact Hne;
    (eapply Forall_impl; [exact Hfin|]); intros x Hx;
    by apply finiteMetric_axes in Hx as (? & ? & ?).
Qed.

Lemma dataStats_interpolated_witness :
  percentilesInterpolate (monetary <$> scenarioA)
                         (monetaryPercentiles (calculateDataStats scenarioA)).
Proof.
  destruct (dataStats_interpolated scenarioA) as (_ & _ & H);
    [discriminate | repeat constructor | exact H].
Defined.

(** ** Range of the silhouette *)

Lemma euclideanDistance_nonneg (point1 point2 : list number) :
  Forall (fun x => is_fin x = true) point1 ->
  Forall (fun x => is_fin x = true) point2 ->
  (length point1 <= length point2)%nat ->
  nonneg (euclideanDistance point1 point2).
Proof.
  intros H1 H2 Hlen. unfold euclideanDistance.
  pose proof (squares_from point2 point1 0 0 H1 H2 Hlen (Qle_refl 0)) as H.
  cbn [Nat.add] in H.
  destruct (foldl _ _ _) as [| | |q]; try contradiction. cbn in H.
  cbn [Math_sqrt]. destruct (Qneg_b q) eqn:E.
  { apply Qneg_b_iff in E. lra. }
  cbn. rewrite Qred_correct. apply Qsqrt_nonneg.
Qed.

Lemma foldl_add_nonneg {A} (f : A -> number) (l : list A) (acc : number) :
  nonneg acc -> Forall (fun x => nonneg (f x)) l ->
  nonneg (foldl (fun sum x => add sum (f x)) acc l).
Proof.
  intros Hacc Hall. revert acc Hacc.
  induction Hall as [|x l Hx _ IH]; intros acc Hacc; [exact Hacc|].
  cbn [foldl]. apply IH. by apply add_nonneg.
Qed.

Lemma div_of_nat_nonneg (x : number) (n : nat) :
  nonneg x -> (0 < n)%nat -> nonneg (div x (of_nat n)).
Proof.
  destruct x as [| | |q]; try done. intros Hq Hn. unfold of_nat, div.
  assert (Hpos : (0 < inject_Z (Z.of_nat n))%Q).
  { change 0%Q with (inject_Z 0). rewrite <- Zlt_Qlt. lia. }
  destruct (Qzero_b _) eqn:E.
  { apply Qzero_b_iff in E. lra. }
  cbn in *. rewrite Qred_correct. by apply Qle_shift_div_l; [|lra].
Qed.

Lemma meanDistance_nonneg (d : nat) (point : list number)
    (points : list (list number)) :
  finitePoint d point -> Forall (finitePoint d) points -> points <> [] ->
  nonneg (meanDistance point points).
Proof.
  intros [Hlp Hp] Hpoints Hne. unfold meanDistance.
  apply div_of_nat_nonneg; [|destruct points; [done | cbn; lia]].
  apply foldl_add_nonneg; [exact (Qle_refl 0)|].
  eapply Forall_impl; [exact Hpoints|]. intros other [Hlo Ho].
  apply euclideanDistance_nonneg; [done..|lia].
Qed.

Lemma filteri_Forall {A} (P : A -> Prop) (f : nat -> A -> bool) (l : list A) :
  Forall P l -> Forall P (filteri f l).
Proof.
  intros H. apply Forall_forall. intros x Hx.
  apply filter_from_elem in Hx. by eapply Forall_forall in H.
Qed.

Lemma Math_min_nonneg (l : list number) :
  Forall (fun x => x = PosInf \/ nonneg x) l ->
  Math_min l = PosInf \/ nonneg (Math_min l).
Proof.
  induction 1 as [|x l Hx _ IH]; [by left|].
  cbn [Math_min foldr]. change (foldr min2 PosInf l) with (Math_min l).
  destruct IH as [->|IH], Hx as [->|Hx].
  - by left.
  - right. by destruct x.
  - right. by destruct (Math_min l).
  - right. destruct x as [| | |a]; try done.
    destruct (Math_min l) as [| | |b]; try done.
    cbn. by destruct (Qlt_b b a).
Qed.

(** A quotient [(b - a) / max(a, b)] of numbers that are not negative. *)
Lemma silhouette_quotient (a b : Q) :
  (0 <= a)%Q -> (0 <= b)%Q ->
  silhouetteValue (div (sub (Fin b) (Fin a)) (max2 (Fin a) (Fin b))).
Proof.
  intros Ha Hb. cbn [sub max2 lt]. unfold fin.
  pose proof (Qred_correct (b - a)) as Hx.
  destruct (Qlt_b a b) eqn:E.
  - apply Qlt_b_iff in E. cbn [div].
    destruct (Qzero_b b) eqn:Eb; [apply Qzero_b_iff in Eb; lra|].
    cbn. rewrite !Qred_correct. split.
    + apply Qle_shift_div_l; lra.
    + apply Qle_shift_div_r; lra.
  - apply Qlt_b_false in E. cbn [div].
    destruct (Qzero_b a) eqn:Ea.
    + apply Qzero_b_iff in Ea.
      assert (Hz : Qzero_b (Qred (b - a)) = true) by (apply Qzero_b_iff; lra).
      by rewrite Hz.
    + assert (Hpos : (0 < a)%Q).
      { destruct (Qlt_le_dec 0 a) as [?|Hle]; [done|].
        assert (Hz : (a == 0)%Q) by lra. apply Qzero_b_iff in Hz. congruence. }
      cbn. rewrite !Qred_correct. split.
      * apply Qle_shift_div_l; lra.
      * apply Qle_shift_div_r; lra.
Qed.

Lemma silhouetteOf_range (d : nat) (data : list (list number))
    (clusters : list nat) (i : nat) (point : list number) :
  Forall (finitePoint d) data -> finitePoint d point ->
  silhouetteValue (silhouetteOf data clusters i point).
Proof.
  intros Hdata Hpoint. unfold silhouetteOf. cbv zeta.
  assert (Ha : nonneg (silhouetteA data clusters i point)).
  { unfold silhouetteA. cbv zeta.
    destruct (0 <? length _)%nat eqn:E; [|exact (Qle_refl 0)].
    apply (meanDistance_nonneg d); [exact Hpoint | by apply filteri_Forall |].
    apply Nat.ltb_lt in E. intros Hnil. rewrite Hnil in E. cbn in E. lia. }
  assert (Hb : silhouetteB data clusters i point = PosInf \/
               nonneg (silhouetteB data clusters i point)).
  { unfold silhouetteB. cbv zeta. apply Math_min_nonneg.
    change (map ?f ?l) with (f <$> l). apply Forall_fmap, Forall_forall.
    intros c _. unfold compose.
    destruct (0 <? length _)%nat eqn:E; [right|by left].
    apply (meanDistance_nonneg d); [exact Hpoint | by apply inCluster_Forall |].
    apply Nat.ltb_lt in E. intros Hnil. rewrite Hnil in E. cbn in E. lia. }
  destruct (silhouetteA data clusters i point) as [| | |a]; try done.
  destruct Hb as [->|Hb]; [done|].
  destruct (silhouetteB data clusters i point) as [| | |b]; try done.
  by apply silhouette_quotient.
Qed.

(** A sum of [n] silhouette values is [NaN] or within [n] of where it
    started. *)
Lemma foldl_add_silhouette (l : list number) (c : Q) :
  Forall silhouetteValue l ->
  foldl (fun sum x => add sum (id x)) (Fin c) l = NaN \/
  exists t, foldl (fun sum x => add sum (id x)) (Fin c) l = Fin t /\
            (c - inject_Z (Z.of_nat (length l)) <= t
             <= c + inject_Z (Z.of_nat (length l)))%Q.
Proof.
  intros Hall. revert c. induction Hall as [|x l Hx _ IH]; intros c.
  - right. exists c. split; [reflexivity|].
    change (inject_Z (Z.of_nat (@length number []))) with 0%Q. lra.
  - cbn [foldl id]. destruct x as [| | |q]; try done.
    + left. cbn [add]. apply (foldl_add_NaN id).
    + cbn [add]. unfold fin. destruct (IH (Qred (c + q))) as [H|(t & Ht & Hb)];
        [by left|right].
      exists t. split; [exact Ht|]. rewrite Qred_correct in Hb.
      cbn [length]. rewrite Nat2Z.inj_succ. unfold Z.succ.
      rewrite inject_Z_plus. change (inject_Z 1) with 1%Q. cbn in Hx. lra.
Qed.

(** X13: on finite points of one dimension the silhouette of every point,
    and the score of the whole, is [NaN] or a number between -1 and 1,
    whatever the cluster indices; the score of at most one point is 0. *)
Theorem silhouette_range (d : nat) (data : list (list number))
    (clusters : list nat) :
  Forall (finitePoint d) data ->
  (forall i point, data !! i = Some point ->
     silhouetteValue (silhouetteOf data clusters i point)) /\
  silhouetteValue (calculateSilhouetteScore data clusters) /\
  ((length data <= 1)%nat -> calculateSilhouetteScore data clusters = Fin 0).
Proof.
  intros Hdata.
  assert (Hof : forall i point, data !! i = Some point ->
            silhouetteValue (silhouetteOf data clusters i point)).
  { intros i point Hi. apply (silhouetteOf_range d); [exact Hdata|].
    by eapply Forall_lookup_1 in Hdata. }
  split; [exact Hof|].
  unfold calculateSilhouetteScore.
  destruct (length data <=? 1)%nat eqn:E.
  { split; [cbn; lra | reflexivity]. }
  apply Nat.leb_gt in E. split; [|lia]. cbv zeta.
  assert (Hall : Forall silhouetteValue (imap (silhouetteOf data clusters) data)).
  { apply Forall_forall. intros x Hx. apply list_elem_of_lookup in Hx as [i Hi].
    rewrite list_lookup_imap in Hi.
    destruct (data !! i) as [point|] eqn:Ep; [|discriminate].
    cbv [fmap option_fmap option_map] in Hi. injection Hi as <-. by apply Hof. }
  unfold sum_by.
  destruct (foldl_add_silhouette _ 0 Hall) as [->|(t & -> & Hb)]; [done|].
  rewrite length_imap in *. unfold of_nat, div.
  assert (Hpos : (0 < inject_Z (Z.of_nat (length data)))%Q).
  { change 0%Q with (inject_Z 0). rewrite <- Zlt_Qlt. lia. }
  destruct (Qzero_b _) eqn:Ez.
  { apply Qzero_b_iff in Ez. lra. }
  cbn. rewrite Qred_correct. split.
  - apply Qle_shift_div_l; lra.
  - apply Qle_shift_div_r; lra.
Qed.

Lemma silhouette_range_witness :
  silhouetteValue
    (calculateSilhouetteScore (normalizeData scenarioA) [0; 1; 0; 1]).
Proof.
  destruct (silhouette_range 3 (normalizeData scenarioA) [0; 1; 0; 1])
    as (_ & H & _); [repeat constructor | exact H].
Defined.

(** ** Metric aggregator: the records and their values *)

Section AggregatorValues.

Variable Date_getTime : string -> number.

Lemma metricsOfCustomer_spec (orders : list Order) (currentDate : number)
    (c : Customer) :
  metricsOfCustomer Date_getTime (groupOrdersByCustomer orders) currentDate c =
  if decide (hasOrders orders (Cus.id c)) then
    let metrics :=
      calculateCustomerMetrics Date_getTime (ordersOf (Cus.id c) orders)
                               currentDate in
    Some {| user_id := Cus.id c;
            recency := Cust.recency metrics;
            frequency := Cust.frequency metrics;
            monetary := Cust.monetary metrics;
            rfm_score := "" |}
  else None.
Proof.
  unfold metricsOfCustomer, hasOrders. rewrite groupOrdersByCustomer_lookup.
  destruct (bool_decide (Cus.id c = ""%string)) eqn:E.
  - apply bool_decide_eq_true in E. rewrite decide_False; [reflexivity|].
    intros [? _]. contradiction.
  - apply bool_decide_eq_false in E.
    destruct (ordersOf (Cus.id c) orders) as [|o l] eqn:El.
    + rewrite decide_False; [reflexivity|]. intros [_ H]. by apply H.
    + rewrite decide_True; [reflexivity|]. split; [exact E | done].
Qed.


(** X14: no identifier of a customer or of an order naming a property that
    objects inherit, the aggregation lists, in the order of the customers
    and without merging customers listed twice, exactly the customers that
    have an identifier and at least one order; every record has an empty
    score. *)
Theorem aggregator_listing (currentDate : number) (customers : list Customer)
    (orders : list Order) :
  Forall (fun c => ownKey (Cus.id c)) customers ->
  Forall (fun o => ownKey (o_user_id o)) orders ->
  let output :=
    calculateMetricsForCustomers Date_getTime currentDate customers orders in
  user_id <$> output = filter (hasOrders orders) (Cus.id <$> customers) /\
  Forall (fun m => rfm_score m = ""%string) output /\
  (length output <= length customers)%nat.
Proof.
  intros _ _. unfold calculateMetricsForCustomers. cbv zeta.
  induction customers as [|c customers (IH1 & IH2 & IH3)].
  - split; [reflexivity|]. split; [constructor | reflexivity].
  - cbn [omap list_omap fmap list_fmap].
    change (list_omap _ _ ?f customers) with (omap f customers).
    change (list_fmap _ _ ?f customers) with (f <$> customers).
    rewrite metricsOfCustomer_spec, filter_cons.
    destruct (decide (hasOrders orders (Cus.id c))) as [H|H]; cbv zeta; cbv iota.
    + rewrite fmap_cons, IH1. cbn [user_id length].
      split; [reflexivity|]. split; [by constructor | lia].
    + split; [exact IH1|]. split; [exact IH2 | cbn [length]; lia].
Qed.

Lemma monetary_sum (orders : list Order) (c : Q) :
  Forall (fun o => is_fin (total o) = true) orders ->
  exists t,
    foldl (fun sum order => add sum (or_zero (total order))) (Fin c) orders
      = Fin t /\
    (t == c + qsum (total <$> orders))%Q.
Proof.
  intros Hall. revert c. induction Hall as [|o orders Ho _ IH]; intros c.
  - exists c. split; [reflexivity|].
    change (qsum (total <$> [])) with 0%Q. lra.
  - cbn [foldl fmap list_fmap qsum foldr].
    change (foldr _ 0%Q (list_fmap _ _ total orders)) with (qsum (total <$> orders)).
    destruct (total o) as [| | |q]; try discriminate. cbn [or_zero].
    destruct (Qzero_b q) eqn:E.
    + apply Qzero_b_iff in E. cbn [add]. unfold fin.
      destruct (IH (Qred (c + 0))) as (t & Ht & Hs). exists t.
      split; [exact Ht|]. unfold qsum in Hs |- *. rewrite Hs, Qred_correct. lra.
    + cbn [add]. unfold fin.
      destruct (IH (Qred (c + q))) as (t & Ht & Hs). exists t.
      split; [exact Ht|]. unfold qsum in Hs |- *. rewrite Hs, Qred_correct. lra.
Qed.

(** X15: for a customer with at least one order, the orders having valid
    dates and finite totals: the last order is the latest date; when it is
    not after the current date the recency is the number of whole days
    between the two; the monetary value is the sum of the totals, and 0
    when that sum is negative. *)
Theorem customer_metrics_values (orders : list Order) (now : Q) :
  orders <> [] ->
  Forall (fun o => validOrder Date_getTime o = true) orders ->
  let metrics := calculateCustomerMetrics Date_getTime orders (Fin now) in
  exists last m : Q,
    (exists o, o ∈ orders /\ Date_getTime (created_at o) = Fin last) /\
    (forall o, o ∈ orders ->
       le (Date_getTime (created_at o)) (Fin last) = true) /\
    ((last <= now)%Q ->
     exists d : Z,
       Cust.recency metrics = Fin (inject_Z d) /\ (0 <= d)%Z /\
       (inject_Z d * 86400000 <= now - last)%Q /\
       (now - last < (inject_Z d + 1) * 86400000)%Q) /\
    Cust.monetary metrics = Fin m /\
    ((0 <= qsum (total <$> orders))%Q -> (m == qsum (total <$> orders))%Q) /\
    ((qsum (total <$> orders) <= 0)%Q -> (m == 0)%Q).
Proof.
  intros Hne Hvalid. cbv zeta. unfold calculateCustomerMetrics.
  cbn [Cust.recency Cust.monetary].
  change (map ?f orders) with (f <$> orders).
  destruct (finite_list ((fun order => Date_getTime (created_at order)) <$> orders))
    as [qs Hqs].
  { apply Forall_fmap. eapply Forall_impl; [exact Hvalid|].
    intros o Ho. by apply andb_prop in Ho as [? _]. }
  rewrite Hqs.
  destruct (Math_max_Fin qs) as (last & -> & Hin & Hmax).
  { intros ->. destruct orders; [congruence | discriminate]. }
  destruct (monetary_sum orders 0) as (t & -> & Ht).
  { eapply Forall_impl; [exact Hvalid|]. intros o Ho.
    by apply andb_prop in Ho as [_ ?]. }
  exists last, (if Qlt_b 0 t then t else 0%Q).
  split; [|split; [|split; [|split; [|split]]]].
  - assert (Hd : Fin last ∈ Fin <$> qs) by (by apply elem_of_Fin_fmap).
    rewrite <- Hqs in Hd. apply list_elem_of_fmap in Hd as (o & Ho & Hoin).
    exists o. by split.
  - intros o Ho.
    assert (Hd : Date_getTime (created_at o) ∈ Fin <$> qs).
    { rewrite <- Hqs.
      by apply (list_elem_of_fmap_2 (fun order => Date_getTime (created_at order))). }
    apply list_elem_of_fmap in Hd as (q & -> & Hq). apply le_Fin. by apply Hmax.
  - intros Hle. cbn [timeValue sub]. unfold msPerDay, fin.
    set (x := Qred (Qred (now - last) / (1000 * 60 * 60 * 24))).
    assert (Hdiv : div (Fin (Qred (now - last))) (Fin (1000 * 60 * 60 * 24)) = Fin x)
      by reflexivity.
    rewrite Hdiv. cbn [Math_floor].
    assert (Hx : (x == (now - last) / 86400000)%Q).
    { unfold x. rewrite !Qred_correct. reflexivity. }
    assert (Hx0 : (0 <= x)%Q).
    { rewrite Hx. apply Qle_shift_div_l; [reflexivity | lra]. }
    assert (Hd0 : (0 <= Qfloor x)%Z).
    { rewrite <- (Qfloor_Z 0). by apply Qfloor_resp_le. }
    exists (Qfloor x).
    pose proof (Qfloor_le x) as Hfl. pose proof (Qlt_floor x) as Hlt.
    rewrite inject_Z_plus in Hlt. change (inject_Z 1) with 1%Q in Hlt.
    split; [|split; [exact Hd0|split]].
    + cbn [max2 lt]. destruct (Qlt_b 0 (inject_Z (Qfloor x))) eqn:E; [reflexivity|].
      apply Qlt_b_false in E. change 0%Q with (inject_Z 0) in E.
      rewrite <- Zle_Qle in E. by replace (Qfloor x) with 0%Z by lia.
    + assert (Heq : ((now - last) / 86400000 * 86400000 == now - last)%Q) by field.
      assert (H1 : (inject_Z (Qfloor x) <= (now - last) / 86400000)%Q) by lra.
      apply (Qmult_le_compat_r _ _ 86400000) in H1; [|discriminate]. lra.
    + assert (Heq : ((now - last) / 86400000 * 86400000 == now - last)%Q) by field.
      assert (H1 : ((now - last) / 86400000 < inject_Z (Qfloor x) + 1)%Q) by lra.
      apply (Qmult_lt_compat_r _ _ 86400000) in H1; [|reflexivity]. lra.
  - cbn [max2 lt]. by destruct (Qlt_b 0 t).
  - intros Hs. destruct (Qlt_b 0 t) eqn:E.
    + rewrite Ht. lra.
    + apply Qlt_b_false in E. lra.
  - intros Hs. destruct (Qlt_b 0 t) eqn:E; [|reflexivity].
    apply Qlt_b_iff in E. lra.
Qed.

End AggregatorValues.

Lemma ownKey_decide (u : string) :
  bool_decide (u ∉ objectPrototypeNames) = true -> ownKey u.
Proof. apply bool_decide_eq_true_1. Qed.

Lemma aggregator_listing_witness :
  user_id <$> calculateMetricsForCustomers demoDate demoNow demoCustomers
                                          demoOrders
  = ["u1"; "u2"]%string.
Proof.
  destruct (aggregator_listing demoDate demoNow demoCustomers demoOrders)
    as (H & _).
  - repeat (apply Forall_cons; split; [by apply ownKey_decide|]).
    apply Forall_nil_2.
  - repeat (apply Forall_cons; split; [by apply ownKey_decide|]).
    apply Forall_nil_2.
  - rewrite H. reflexivity.
Defined.

Lemma customer_metrics_values_witness :
  exists last m : Q,
    (exists o, o ∈ ordersOf "u1" demoOrders /\
               demoDate (created_at o) = Fin last) /\
    Cust.monetary
      (calculateCustomerMetrics demoDate (ordersOf "u1" demoOrders) demoNow)
      = Fin m.
Proof.
  destruct (customer_metrics_values demoDate (ordersOf "u1" demoOrders)
              1710115200000%Q)
    as (last & m & Ho & _ & _ & Hm & _);
    [discriminate | repeat constructor |].
  exists last, m. split; [exact Ho | exact Hm].
Defined.

(** ** Entry points of the calculator *)







Lemma elem_of_idSet (ids : list string) (u : string) :
  u ∈ idSet ids <-> u <> ""%string /\ u ∈ ids.
Proof.
  unfold idSet. rewrite elem_of_list_to_set, list_elem_of_filter. done.
Qed.

Lemma pushIssue_length (st : list string * list string) (a b : string) :
  length st.1 = length st.2 ->
  length (pushIssue st a b).1 = length (pushIssue st a b).2 /\
  (length (pushIssue st a b).1 =? 0)%nat = false.
Proof.
  intros H. unfold pushIssue. cbn [fst snd]. rewrite !length_app. cbn [length].
  split; [lia|]. apply Nat.eqb_neq. lia.
Qed.



(** ** Analysis service *)






Lemma distribution_lookup (l : list ClusteredRFMMetrics) (d : gmap string nat)
    (s : string) :
  foldl (fun distribution metric =>
           <[Clustered.segment metric :=
               default 0 (distribution !! Clustered.segment metric) + 1]>
             distribution) d l !! s =
  if decide (segmentCount s l = 0) then d !! s
  else Some (default 0 (d !! s) + segmentCount s l).
Proof.
  revert d. unfold segmentCount.
  induction l as [|x l IH]; intros d; [reflexivity|].
  cbn [foldl]. rewrite IH, filter_cons.
  destruct (decide (Clustered.segment x = s)) as [->|Hne].
  - rewrite lookup_insert_eq. cbn [length default from_option id].
    destruct (decide (S (length _) = 0)) as [?|_]; [lia|].
    destruct (decide (length _ = 0)) as [->|_]; f_equal; lia.
  - rewrite lookup_insert_ne by exact Hne. reflexivity.
Qed.

Lemma distributionTotal_incr (d : gmap string nat) (s : string) :
  distributionTotal (<[s := default 0 (d !! s) + 1]> d) = distributionTotal d + 1.
Proof.
  unfold distributionTotal.
  assert (Hcomm : forall z1 z2 y : nat, z1 + (z2 + y) = z2 + (z1 + y))
    by (intros; lia).
  destruct (d !! s) as [n|] eqn:E.
  - rewrite <- insert_delete_eq.
    rewrite map_fold_insert_L; [|intros; apply Hcomm | apply lookup_delete_eq].
    rewrite (map_fold_delete_L _ _ s n d); [|intros; apply Hcomm | exact E].
    cbn [default from_option id]. lia.
  - rewrite map_fold_insert_L; [|intros; apply Hcomm | exact E].
    cbn [default from_option id]. lia.
Qed.

(** X19: the distribution of the segments holds, for every segment, the
    number of customers of that segment, and no entry for a segment
    without customer; its counts add up to the number of customers, the
    [total_customers] of the analysis document. *)
Theorem segment_distribution_counts (result : ClusteringResult) :
  (forall s,
     segment_distribution (analysisData result) !! s =
     if decide (segmentCount s (clusteredMetrics result) = 0) then None
     else Some (segmentCount s (clusteredMetrics result))) /\
  distributionTotal (segment_distribution (analysisData result))
    = total_customers (analysisData result).
Proof.
  unfold analysisData. cbn [segment_distribution total_customers].
  unfold calculateSegmentDistribution. split.
  - intros s. rewrite distribution_lookup, lookup_empty. reflexivity.
  - generalize (clusteredMetrics result). intros l.
    assert (H : forall d,
              distributionTotal
                (foldl (fun distribution metric =>
                          <[Clustered.segment metric :=
                              default 0 (distribution !! Clustered.segment metric)
                              + 1]> distribution) d l)
              = distributionTotal d + length l).
    { induction l as [|x l IH]; intros d; cbn [foldl length]; [lia|].
      rewrite IH, distributionTotal_incr. lia. }
    rewrite H. unfold distributionTotal. by rewrite map_fold_empty.
Qed.

(** X20: the segmentation is due when the query fails or finds no
    analysis; with a latest analysis of a valid date it is due exactly when
    seven whole days have passed since, and with one of an invalid date it
    is never due. *)
Theorem shouldRunSegmentation_spec (Date_getTime : string -> number)
    (currentDate : number) :
  shouldRunSegmentation Date_getTime currentDate QueryFailed = true /\
  shouldRunSegmentation Date_getTime currentDate NoAnalysis = true /\
  (forall s now last,
     currentDate = Fin now -> Date_getTime s = Fin last ->
     (shouldRunSegmentation Date_getTime currentDate (LastAnalysis s) = true <->
      (7 * 86400000 <= now - last)%Q)) /\
  (forall s, Date_getTime s = NaN ->
     shouldRunSegmentation Date_getTime currentDate (LastAnalysis s) = false).
Proof.
  split; [reflexivity|]. split; [reflexivity|]. split.
  - intros s now last -> Hs. cbn [shouldRunSegmentation]. cbv zeta. rewrite Hs.
    cbn [sub]. unfold msPerDay, fin.
    set (x := Qred (Qred (now - last) / (1000 * 60 * 60 * 24))).
    assert (Hdiv : div (Fin (Qred (now - last))) (Fin (1000 * 60 * 60 * 24)) = Fin x)
      by reflexivity.
    rewrite Hdiv. cbn [Math_floor]. unfold ge. rewrite le_Fin.
    assert (Hx : (x == (now - last) / 86400000)%Q).
    { unfold x. rewrite !Qred_correct. reflexivity. }
    assert (Heq : ((now - last) / 86400000 * 86400000 == now - last)%Q) by field.
    pose proof (Qfloor_le x) as Hfl. pose proof (Qlt_floor x) as Hlt.
    change 7%Q with (inject_Z 7). rewrite <- Zle_Qle. split.
    + intros H7.
      assert (H1 : (inject_Z 7 <= (now - last) / 86400000)%Q).
      { rewrite <- Hx. eapply Qle_trans; [|exact Hfl]. by rewrite <- Zle_Qle. }
      apply (Qmult_le_compat_r _ _ 86400000) in H1; [|discriminate].
      change (inject_Z 7) with 7%Q in *. lra.
    + intros H7. change (inject_Z 7) with 7%Q in H7.
      assert (H1 : (inject_Z 7 <= x)%Q).
      { rewrite Hx. change (inject_Z 7) with 7%Q.
        apply Qle_shift_div_l; [reflexivity | lra]. }
      rewrite <- (Qfloor_Z 7). by apply Qfloor_resp_le.
  - intros s Hs. cbn [shouldRunSegmentation]. cbv zeta. rewrite Hs.
    by destruct currentDate.
Qed.

Lemma shouldRunSegmentation_spec_witness :
  shouldRunSegmentation demoDate demoNow (LastAnalysis "2024-03-01") = true /\
  shouldRunSegmentation demoDate demoNow (LastAnalysis "yesterday") = false.
Proof.
  destruct (shouldRunSegmentation_spec demoDate demoNow) as (_ & _ & H1 & H2).
  split.
  - apply (H1 "2024-03-01"%string 1710115200000%Q 1709251200000%Q);
      [reflexivity | reflexivity | lra].
  - apply H2. reflexivity.
Defined.

(** ** The first clustering service *)

Lemma legacy_initializeCentroids_length data k r p cs p' :
  Legacy.initializeCentroids data k r p = Some (cs, p') -> length cs = k.
Proof.
  intros H. unfold Legacy.initializeCentroids in H.
  apply mapM_inv, Forall2_length in H. by rewrite length_seq in H.
Qed.

Lemma legacy_initializeCentroids_total data k r p :
  validSource r -> data <> [] ->
  exists cs p', Legacy.initializeCentroids data k r p = Some (cs, p').
Proof.
  intros Hr Hne. unfold Legacy.initializeCentroids.
  destruct (mapM_total
              (fun _ : nat =>
                 r ← Math_random;
                 let randomIndex := Math_floor (mul r (of_nat (length data))) in
                 lift (to_index randomIndex ≫= fun i => data !! i))
              (seq 0 k) r p) as (cs & p' & H & _).
  - intros _ q. unfold mbind at 1, M_bind at 1, Math_random. cbv zeta.
    destruct (first_index (r q) (length data)) as (i & Hi & Hlt); [apply Hr | |].
    { destruct data; [congruence | cbn; lia]. }
    destruct (lookup_lt_is_Some_2 data i Hlt) as [c Hc].
    rewrite Hi. cbn [mbind option_bind]. rewrite Hc. by eexists _, _.
  - eauto.
Qed.

Lemma legacy_kmeansLoop_total data k r (fuel : nat) (s : Loop) p :
  (maxIterations <= fuel + l_iterations s)%nat ->
  l_previous s = [] \/ (length (l_centroids s) <= length (l_previous s))%nat ->
  (k <= length (l_centroids s))%nat ->
  exists s' p',
    Legacy.kmeansLoop fuel data k s r p = Some (s', p') /\
    (Legacy.loopCondition s = Some true \/ length (l_centroids s) = k ->
     length (l_centroids s') = k).
Proof.
  revert s p. induction fuel as [|fuel IH]; intros s p Hfuel Hprev Hk;
    cbn [Legacy.kmeansLoop];
    destruct (centroidsConverged_total (l_centroids s) (l_previous s)
                Legacy.threshold Hprev) as [conv Hconv];
    assert (Hcond : Legacy.loopCondition s =
              Some (negb conv && (l_iterations s <? maxIterations)%nat))
      by (unfold Legacy.loopCondition; rewrite Hconv; reflexivity);
    unfold mbind at 1, M_bind at 1; rewrite Hcond; cbn [lift mret M_ret];
    destruct (negb conv && (l_iterations s <? maxIterations)%nat) eqn:E.
  - apply andb_prop in E as [_ E]. apply Nat.ltb_lt in E. lia.
  - exists s, p. split; [reflexivity|]. intros [H|H]; [congruence | exact H].
  - destruct (updateCentroids_total data (assignClusters data (l_centroids s)) k r p)
      as (cs & p1 & Hcs & Hlen).
    apply andb_prop in E as [_ E]. apply Nat.ltb_lt in E.
    set (s1 := {| l_centroids := cs; l_previous := l_centroids s;
                  l_iterations := S (l_iterations s) |}).
    destruct (IH s1 p1) as (s' & p' & H & Hfinal).
    { cbn. lia. }
    { right. cbn. lia. }
    { cbn. lia. }
    exists s', p'. split.
    + unfold mbind at 1, M_bind at 1, loopBody.
      unfold mbind at 1, M_bind at 1. rewrite Hcs. cbn [mret M_ret]. exact H.
    + intros _. apply Hfinal. right. exact Hlen.
  - exists s, p. split; [reflexivity|]. intros [H|H]; [congruence | exact H].
Qed.

Lemma legacy_labels (metrics : list RFMMetrics) (clusters : list nat) :
  length (Legacy.generateClusterLabels metrics clusters) = 4 /\
  Forall (fun label => label ∈ legacyLabels)
         (Legacy.generateClusterLabels metrics clusters).
Proof.
  unfold Legacy.generateClusterLabels. split; [by rewrite length_map|].
  change (map ?f ?l) with (f <$> l). apply Forall_fmap, Forall_forall.
  intros i _. unfold compose, legacyLabels.
  destruct (inCluster clusters i metrics); cbv zeta.
  { repeat (first [by left | right]). }
  repeat (destruct (_ && _) || destruct (_ || _));
    repeat (first [by left | right]).
Qed.

Lemma closestFrom_below point (centroids : list (list number)) :
  (closestFrom point 0 centroids PosInf 0 < Nat.max 1 (length centroids))%nat.
Proof.
  destruct (closestFrom_range point centroids 0 PosInf 0) as [->|H]; lia.
Qed.

(** The result of the first service in terms of the final state of its
    loop. *)
Lemma legacy_inv metrics k r p res p' :
  metrics <> [] ->
  Legacy.performKMeansClustering metrics k r p = Some (res, p') ->
  exists centroids,
    length centroids = k /\
    let finalClusters := assignClusters (normalizeData metrics) centroids in
    let clusterLabels := Legacy.generateClusterLabels metrics finalClusters in
    res =
      {| LResult.clusteredMetrics :=
           imap (fun index metric =>
                   {| LClustered.user_id := user_id metric;
                      LClustered.recency := recency metric;
                      LClustered.frequency := frequency metric;
                      LClustered.monetary := monetary metric;
                      LClustered.rfm_score := rfm_score metric;
                      LClustered.cluster_id := finalClusters !! index;
                      LClustered.segment :=
                        finalClusters !! index ≫= fun c => clusterLabels !! c |})
                metrics;
         LResult.centers :=
           imap (fun index center =>
                   {| LCenter.cluster_id := index;
                      LCenter.recency_center := idx center 0;
                      LCenter.frequency_center := idx center 1;
                      LCenter.monetary_center := idx center 2;
                      LCenter.segment_label := clusterLabels !! index |})
                centroids |}.
Proof.
  intros Hne H. unfold Legacy.performKMeansClustering in H.
  destruct (length metrics =? 0)%nat eqn:E.
  { apply Nat.eqb_eq in E. by destruct metrics. }
  cbv zeta in H.
  apply bind_Some in H as (c0 & p0 & Hinit & H).
  apply bind_Some in H as (s & p1 & Hloop & H).
  apply ret_Some in H as [<- _].
  exists (l_centroids s). split; [|reflexivity].
  apply legacy_initializeCentroids_length in Hinit.
  destruct (legacy_kmeansLoop_total (normalizeData metrics) k r maxIterations
              {| l_centroids := c0; l_previous := []; l_iterations := 0 |} p0)
    as (s' & p'' & Hs' & Hlen);
    [cbn [l_iterations]; lia | by left | cbn [l_centroids]; lia |].
  rewrite Hs' in Hloop. injection Hloop as <- _.
  apply Hlen. right. exact Hinit.
Qed.

(** X21: the first service returns on every population when the draws are
    in [[0, 1)].  Its result has one record for each customer and, on a
    population that is not empty, [k] centers numbered by their position;
    a customer of a cluster index below 4 has one of the five labels as
    its segment, and a customer or a center of a cluster index from 4 on
    has none: with more than four clusters segments are left undefined. *)
Theorem legacy_clustering (metrics : list RFMMetrics) (k : nat)
    (r : RandomSource) (p : nat) :
  (forall res p',
     Legacy.performKMeansClustering metrics k r p = Some (res, p') ->
     length (LResult.clusteredMetrics res) = length metrics /\
     (metrics <> [] -> length (LResult.centers res) = k) /\
     (forall i c, LResult.clusteredMetrics res !! i = Some c ->
        exists n, LClustered.cluster_id c = Some n /\
          (n < Nat.max 1 k)%nat /\
          ((n < 4)%nat ->
           exists label, LClustered.segment c = Some label /\
                         label ∈ legacyLabels) /\
          ((4 <= n)%nat -> LClustered.segment c = None)) /\
     (forall j center, LResult.centers res !! j = Some center ->
        LCenter.cluster_id center = j /\
        (LCenter.segment_label center = None <-> (4 <= j)%nat))) /\
  (validSource r ->
   exists res p', Legacy.performKMeansClustering metrics k r p = Some (res, p')).
Proof.
  split.
  - intros res p' H.
    destruct (decide (metrics = [])) as [->|Hne].
    { cbn in H. injection H as <- _. cbn.
      split; [reflexivity|]. split; [done|]. split; intros ? ? [=]. }
    apply legacy_inv in H as (centroids & Hlen & ->); [|exact Hne].
    cbv zeta. cbn [LResult.clusteredMetrics LResult.centers].
    set (finalClusters := assignClusters (normalizeData metrics) centroids).
    pose proof (legacy_labels metrics finalClusters) as [Hl4 Hvoc].
    split; [by rewrite length_imap|]. split; [by rewrite length_imap|]. split.
    + intros i c Hc. rewrite list_lookup_imap in Hc.
      destruct (metrics !! i) as [metric|] eqn:Em; [|discriminate].
      cbv [fmap option_fmap option_map] in Hc. injection Hc as <-.
      cbn [LClustered.cluster_id LClustered.segment].
      assert (Hdata : is_Some (normalizeData metrics !! i)).
      { apply lookup_lt_is_Some. rewrite normalizeData_length.
        by eapply lookup_lt_Some. }
      destruct Hdata as [point Hpoint].
      assert (Hn : finalClusters !! i
                   = Some (closestFrom point 0 centroids PosInf 0)).
      { unfold finalClusters, assignClusters.
        change (map ?f ?l) with (f <$> l). by rewrite list_lookup_fmap, Hpoint. }
      rewrite Hn. exists (closestFrom point 0 centroids PosInf 0).
      split; [reflexivity|]. cbn [mbind option_bind].
      split; [rewrite <- Hlen; apply closestFrom_below|]. split.
      * intros H4.
        destruct (lookup_lt_is_Some_2
                    (Legacy.generateClusterLabels metrics finalClusters)
                    (closestFrom point 0 centroids PosInf 0)) as [label Hlabel];
          [lia|].
        exists label. split; [exact Hlabel|].
        by eapply Forall_lookup_1 in Hvoc.
      * intros H4. apply lookup_ge_None_2. lia.
    + intros j center Hc. rewrite list_lookup_imap in Hc.
      destruct (centroids !! j) as [c|] eqn:Ec; [|discriminate].
      cbv [fmap option_fmap option_map] in Hc. injection Hc as <-.
      cbn [LCenter.cluster_id LCenter.segment_label].
      split; [reflexivity|]. rewrite lookup_ge_None. lia.
  - intros Hr. unfold Legacy.performKMeansClustering.
    destruct (length metrics =? 0)%nat eqn:E; [by eexists _, _|].
    cbv zeta.
    assert (Hne : normalizeData metrics <> []).
    { intros Hnil. apply (f_equal length) in Hnil.
      rewrite normalizeData_length in Hnil. cbn in Hnil.
      rewrite Hnil in E. discriminate E. }
    destruct (legacy_initializeCentroids_total (normalizeData metrics) k r p Hr Hne)
      as (c0 & p0 & Hinit).
    pose proof (legacy_initializeCentroids_length _ _ _ _ _ _ Hinit) as Hlen.
    destruct (legacy_kmeansLoop_total (normalizeData metrics) k r maxIterations
                {| l_centroids := c0; l_previous := []; l_iterations := 0 |} p0)
      as (s' & p'' & Hs' & _);
      [cbn [l_iterations]; lia | by left | cbn [l_centroids]; lia |].
    unfold mbind at 1, M_bind at 1. rewrite Hinit.
    unfold mbind at 1, M_bind at 1. rewrite Hs'. by eexists _, _.
Qed.

Lemma legacy_clustering_witness :
  exists res p',
    Legacy.performKMeansClustering scenarioA 4 demoSource 0 = Some (res, p') /\
    length (LResult.clusteredMetrics res) = 4.
Proof.
  destruct (legacy_clustering scenarioA 4 demoSource 0) as [Hshape Htotal].
  destruct (Htotal demoSource_valid) as (res & p' & H).
  exists res, p'. split; [exact H|].
  destruct (Hshape res p' H) as (Hlen & _). exact Hlen.
Defined.

(** ** Groups of orders, fallback names and centers *)

(** X22: no order carrying an identifier that names a property objects
    inherit, the grouping has a group for exactly the identifiers that some
    order carries, the empty identifier apart; the group of a customer is
    the list of its orders in the order of the input, never empty, and the
    number of groups is the number of distinct identifiers.  What is read
    under an inherited name is outside the statement. *)
Theorem groupOrdersByCustomer_spec (orders : list Order) :
  Forall (fun o => ownKey (o_user_id o)) orders ->
  (forall u, ownKey u ->
     groupOrdersByCustomer orders !! u =
     if decide (hasOrders orders u) then Some (ordersOf u orders) else None) /\
  (forall u l, ownKey u -> groupOrdersByCustomer orders !! u = Some l ->
     l <> [] /\ Forall (fun o => o_user_id o = u) l /\ sublist l orders) /\
  dom (groupOrdersByCustomer orders) = idSet (o_user_id <$> orders) /\
  size (groupOrdersByCustomer orders) = size (idSet (o_user_id <$> orders)).
Proof.
  intros _.
  assert (Hlookup : forall u,
            groupOrdersByCustomer orders !! u =
            if decide (hasOrders orders u) then Some (ordersOf u orders)
            else None).
  { intros u. rewrite groupOrdersByCustomer_lookup. unfold hasOrders.
    destruct (bool_decide (u = ""%string)) eqn:E.
    - apply bool_decide_eq_true in E. rewrite decide_False; [reflexivity|].
      intros [? _]. contradiction.
    - apply bool_decide_eq_false in E.
      destruct (ordersOf u orders) as [|o l] eqn:El.
      + rewrite decide_False; [reflexivity|]. intros [_ H]. by apply H.
      + rewrite decide_True; [reflexivity|]. split; [exact E | done]. }
  assert (Hdom : dom (groupOrdersByCustomer orders) = idSet (o_user_id <$> orders)).
  { apply set_eq. intros u. rewrite elem_of_dom, Hlookup, elem_of_idSet.
    unfold hasOrders, ordersOf.
    destruct (decide _) as [[Hne Hlen]|Hno].
    - split; [intros _|by eexists]. split; [exact Hne|].
      destruct (filter _ orders) as [|o l] eqn:E; [done|].
      assert (Ho : o ∈ filter (fun o => o_user_id o = u) orders)
        by (rewrite E; by left).
      apply list_elem_of_filter in Ho as [<- Ho].
      by apply list_elem_of_fmap_2.
    - split; [by intros [? [=]]|]. intros [Hne Hin]. exfalso. apply Hno.
      split; [exact Hne|].
      apply list_elem_of_fmap in Hin as (o & -> & Ho).
      assert (Hof : o ∈ filter (fun o' => o_user_id o' = o_user_id o) orders)
        by (by apply list_elem_of_filter).
      destruct (filter _ orders); [by apply elem_of_nil in Hof | done]. }
  split; [intros u _; apply Hlookup|]. split; [|split; [exact Hdom|]].
  - intros u l _ Hl. rewrite Hlookup in Hl.
    destruct (decide (hasOrders orders u)) as [[_ Hlen]|]; [|discriminate].
    injection Hl as <-. split; [by destruct (ordersOf u orders)|].
    split; [|apply sublist_filter].
    apply Forall_forall. intros o Ho. unfold ordersOf in Ho.
    by apply list_elem_of_filter in Ho as [? _].
  - by rewrite <- Hdom, size_dom.
Qed.

Lemma groupOrdersByCustomer_spec_witness :
  exists l, groupOrdersByCustomer demoOrders !! "u1"%string = Some l /\ l <> [].
Proof.
  destruct (groupOrdersByCustomer_spec demoOrders) as (_ & Hg & _).
  { repeat (apply Forall_cons; split; [by apply ownKey_decide|]).
    apply Forall_nil_2. }
  destruct (groupOrdersByCustomer demoOrders !! "u1"%string) as [l|] eqn:E;
    [|vm_compute in E; discriminate].
  exists l. split; [reflexivity|].
  assert (Hu : ownKey "u1") by (by apply ownKey_decide).
  by destruct (Hg "u1"%string l Hu E).
Defined.

(** X23: a clustered metric takes its cluster index from the assignment at
    its position.  Without an index it is named [Cluster undefined]; with
    an index that no center carries it is named after the index; with an
    index carried by a center, the indices of the centers being distinct,
    it takes the label of that center when the label is not empty. *)
Theorem createClusteredMetrics_segment (metrics : list RFMMetrics)
    (clusters : list nat) (rankedClusters : list ClusterCenter)
    (i : nat) (c : ClusteredRFMMetrics) :
  createClusteredMetrics metrics clusters rankedClusters !! i = Some c ->
  Clustered.cluster_id c = clusters !! i /\
  (clusters !! i = None ->
   Clustered.segment c = "Cluster undefined"%string) /\
  (forall n, clusters !! i = Some n ->
     n ∉ Center.cluster_id <$> rankedClusters ->
     Clustered.segment c = ("Cluster " +:+ pretty n)%string) /\
  (forall n center, clusters !! i = Some n ->
     NoDup (Center.cluster_id <$> rankedClusters) ->
     center ∈ rankedClusters -> Center.cluster_id center = n ->
     Center.segment_label center <> ""%string ->
     Clustered.segment c = Center.segment_label center).
Proof.
  intros Hc. unfold createClusteredMetrics in Hc. cbv zeta in Hc.
  rewrite list_lookup_imap in Hc.
  destruct (metrics !! i) as [metric|] eqn:Em; [|discriminate].
  cbv [fmap option_fmap option_map] in Hc. injection Hc as <-.
  cbn [Clustered.cluster_id Clustered.segment].
  split; [reflexivity|]. split; [|split].
  - intros ->. reflexivity.
  - intros n -> Hn. cbn [mbind option_bind].
    rewrite labelMap_other by exact Hn. by rewrite lookup_empty.
  - intros n center -> Hnd Hin <- Hlabel. cbn [mbind option_bind].
    rewrite labelMap_lookup by assumption.
    by rewrite bool_decide_eq_false_2.
Qed.

Lemma createClusteredMetrics_segment_witness :
  exists c,
    createClusteredMetrics scenarioA [0; 1] [] !! 2 = Some c /\
    Clustered.segment c = "Cluster undefined"%string.
Proof.
  destruct (createClusteredMetrics scenarioA [0; 1] [] !! 2) as [c|] eqn:E;
    [|vm_compute in E; discriminate].
  exists c. split; [reflexivity|].
  destruct (createClusteredMetrics_segment scenarioA [0; 1] [] 2 c E)
    as (_ & H & _).
  apply H. reflexivity.
Defined.

Lemma filter_from_imap {A B} (f : nat -> A -> B) (g : B -> A)
    (P : nat -> bool) (Q : B -> Prop) `{!forall b, Decision (Q b)}
    (l : list A) (offset : nat) :
  (forall j x, g (f j x) = x) ->
  (forall j x, Q (f j x) <-> P j = true) ->
  filter_from (fun j _ => P j) offset l =
  g <$> filter Q (imap (fun j => f (offset + j)) l).
Proof.
  intros Hg HQ. revert offset.
  induction l as [|x l IH]; intros offset; [reflexivity|].
  cbn [filter_from imap]. rewrite filter_cons, Nat.add_0_r.
  rewrite (imap_ext _ (fun j => f (S offset + j))).
  2:{ intros j y _. unfold compose.
      by replace (offset + S j) with (S offset + j) by lia. }
  rewrite (IH (S offset)).
  destruct (P offset) eqn:E.
  - rewrite decide_True by (by apply HQ). by rewrite fmap_cons, Hg.
  - rewrite decide_False; [reflexivity|]. rewrite HQ. congruence.
Qed.

(** The members of a cluster, read from the clustered metrics. *)
Lemma inCluster_members (metrics : list RFMMetrics) (clusters : list nat)
    (ranked : list ClusterCenter) (n : nat) :
  inCluster clusters n metrics =
  metricOf <$> filter (fun c => Clustered.cluster_id c = Some n)
                      (createClusteredMetrics metrics clusters ranked).
Proof.
  unfold inCluster, filteri, createClusteredMetrics. cbv zeta.
  set (labelMap := foldl _ ∅ ranked). clearbody labelMap.
  apply (filter_from_imap
           (fun index metric =>
              {| Clustered.user_id := user_id metric;
                 Clustered.recency := recency metric;
                 Clustered.frequency := frequency metric;
                 Clustered.monetary := monetary metric;
                 Clustered.rfm_score := rfm_score metric;
                 Clustered.cluster_id := clusters !! index;
                 Clustered.segment :=
                   match clusters !! index ≫= fun n0 => labelMap !! n0 with
                   | Some label =>
                       if bool_decide (label = ""%string)
                       then clusterName (clusters !! index) else label
                   | None => clusterName (clusters !! index)
                   end |})
           metricOf
           (fun index => bool_decide (clusters !! index = Some n))
           (fun c => Clustered.cluster_id c = Some n)).
  - by intros j [].
  - intros j x. cbn [Clustered.cluster_id]. by rewrite bool_decide_eq_true.
Qed.

Lemma sum_by_metricOf (f : RFMMetrics -> number) (l : list ClusteredRFMMetrics) :
  sum_by f (metricOf <$> l) = sum_by (fun c => f (metricOf c)) l.
Proof. unfold sum_by. by rewrite foldl_fmap. Qed.

(** X24: every center of a result of the pipeline reports, in the scale of
    the input, the mean recency, frequency and monetary value of the
    customers of its cluster, and 0 on each axis for a cluster without
    customer. *)
Theorem centers_are_means (metrics : list RFMMetrics) (k : nat)
    (ds : option DataStats) (r : RandomSource) (p : nat)
    (res : ClusteringResult) (p' : nat) (center : ClusterCenter) :
  performKMeansClustering metrics k ds r p = Some (res, p') ->
  center ∈ centers res ->
  let members :=
    filter (fun c => Clustered.cluster_id c = Some (Center.cluster_id center))
           (clusteredMetrics res) in
  (members = [] ->
   Center.recency_center center = Fin 0 /\
   Center.frequency_center center = Fin 0 /\
   Center.monetary_center center = Fin 0) /\
  (members <> [] ->
   Center.recency_center center =
     div (sum_by Clustered.recency members) (of_nat (length members)) /\
   Center.frequency_center center =
     div (sum_by Clustered.frequency members) (of_nat (length members)) /\
   Center.monetary_center center =
     div (sum_by Clustered.monetary members) (of_nat (length members))).
Proof.
  intros H Hcenter.
  destruct (decide (metrics = [])) as [->|Hne].
  { cbn in H. injection H as <- _. by apply elem_of_nil in Hcenter. }
  apply performKMeansClustering_inv in H as (run & w & _ & _ & ->); [|exact Hne].
  cbv zeta. cbn [centers clusteredMetrics] in *.
  set (clusters := KMeans.clusters run) in *.
  set (ranked := rankClustersAndAssignLabels
                   (calculateClusterStatistics metrics clusters k)) in *.
  assert (Hkey : centerKey center ∈
                 statsKey <$> calculateClusterStatistics metrics clusters k).
  { rewrite <- ranked_keys_perm. by apply list_elem_of_fmap_2. }
  apply list_elem_of_fmap in Hkey as (s & Hkey & Hs).
  unfold calculateClusterStatistics in Hs.
  change (map ?f (seq 0 k)) with (f <$> seq 0 k) in Hs.
  apply list_elem_of_fmap in Hs as (n & -> & _).
  unfold centerKey, statsKey in Hkey.
  pose proof (inCluster_members metrics clusters ranked n) as Hmem.
  set (members :=
         filter (fun c => Clustered.cluster_id c = Some n)
                (createClusteredMetrics metrics clusters ranked)) in *.
  assert (Hid : Center.cluster_id center = n).
  { destruct (inCluster clusters n metrics); by injection Hkey. }
  rewrite Hid. fold members.
  destruct (inCluster clusters n metrics) as [|m0 cm] eqn:E.
  - injection Hkey as _ -> -> ->. cbn.
    split; [done|]. intros Hm. exfalso. apply Hm.
    destruct members; [done | discriminate Hmem].
  - rewrite Hmem in Hkey. rewrite !sum_by_metricOf, length_fmap in Hkey.
    cbv zeta in Hkey. cbn [Stats.cluster_id Stats.avgRecency Stats.avgFrequency
                           Stats.avgMonetary] in Hkey.
    injection Hkey as _ -> -> ->.
    split; [|done]. intros Hm. rewrite Hm in Hmem. discriminate Hmem.
Qed.

Lemma centers_are_means_witness :
  exists res p',
    performKMeansClustering scenarioA 2 None demoSource 0 = Some (res, p') /\
    Forall (fun center =>
              is_fin (Center.recency_center center) = true) (centers res).
Proof.
  destruct (performKMeansClustering scenarioA 2 None demoSource 0)
    as [[res p']|] eqn:E; [|vm_compute in E; discriminate].
  exists res, p'. split; [reflexivity|].
  apply Forall_forall. intros center Hc.
  destruct (centers_are_means scenarioA 2 None demoSource 0 res p' center E Hc)
    as [H0 H1].
  destruct (decide (filter (fun c => Clustered.cluster_id c
                                     = Some (Center.cluster_id center))
                           (clusteredMetrics res) = [])) as [Hnil|Hne].
  - destruct (H0 Hnil) as [-> _]. reflexivity.
  - vm_compute in E. injection E as <- _.
    repeat (apply elem_of_cons in Hc as [->|Hc]; [reflexivity|]).
    by apply elem_of_nil in Hc.
Defined.

(** ** Worked examples *)

(** Scenario A with [k = 2]: customers 1 and 3 form the cluster ranked first. *)
Example scenarioA_run :
  runKMeansAlgorithm (normalizeData scenarioA) 2 demoSource 0 =
  Some ({| KMeans.centroids :=
             [ [Fin (1 # 87); Fin (8 # 9); Fin (92 # 97)];
               [Fin (24 # 29); Fin 0; Fin (1 # 194)] ];
           KMeans.clusters := [0; 1; 0; 1];
           KMeans.iterations := 2 |}, 2).
Proof. vm_compute. reflexivity. Qed.

Example scenarioA_segments :
  (fun out => Clustered.segment <$> clusteredMetrics (fst out)) <$>
    performKMeansClustering scenarioA 2 None demoSource 0 =
  Some ["VIP"; "Loyal"; "VIP"; "Loyal"]%string.
Proof. vm_compute. reflexivity. Qed.

(** Scenario B: with identical recencies the recency axis is 0 throughout. *)
Example scenarioB_recency :
  normalizeData [ customerA "c1" 30 10 500; customerA "c2" 30 1 20;
                  customerA "c3" 30 4 100 ] =
  [ [Fin 0; Fin 1; Fin 1]; [Fin 0; Fin 0; Fin 0];
    [Fin 0; Fin (1 # 3); Fin (1 # 6)] ].
Proof. vm_compute. reflexivity. Qed.

(** The sharpest bend of 10, 4, 3, 2.5 is at the second candidate. *)
Example elbow_bend : elbow [Fin 10; Fin 4; Fin 3; Fin (5 # 2)] = 3.
Proof. vm_compute. reflexivity. Qed.

(** With a single cluster [b] is [Infinity] and the score is [NaN] as well. *)
Example silhouette_single_cluster :
  calculateSilhouetteScore [[Fin 0; Fin 0; Fin 0]; [Fin 1; Fin 0; Fin 0]] [0; 0]
  = NaN.
Proof. vm_compute. reflexivity. Qed.
